(** * CodeFlow: the OTP engine, the envelope encryption and the vault store

    A shallow embedding of the TypeScript sources
    - [src/services/totpService.ts]          (Base32 decoding, HOTP, TOTP),
    - [src/components/AddAccountModal.tsx]   (Base32 encoding, QR import,
                                              enrollment verification),
    - [services/cryptoService]               (salt, key derivation, envelope),
    - [services/storageService]              (user records, account blobs),
    - [App.tsx]                              (password change),
    followed by the properties that the specification states about them.

    JavaScript strings are sequences of UTF-16 code units and are modelled as
    lists of integers; a [Uint8Array] is a list of integers in [0, 256).
    A thrown exception is the [Throw] case of [result]. *)

From Stdlib Require Import ZArith String Ascii List Lia Bool DecimalString.
From stdpp Require Import gmap list.
Import ListNotations.
Open Scope Z_scope.

(** ** JavaScript values used by the sources *)

Definition jsstring := list Z.
Definition bytes := list Z.

(** A string literal of the source, as code units. *)
Definition str (s : string) : jsstring :=
  map (fun a => Z.of_N (N_of_ascii a)) (list_ascii_of_string s).

(** The exceptions the sources can raise: [Error msg] is [new Error(msg)]
    thrown by the repository's own code, the others are raised by the
    platform ([TypeError] by the language, [DataError] and [OperationError]
    by WebCrypto, [SyntaxError] by [JSON.parse]). *)
Inductive exn :=
| Error (msg : string)
| TypeError
| DataError
| OperationError
| SyntaxError.

Inductive result (A : Type) :=
| Ok (a : A)
| Throw (e : exn).
Arguments Ok {A} a.
Arguments Throw {A} e.

Definition bind {A B} (r : result A) (k : A -> result B) : result B :=
  match r with
  | Ok a => k a
  | Throw e => Throw e
  end.

Notation "'let*' x ':=' r 'in' k" := (bind r (fun x => k))
  (at level 10, x name, r at level 100, k at level 200).

(** [xs.map(f)] where [f] may throw: the first exception escapes. *)
Fixpoint mapM {A B} (f : A -> result B) (xs : list A) : result (list B) :=
  match xs with
  | [] => Ok []
  | x :: xs' => let* y := f x in let* ys := mapM f xs' in Ok (y :: ys)
  end.

Module Js.

(** [s.slice(i, j)] and [arr.slice(i, j)] for [0 <= i <= j]. *)
Definition slice {A} (l : list A) (i j : nat) : list A :=
  take (j - i) (drop i l).

(** [s.padStart(n, c)] with a one-unit filler [c]. *)
Definition padStart (n : nat) (c : Z) (s : jsstring) : jsstring :=
  repeat c (n - length s) ++ s.

(** [s.indexOf(c)] for a one-unit [c]; [-1] when absent. *)
Fixpoint indexOf (s : jsstring) (c : Z) : Z :=
  match s with
  | [] => -1
  | x :: s' =>
      if x =? c then 0
      else let r := indexOf s' c in if r =? -1 then -1 else r + 1
  end.

(** The digit of value [d < 36] as [Number.prototype.toString] writes it. *)
Definition digit_char (d : Z) : Z :=
  if d <? 10 then 48 + d else 87 + d.

Fixpoint pos_digits (fuel : nat) (radix n : Z) (acc : jsstring) : jsstring :=
  match fuel with
  | O => acc
  | S f =>
      if n <? radix then digit_char n :: acc
      else pos_digits f radix (n / radix) (digit_char (n mod radix) :: acc)
  end.

(** [n.toString(radix)] for an integer [n] and [2 <= radix <= 36]. *)
Definition toString (n radix : Z) : jsstring :=
  if n <? 0 then 45 :: pos_digits (Z.to_nat (Z.log2 (- n)) + 1) radix (- n) []
  else pos_digits (Z.to_nat (Z.log2 n) + 1) radix n [].

(** LineTerminator: LF, CR, LS, PS. *)
Definition is_line_terminator (c : Z) : bool :=
  (c =? 10) || (c =? 13) || (c =? 8232) || (c =? 8233).

(** WhiteSpace and LineTerminator, the units [parseInt] and [trim] skip. *)
Definition is_white_space (c : Z) : bool :=
  (c =? 9) || (c =? 11) || (c =? 12) || (c =? 32) || (c =? 160)
  || (c =? 65279) || (c =? 5760) || ((8192 <=? c) && (c <=? 8202))
  || (c =? 8239) || (c =? 8287) || (c =? 12288) || is_line_terminator c.

Fixpoint skip_white_space (s : jsstring) : jsstring :=
  match s with
  | c :: s' => if is_white_space c then skip_white_space s' else s
  | [] => []
  end.

(** The value of a digit character, any letter case. *)
Definition digit_value (c : Z) : option Z :=
  if (48 <=? c) && (c <=? 57) then Some (c - 48)
  else if (97 <=? c) && (c <=? 122) then Some (c - 87)
  else if (65 <=? c) && (c <=? 90) then Some (c - 55)
  else None.

(** The longest prefix of digits below [radix], read left to right;
    [None] when there is no such digit. *)
Fixpoint parse_digits (radix : Z) (s : jsstring) (acc : option Z) : option Z :=
  match s with
  | [] => acc
  | c :: s' =>
      match digit_value c with
      | Some d =>
          if d <? radix
          then parse_digits radix s' (Some (default 0 acc * radix + d))
          else acc
      | None => acc
      end
  end.

(** [parseInt(s, radix)] for an explicit radix in [2, 36]: leading white
    space, an optional sign, for radix 16 an optional [0x] prefix, then the
    longest run of digits. [None] is [NaN]. *)
Definition parseInt (s : jsstring) (radix : Z) : option Z :=
  let s1 := skip_white_space s in
  let '(sign, s2) :=
    match s1 with
    | 45 :: r => (-1, r)
    | 43 :: r => (1, r)
    | _ => (1, s1)
    end in
  let s3 :=
    match s2 with
    | 48 :: x :: r =>
        if (radix =? 16) && ((x =? 120) || (x =? 88)) then r else s2
    | _ => s2
    end in
  match parse_digits radix s3 None with
  | Some v => Some (sign * v)
  | None => None
  end.

(** ToUint8 of a number, as [new Uint8Array(numbers)] stores it. *)
Definition toUint8 (x : option Z) : Z :=
  match x with
  | Some v => v mod 256
  | None => 0
  end.

(** [s.match(/.{1,n}/g)]: successive runs of at most [n] units between line
    terminators ([.] does not match a line terminator); [None] is [null],
    returned when nothing matches. *)
Fixpoint dot_runs (n : nat) (cur : jsstring) (s : jsstring) : list jsstring :=
  match s with
  | [] => match cur with [] => [] | _ => [cur] end
  | c :: s' =>
      if is_line_terminator c
      then match cur with [] => dot_runs n [] s' | _ => cur :: dot_runs n [] s' end
      else
        let cur' := cur ++ [c] in
        if (length cur' =? n)%nat then cur' :: dot_runs n [] s'
        else dot_runs n cur' s'
  end.

Definition match_dot (n : nat) (s : jsstring) : option (list jsstring) :=
  match dot_runs n [] s with
  | [] => None
  | ms => Some ms
  end.

(** [s.replace(/=+$/, '')]: the trailing run of [=] removed. *)
Fixpoint strip_trailing_eq (s : jsstring) : jsstring :=
  match s with
  | [] => []
  | c :: s' =>
      match strip_trailing_eq s' with
      | [] => if c =? 61 then [] else [c]
      | r => c :: r
      end
  end.

(** [s.toUpperCase()]. Basic Latin letters are mapped to their capitals.
    Outside Basic Latin only the characters whose Unicode upper-case mapping
    is written with Basic Latin capitals are mapped (sharp s, dotless i,
    long s and the Latin ligatures); every other unit is left as it is
    (neither such a unit nor its upper-case form is a Base32 symbol). *)
Definition upper_unit (c : Z) : jsstring :=
  if (97 <=? c) && (c <=? 122) then [c - 32]
  else if c =? 223 then str "SS"
  else if c =? 305 then str "I"
  else if c =? 383 then str "S"
  else if c =? 64256 then str "FF"
  else if c =? 64257 then str "FI"
  else if c =? 64258 then str "FL"
  else if c =? 64259 then str "FFI"
  else if c =? 64260 then str "FFL"
  else if (c =? 64261) || (c =? 64262) then str "ST"
  else [c].

Definition toUpperCase (s : jsstring) : jsstring := flat_map upper_unit s.

End Js.

(** ** Hash functions of the platform (FIPS 180-4, RFC 2104)

    [crypto.subtle] is the browser's WebCrypto provider. Its hash and MAC
    primitives are modelled by their standards, on 32-bit words as integers
    with the wrap-around written out. *)

Module Hash.

Definition w32 (x : Z) : Z := x mod 4294967296.

Definition rotl (n x : Z) : Z :=
  Z.lor (w32 (Z.shiftl x n)) (Z.shiftr x (32 - n)).

Definition rotr (n x : Z) : Z := rotl (32 - n) x.

(** Big-endian bytes of the low [8 * n] bits of [x]. *)
Fixpoint be_bytes (n : nat) (x : Z) : bytes :=
  match n with
  | O => []
  | S m => (Z.shiftr x (8 * Z.of_nat m)) mod 256 :: be_bytes m x
  end.

Definition be_word (bs : bytes) : Z :=
  fold_left (fun acc b => acc * 256 + b) bs 0.

Fixpoint words_of (fuel : nat) (bs : bytes) : list Z :=
  match fuel, bs with
  | S f, _ :: _ => be_word (take 4 bs) :: words_of f (drop 4 bs)
  | _, _ => []
  end.

Fixpoint blocks_of (fuel : nat) (ws : list Z) : list (list Z) :=
  match fuel, ws with
  | S f, _ :: _ => take 16 ws :: blocks_of f (drop 16 ws)
  | _, _ => []
  end.

(** Merkle-Damgard padding to a multiple of 64 bytes, bit length last. *)
Definition md_pad (msg : bytes) : bytes :=
  let len := Z.of_nat (length msg) in
  let k := Z.to_nat ((55 - len) mod 64) in
  msg ++ 128 :: repeat 0 k ++ be_bytes 8 (8 * len).

Definition md_blocks (msg : bytes) : list (list Z) :=
  let p := md_pad msg in
  blocks_of (length p) (words_of (length p) p).

Definition word_at (ws : list Z) (i : nat) : Z := nth i ws 0.

(** *** SHA-1 *)

Definition sha1_f (t : nat) (b c d : Z) : Z :=
  if (t <? 20)%nat then Z.lor (Z.land b c) (Z.land (Z.lxor b 4294967295) d)
  else if (t <? 40)%nat then Z.lxor (Z.lxor b c) d
  else if (t <? 60)%nat
       then Z.lor (Z.lor (Z.land b c) (Z.land b d)) (Z.land c d)
  else Z.lxor (Z.lxor b c) d.

Definition sha1_k (t : nat) : Z :=
  if (t <? 20)%nat then 1518500249
  else if (t <? 40)%nat then 1859775393
  else if (t <? 60)%nat then 2400959708
  else 3395469782.

Record sha1_state := Sha1 { s_a : Z; s_b : Z; s_c : Z; s_d : Z; s_e : Z }.

(** Rounds [t, t + n) on the sliding window [w] of sixteen schedule words. *)
Fixpoint sha1_rounds (n t : nat) (w : list Z) (s : sha1_state) : sha1_state :=
  match n with
  | O => s
  | S n' =>
      let wt := word_at w 0 in
      let next :=
        rotl 1 (Z.lxor (Z.lxor (word_at w 13) (word_at w 8))
                       (Z.lxor (word_at w 2) wt)) in
      let tmp :=
        w32 (rotl 5 (s_a s) + sha1_f t (s_b s) (s_c s) (s_d s)
             + s_e s + sha1_k t + wt) in
      sha1_rounds n' (S t) (drop 1 w ++ [next])
        (Sha1 tmp (s_a s) (rotl 30 (s_b s)) (s_c s) (s_d s))
  end.

Definition sha1_block (h : sha1_state) (blk : list Z) : sha1_state :=
  let r := sha1_rounds 80 0 blk h in
  Sha1 (w32 (s_a h + s_a r)) (w32 (s_b h + s_b r)) (w32 (s_c h + s_c r))
       (w32 (s_d h + s_d r)) (w32 (s_e h + s_e r)).

Definition sha1_init : sha1_state :=
  Sha1 1732584193 4023233417 2562383102 271733878 3285377520.

Definition sha1 (msg : bytes) : bytes :=
  let h := fold_left sha1_block (md_blocks msg) sha1_init in
  be_bytes 4 (s_a h) ++ be_bytes 4 (s_b h) ++ be_bytes 4 (s_c h)
  ++ be_bytes 4 (s_d h) ++ be_bytes 4 (s_e h).

(** *** SHA-256 *)

Definition primes64 : list Z :=
  [2; 3; 5; 7; 11; 13; 17; 19; 23; 29; 31; 37; 41; 43; 47; 53; 59; 61; 67;
   71; 73; 79; 83; 89; 97; 101; 103; 107; 109; 113; 127; 131; 137; 139; 149;
   151; 157; 163; 167; 173; 179; 181; 191; 193; 197; 199; 211; 223; 227; 229;
   233; 239; 241; 251; 257; 263; 269; 271; 277; 281; 283; 293; 307; 311].

(** The largest [r] below [2 ^ bits] with [r ^ 3 <= n], one bit at a time. *)
Fixpoint cube_root (bits : nat) (n r : Z) : Z :=
  match bits with
  | O => r
  | S b =>
      let r' := r + 2 ^ Z.of_nat b in
      cube_root b n (if r' * r' * r' <=? n then r' else r)
  end.

(** The first 32 bits of the fractional parts of the cube roots (round
    constants) and of the square roots (initial hash value) of the primes. *)
Definition sha256_k : list Z :=
  Eval vm_compute in map (fun p => w32 (cube_root 36 (p * 2 ^ 96) 0)) primes64.

Definition sha256_init : list Z :=
  Eval vm_compute in map (fun p => w32 (Z.sqrt (p * 2 ^ 64))) (take 8 primes64).

Definition xor3 (a b c : Z) : Z := Z.lxor (Z.lxor a b) c.

Definition big_sigma0 x := xor3 (rotr 2 x) (rotr 13 x) (rotr 22 x).
Definition big_sigma1 x := xor3 (rotr 6 x) (rotr 11 x) (rotr 25 x).
Definition small_sigma0 x := xor3 (rotr 7 x) (rotr 18 x) (Z.shiftr x 3).
Definition small_sigma1 x := xor3 (rotr 17 x) (rotr 19 x) (Z.shiftr x 10).

Definition ch (e f g : Z) : Z :=
  Z.lxor (Z.land e f) (Z.land (Z.lxor e 4294967295) g).

Definition maj (a b c : Z) : Z :=
  xor3 (Z.land a b) (Z.land a c) (Z.land b c).

(** Rounds on the working variables [a; b; c; d; e; f; g; h], with the
    sliding window [w] of sixteen schedule words and the constants left. *)
Fixpoint sha256_rounds (ks : list Z) (w : list Z) (v : list Z) : list Z :=
  match ks with
  | [] => v
  | k :: ks' =>
      let wt := word_at w 0 in
      let next :=
        w32 (small_sigma1 (word_at w 14) + word_at w 9
             + small_sigma0 (word_at w 1) + wt) in
      let t1 :=
        word_at v 7 + big_sigma1 (word_at v 4)
        + ch (word_at v 4) (word_at v 5) (word_at v 6) + k + wt in
      let t2 :=
        big_sigma0 (word_at v 0) + maj (word_at v 0) (word_at v 1) (word_at v 2) in
      sha256_rounds ks' (drop 1 w ++ [next])
        [w32 (t1 + t2); word_at v 0; word_at v 1; word_at v 2;
         w32 (word_at v 3 + t1); word_at v 4; word_at v 5; word_at v 6]
  end.

Fixpoint add_words (xs ys : list Z) : list Z :=
  match xs, ys with
  | x :: xs', y :: ys' => w32 (x + y) :: add_words xs' ys'
  | _, _ => []
  end.

Definition sha256_block (h : list Z) (blk : list Z) : list Z :=
  add_words h (sha256_rounds sha256_k blk h).

Definition sha256 (msg : bytes) : bytes :=
  flat_map (be_bytes 4) (fold_left sha256_block (md_blocks msg) sha256_init).

(** *** HMAC over a hash with 64-byte blocks *)

Definition hmac (H : bytes -> bytes) (key msg : bytes) : bytes :=
  let k0 := if (64 <? length key)%nat then H key else key in
  let k := k0 ++ repeat 0 (64 - length k0) in
  H (map (Z.lxor 92) k ++ H (map (Z.lxor 54) k ++ msg)).

(** *** PBKDF2 with HMAC-SHA-256 (RFC 8018), one output block of 32 bytes *)

Fixpoint xor_bytes (xs ys : bytes) : bytes :=
  match xs, ys with
  | x :: xs', y :: ys' => Z.lxor x y :: xor_bytes xs' ys'
  | _, _ => []
  end.

Definition pbkdf2_sha256 (password salt : bytes) (iterations : N) : bytes :=
  let u1 := hmac sha256 password (salt ++ be_bytes 4 1) in
  snd (N.iter (N.pred iterations)
         (fun '(u, t) => let u' := hmac sha256 password u in (u', xor_bytes t u'))
         (u1, u1)).

End Hash.

(** ** src/components/AddAccountModal.tsx: [bytesToBase32] *)

Definition base32Chars : jsstring := str "ABCDEFGHIJKLMNOPQRSTUVWXYZ234567".

(** [base32Chars[value]] appended to a string: the symbol, or the text
    [undefined] when the index is [NaN] or out of range. *)
Definition base32_symbol (value : option Z) : jsstring :=
  match value with
  | Some v =>
      if v <? 0 then str "undefined"
      else match base32Chars !! Z.to_nat v with
           | Some c => [c]
           | None => str "undefined"
           end
  | None => str "undefined"
  end.

(** The loop [for (let i = 0; i < bits.length; i += 5)]: one iteration per
    unit of fuel, [base32] being the text built so far. *)
Fixpoint bytesToBase32_loop (fuel : nat) (bits : jsstring) (i : nat)
    (base32 : jsstring) : jsstring :=
  match fuel with
  | O => base32
  | S f =>
      if (i <? length bits)%nat then
        let chunk := Js.slice bits i (i + 5) in
        bytesToBase32_loop f bits (i + 5)
          (if (length chunk =? 5)%nat
           then base32 ++ base32_symbol (Js.parseInt chunk 2)
           else base32)
      else base32
  end.

Definition bytesToBase32 (bs : bytes) : jsstring :=
  let bits := flat_map (fun b => Js.padStart 8 48 (Js.toString b 2)) bs in
  bytesToBase32_loop (length bits) bits 0 [].

(** ** src/services/totpService.ts *)

Definition base32ToBytes (base32 : jsstring) : result bytes :=
  let* groups :=
    mapM (fun char =>
            let val := Js.indexOf base32Chars char in
            if val =? -1 then Throw (Error "Invalid base32 character")
            else Ok (Js.padStart 5 48 (Js.toString val 2)))
         (Js.strip_trailing_eq (Js.toUpperCase base32)) in
  let bits := concat groups in
  match Js.match_dot 8 bits with
  | None => Throw TypeError
  | Some chunks =>
      let nums := map (fun chunk => Js.parseInt chunk 2) chunks in
      Ok (map Js.toUint8 (Js.slice nums 0 (length bits / 8)))
  end.

(** ToInt32, and the 32-bit operators [&], [|] and [<<]. An array read
    beyond the end is [undefined], which ToInt32 turns into 0. *)
Definition toInt32 (x : Z) : Z :=
  (x + 2147483648) mod 4294967296 - 2147483648.

Definition js_and (a b : Z) : Z := toInt32 (Z.land (toInt32 a) (toInt32 b)).
Definition js_or (a b : Z) : Z := toInt32 (Z.lor (toInt32 a) (toInt32 b)).
Definition js_shl (a n : Z) : Z := toInt32 (Z.shiftl (toInt32 a) (n mod 32)).

Definition byte_at (arr : bytes) (i : Z) : Z :=
  if i <? 0 then 0 else default 0 (arr !! Z.to_nat i).

(** [view.setUint32(_, v, false)]: ToUint32 of [v], big-endian. *)
Definition setUint32 (v : Z) : bytes := Hash.be_bytes 4 (v mod 4294967296).

(** [crypto.subtle.importKey('raw', data, {name: 'HMAC', hash: 'SHA-1'}, ..)]:
    WebCrypto rejects a zero-length HMAC key with a [DataError]. *)
Definition importKey_HMAC (data : bytes) : result bytes :=
  match data with
  | [] => Throw DataError
  | _ => Ok data
  end.

(** [crypto.subtle.sign('HMAC', key, buffer)] for an HMAC-SHA-1 key. *)
Definition sign_HMAC (key buffer : bytes) : bytes :=
  Hash.hmac Hash.sha1 key buffer.

Definition generateHOTP (secret : jsstring) (counter : Z) : result jsstring :=
  let* decodedSecret := base32ToBytes secret in
  let hi := counter / 4294967296 in
  let lo := Z.rem counter 4294967296 in
  let buffer := setUint32 hi ++ setUint32 lo in
  let* key := importKey_HMAC decodedSecret in
  let hmacBytes := sign_HMAC key buffer in
  let offset :=
    js_and (byte_at hmacBytes (Z.of_nat (length hmacBytes) - 1)) 15 in
  let binary :=
    js_or (js_or (js_or (js_shl (js_and (byte_at hmacBytes offset) 127) 24)
                        (js_shl (js_and (byte_at hmacBytes (offset + 1)) 255) 16))
                 (js_shl (js_and (byte_at hmacBytes (offset + 2)) 255) 8))
          (js_and (byte_at hmacBytes (offset + 3)) 255) in
  let otp := Z.rem binary 1000000 in
  Ok (Js.padStart 6 48 (Js.toString otp 10)).

(** [Math.floor(Date.now() / 1000 / period)] with [period = 30]: the clock
    [now] is in milliseconds, the two divisions are exact in the reals. *)
Definition time_counter (now : Z) : Z := now / (1000 * 30).

Definition generateTOTP (now : Z) (secret : jsstring) : result jsstring :=
  generateHOTP secret (time_counter now).

(** ** AES-256 in Galois/Counter Mode (FIPS 197, NIST SP 800-38D)

    The cipher behind [crypto.subtle.encrypt] and [decrypt] for
    [{name: 'AES-GCM', iv}] with a 256-bit key, no additional data and the
    default 128-bit tag. Only the forward cipher is needed. *)

Module Aes.

Definition xtime (a : Z) : Z :=
  let b := Z.shiftl a 1 in
  if Z.testbit a 7 then Z.lxor (b mod 256) 27 else b.

(** Product in GF(2^8), [bits] binary digits of [b] at a time. *)
Fixpoint gf_mul (bits : nat) (a b : Z) : Z :=
  match bits with
  | O => 0
  | S n =>
      Z.lxor (if Z.odd b then a else 0) (gf_mul n (xtime a) (Z.shiftr b 1))
  end.

Definition gf_square (a : Z) : Z := gf_mul 8 a a.

(** The inverse [a ^ 254], with 0 mapped to 0. *)
Definition gf_inv (a : Z) : Z :=
  let a2 := gf_square a in
  let a4 := gf_square a2 in
  let a8 := gf_square a4 in
  let a16 := gf_square a8 in
  let a32 := gf_square a16 in
  let a64 := gf_square a32 in
  let a128 := gf_square a64 in
  gf_mul 8 a128 (gf_mul 8 a64 (gf_mul 8 a32 (gf_mul 8 a16
    (gf_mul 8 a8 (gf_mul 8 a4 a2))))).

Definition rotl8 (x n : Z) : Z :=
  Z.lor (Z.shiftl x n mod 256) (Z.shiftr x (8 - n)).

Definition sbox_of (a : Z) : Z :=
  let b := gf_inv a in
  Z.lxor (Z.lxor (Z.lxor b (rotl8 b 1)) (Z.lxor (rotl8 b 2) (rotl8 b 3)))
         (Z.lxor (rotl8 b 4) 99).

Definition sbox_table : list Z :=
  Eval vm_compute in map (fun n => sbox_of (Z.of_nat n)) (seq 0 256).

Definition sub_byte (a : Z) : Z := nth (Z.to_nat a) sbox_table 0.

Definition at_ (l : list Z) (i : nat) : Z := nth i l 0.

(** The state is the block in input order: byte [r + 4 * c] is row [r] of
    column [c]. *)
Definition shift_rows (s : list Z) : list Z :=
  map (fun i => at_ s (i mod 4 + 4 * ((i / 4 + i mod 4) mod 4))) (seq 0 16).

Definition mix_column (c : list Z) : list Z :=
  let m2 x := xtime x in
  let m3 x := Z.lxor (xtime x) x in
  [ Z.lxor (Z.lxor (m2 (at_ c 0)) (m3 (at_ c 1))) (Z.lxor (at_ c 2) (at_ c 3));
    Z.lxor (Z.lxor (at_ c 0) (m2 (at_ c 1))) (Z.lxor (m3 (at_ c 2)) (at_ c 3));
    Z.lxor (Z.lxor (at_ c 0) (at_ c 1)) (Z.lxor (m2 (at_ c 2)) (m3 (at_ c 3)));
    Z.lxor (Z.lxor (m3 (at_ c 0)) (at_ c 1)) (Z.lxor (at_ c 2) (m2 (at_ c 3))) ].

Definition mix_columns (s : list Z) : list Z :=
  flat_map (fun c => mix_column (take 4 (drop (4 * c) s))) (seq 0 4).

(** Key expansion for [Nk = 8]: the schedule as a list of bytes, four per
    word, grown one word at a time from word [i]. *)
Fixpoint expand (n : nat) (i : nat) (rcon : Z) (w : list Z) : list Z :=
  match n with
  | O => w
  | S n' =>
      let prev := take 4 (drop (4 * (i - 1)) w) in
      let back := take 4 (drop (4 * (i - 8)) w) in
      let temp :=
        if (i mod 8 =? 0)%nat then
          Hash.xor_bytes (map sub_byte (drop 1 prev ++ take 1 prev))
                         [rcon; 0; 0; 0]
        else if (i mod 8 =? 4)%nat then map sub_byte prev
        else prev in
      expand n' (S i) (if (i mod 8 =? 0)%nat then xtime rcon else rcon)
             (w ++ Hash.xor_bytes back temp)
  end.

Definition key_schedule (key : bytes) : list Z := expand 52 8 1 key.

Definition round_key (ks : list Z) (r : nat) : list Z :=
  take 16 (drop (16 * r) ks).

Fixpoint rounds (n : nat) (r : nat) (ks s : list Z) : list Z :=
  match n with
  | O => s
  | S n' =>
      rounds n' (S r) ks
        (Hash.xor_bytes (mix_columns (shift_rows (map sub_byte s)))
                        (round_key ks r))
  end.

(** The forward cipher on one 16-byte block. *)
Definition cipher (ks : list Z) (block : bytes) : bytes :=
  let s := rounds 13 1 ks (Hash.xor_bytes block (round_key ks 0)) in
  Hash.xor_bytes (shift_rows (map sub_byte s)) (round_key ks 14).

(** *** GCM: blocks are 128-bit integers, most significant bit first *)

Definition block_of (bs : bytes) : Z :=
  Hash.be_word (bs ++ repeat 0 (16 - length bs)).

Definition bytes_of (x : Z) : bytes := Hash.be_bytes 16 x.

(** The product of SP 800-38D, 6.3: bit [i] of [x] counted from the left. *)
Fixpoint gmul (n : nat) (x v z : Z) : Z :=
  match n with
  | O => z
  | S n' =>
      let z' := if Z.testbit x (Z.of_nat n') then Z.lxor z v else z in
      let v' :=
        if Z.odd v
        then Z.lxor (Z.shiftr v 1) 299076299051606071403356588563077529600
        else Z.shiftr v 1 in
      gmul n' x v' z'
  end.

Fixpoint blocks16 (fuel : nat) (bs : bytes) : list Z :=
  match fuel, bs with
  | S f, _ :: _ => block_of (take 16 bs) :: blocks16 f (drop 16 bs)
  | _, _ => []
  end.

Definition ghash (h : Z) (blocks : list Z) : Z :=
  fold_left (fun y x => gmul 128 (Z.lxor y x) h 0) blocks 0.

Definition inc32 (x : Z) : Z :=
  Z.lor (Z.shiftl (Z.shiftr x 32) 32) ((x + 1) mod 4294967296).

(** The key stream of [n] bytes from counter block [cb]. *)
Fixpoint key_stream (blocks : nat) (ks : list Z) (cb : Z) : bytes :=
  match blocks with
  | O => []
  | S b => cipher ks (bytes_of cb) ++ key_stream b ks (inc32 cb)
  end.

Definition gctr (ks : list Z) (icb : Z) (data : bytes) : bytes :=
  Hash.xor_bytes data (key_stream (length data / 16 + 1) ks icb).

Definition j0 (h : Z) (iv : bytes) : Z :=
  if (length iv =? 12)%nat then Hash.be_word (iv ++ [0; 0; 0; 1])
  else ghash h (blocks16 (length iv) iv ++ [8 * Z.of_nat (length iv)]).

Definition tag (ks : list Z) (h j : Z) (c : bytes) : bytes :=
  let s := ghash h (blocks16 (length c) c ++ [8 * Z.of_nat (length c)]) in
  Hash.xor_bytes (bytes_of s) (cipher ks (bytes_of j)).

Definition gcm_encrypt (key iv plaintext : bytes) : bytes :=
  let ks := key_schedule key in
  let h := block_of (cipher ks (repeat 0 16)) in
  let j := j0 h iv in
  let c := gctr ks (inc32 j) plaintext in
  c ++ tag ks h j c.

(** [None] when the input is shorter than a tag or the tag does not match. *)
Definition gcm_decrypt (key iv data : bytes) : option bytes :=
  if (length data <? 16)%nat then None
  else
    let ks := key_schedule key in
    let h := block_of (cipher ks (repeat 0 16)) in
    let j := j0 h iv in
    let c := take (length data - 16) data in
    let t := drop (length data - 16) data in
    if bool_decide (tag ks h j c = t)
    then Some (gctr ks (inc32 j) c)
    else None.

End Aes.

(** ** [TextEncoder] and [TextDecoder] (WHATWG Encoding, UTF-8) *)

Module Text.

Definition is_high (c : Z) : bool := (55296 <=? c) && (c <=? 56319).
Definition is_low (c : Z) : bool := (56320 <=? c) && (c <=? 57343).

(** The scalar values of a string: a surrogate pair is one code point, a
    lone surrogate is replaced by U+FFFD. *)
Fixpoint scalars (s : jsstring) : list Z :=
  match s with
  | [] => []
  | c :: s' =>
      if is_high c then
        match s' with
        | d :: s'' =>
            if is_low d
            then 65536 + (c - 55296) * 1024 + (d - 56320) :: scalars s''
            else 65533 :: scalars s'
        | [] => [65533]
        end
      else if is_low c then 65533 :: scalars s'
      else c :: scalars s'
  end.

Definition utf8 (cp : Z) : bytes :=
  if cp <? 128 then [cp]
  else if cp <? 2048 then [192 + cp / 64; 128 + cp mod 64]
  else if cp <? 65536
       then [224 + cp / 4096; 128 + (cp / 64) mod 64; 128 + cp mod 64]
  else [240 + cp / 262144; 128 + (cp / 4096) mod 64;
        128 + (cp / 64) mod 64; 128 + cp mod 64].

(** [new TextEncoder().encode(s)] *)
Definition encode (s : jsstring) : bytes := flat_map utf8 (scalars s).

(** The state of the UTF-8 decoder. *)
Record decoder := Decoder {
  code_point : Z;
  bytes_needed : nat;
  bytes_seen : nat;
  lower_boundary : Z;
  upper_boundary : Z
}.

Definition initial : decoder := Decoder 0 0 0 128 191.

(** A byte read when no bytes are needed. *)
Definition lead (b : Z) : decoder * list Z :=
  if b <=? 127 then (initial, [b])
  else if (194 <=? b) && (b <=? 223)
       then (Decoder (Z.land b 31) 1 0 128 191, [])
  else if (224 <=? b) && (b <=? 239)
       then (Decoder (Z.land b 15) 2 0
               (if b =? 224 then 160 else 128)
               (if b =? 237 then 159 else 191), [])
  else if (240 <=? b) && (b <=? 244)
       then (Decoder (Z.land b 7) 3 0
               (if b =? 240 then 144 else 128)
               (if b =? 244 then 143 else 191), [])
  else (initial, [65533]).

(** One byte: the new state and the code points emitted. A byte outside
    the boundaries ends the sequence with U+FFFD and is read again as a
    first byte. *)
Definition step (st : decoder) (b : Z) : decoder * list Z :=
  match bytes_needed st with
  | O => lead b
  | S _ =>
      if (lower_boundary st <=? b) && (b <=? upper_boundary st) then
        let cp := Z.lor (Z.shiftl (code_point st) 6) (Z.land b 63) in
        if (S (bytes_seen st) =? bytes_needed st)%nat then (initial, [cp])
        else (Decoder cp (bytes_needed st) (S (bytes_seen st)) 128 191, [])
      else let '(st', out) := lead b in (st', 65533 :: out)
  end.

Fixpoint run (st : decoder) (bs : bytes) : list Z :=
  match bs with
  | [] => match bytes_needed st with O => [] | S _ => [65533] end
  | b :: bs' => let '(st', out) := step st b in out ++ run st' bs'
  end.

(** The UTF-16 code units of a code point. *)
Definition units (cp : Z) : jsstring :=
  if cp <? 65536 then [cp]
  else [55296 + (cp - 65536) / 1024; 56320 + (cp - 65536) mod 1024].

(** The byte order mark EF BB BF at the start, removed. *)
Definition strip_bom (bs : bytes) : bytes :=
  match bs with
  | a :: b :: c :: r =>
      if (a =? 239) && (b =? 187) && (c =? 191) then r else bs
  | _ => bs
  end.

(** [new TextDecoder().decode(bs)]: UTF-8, not fatal, and a byte order
    mark at the start is removed ([ignoreBOM] is false by default). *)
Definition decode (bs : bytes) : jsstring :=
  flat_map units (run initial (strip_bom bs)).

End Text.

(** ** services/cryptoService *)

(** The random source behind [crypto.getRandomValues]: the values it is
    going to return, one per byte asked. *)
Definition rng := nat -> Z.

Definition getRandomValues (n : nat) (r : rng) : bytes * rng :=
  (map (fun i => r i mod 256) (seq 0 n), fun i => r (n + i)%nat).

(** [Array.from(bs).map(b => b.toString(16).padStart(2, '0')).join('')] *)
Definition hex_of_bytes (bs : bytes) : jsstring :=
  flat_map (fun b => Js.padStart 2 48 (Js.toString b 16)) bs.

(** [new Uint8Array(hex.match(/.{1,2}/g)!.map(byte => parseInt(byte, 16)))] *)
Definition bytes_of_hex (hex : jsstring) : result bytes :=
  match Js.match_dot 2 hex with
  | None => Throw TypeError
  | Some pairs => Ok (map (fun byte => Js.toUint8 (Js.parseInt byte 16)) pairs)
  end.

Definition generateSalt (r : rng) : (bytes * jsstring) * rng :=
  let '(salt, r') := getRandomValues 16 r in
  ((salt, hex_of_bytes salt), r').

(** An AES-GCM [CryptoKey], by its raw bytes. *)
Definition CryptoKey := bytes.

Definition deriveKey (password : jsstring) (salt : bytes) : CryptoKey :=
  Hash.pbkdf2_sha256 (Text.encode password) salt 100000.

Definition encrypt (data : jsstring) (key : CryptoKey) (r : rng)
    : jsstring * rng :=
  let '(iv, r') := getRandomValues 12 r in
  let encryptedData := Aes.gcm_encrypt key iv (Text.encode data) in
  let ivHex := hex_of_bytes iv in
  let encryptedHex := hex_of_bytes encryptedData in
  (ivHex ++ str ":" ++ encryptedHex, r').

(** [s.split(sep)] for a one-unit separator. *)
Fixpoint split (sep : Z) (s : jsstring) : list jsstring :=
  match s with
  | [] => [[]]
  | c :: s' =>
      if c =? sep then [] :: split sep s'
      else match split sep s' with
           | p :: ps => (c :: p) :: ps
           | [] => [[c]]
           end
  end.

(** [!s] for a string that may be [undefined] or [null]. *)
Definition falsy (s : option jsstring) : bool :=
  match s with
  | Some (_ :: _) => false
  | _ => true
  end.

Definition decrypt (encryptedStr : jsstring) (key : CryptoKey)
    : result jsstring :=
  let parts := split 58 encryptedStr in
  let ivHex := parts !! 0%nat in
  let encryptedHex := parts !! 1%nat in
  if falsy ivHex || falsy encryptedHex
  then Throw (Error "Invalid encrypted data format")
  else
    let* iv := bytes_of_hex (default [] ivHex) in
    let* encryptedData := bytes_of_hex (default [] encryptedHex) in
    match Aes.gcm_decrypt key iv encryptedData with
    | None => Throw OperationError
    | Some decryptedData => Ok (Text.decode decryptedData)
    end.

(** ** Values read from and written to JSON *)

#[warnings="-register-all"]
Inductive JsValue :=
| JNull
| JBool (b : bool)
| JNumber (ieee : Z)
| JString (s : jsstring)
| JArray (items : list JsValue)
| JObject (fields : list (jsstring * JsValue)).

(** ToBoolean; a number is given by the bits of its IEEE 754 double. *)
Definition truthy (v : JsValue) : bool :=
  match v with
  | JNull => false
  | JBool b => b
  | JNumber ieee => negb ((ieee =? 0) || (ieee =? 2 ^ 63))
  | JString s => match s with [] => false | _ => true end
  | JArray _ | JObject _ => true
  end.

Fixpoint assoc (fields : list (jsstring * JsValue)) (name : jsstring)
    : option JsValue :=
  match fields with
  | [] => None
  | (k, v) :: fields' =>
      if bool_decide (k = name) then Some v else assoc fields' name
  end.

(** [v.name] for one of the names read by the sources, none of which is a
    property of an array, a string or another primitive: [None] is
    [undefined]. *)
Definition prop (v : JsValue) (name : jsstring) : option JsValue :=
  match v with
  | JObject fields => assoc fields name
  | _ => None
  end.

(** [typeof x === 'string'] and the value then. *)
Definition as_string (x : option JsValue) : option jsstring :=
  match x with
  | Some (JString s) => Some s
  | _ => None
  end.

(** [v.name = x] on an object: an existing property keeps its place. *)
Fixpoint assign (fields : list (jsstring * JsValue)) (name : jsstring)
    (x : JsValue) : list (jsstring * JsValue) :=
  match fields with
  | [] => [(name, x)]
  | (k, v) :: fields' =>
      if bool_decide (k = name) then (k, x) :: fields'
      else (k, v) :: assign fields' name x
  end.

Definition set_prop (v : JsValue) (name : jsstring) (x : JsValue) : JsValue :=
  match v with
  | JObject fields => JObject (assign fields name x)
  | _ => v
  end.

(** ** services/storageService and App.tsx

    [JSON.parse] and [JSON.stringify] are the platform's; nothing is
    assumed about them. *)

Abbreviation Storage := (gmap jsstring jsstring).

Definition getStorageKey (email : jsstring) : jsstring :=
  str "totp-accounts-" ++ email.

Definition getUserKey (email : jsstring) : jsstring :=
  str "totp-user-" ++ email.

Definition userExists (ls : Storage) (email : jsstring) : bool :=
  match ls !! getUserKey email with
  | Some _ => true
  | None => false
  end.

Definition deleteUser (email : jsstring) (ls : Storage) : Storage :=
  delete (getUserKey email) (delete (getStorageKey email) ls).

(** The state of [App] that the sources below read and write, with the
    browser's [localStorage] and random source. *)
Record App := mkApp {
  accounts : JsValue;
  masterKey : option CryptoKey;
  currentUser : option jsstring;
  localStorage : Storage;
  random : rng
}.

Section Storage.

Variable JSON_parse : jsstring -> result JsValue.
Variable JSON_stringify : JsValue -> jsstring.

Definition saveUser (email saltHex : jsstring) (ls : Storage) : Storage :=
  let userData := JObject [(str "salt", JString saltHex);
                           (str "email", JString email)] in
  <[getUserKey email := JSON_stringify userData]> ls.

Definition loadUser (ls : Storage) (email : jsstring) : option JsValue :=
  match ls !! getUserKey email with
  | None | Some [] => None
  | Some data =>
      match JSON_parse data with
      | Ok parsed =>
          if truthy parsed
             && bool_decide (is_Some (as_string (prop parsed (str "email"))))
             && bool_decide (is_Some (as_string (prop parsed (str "salt"))))
          then Some parsed
          else None
      | Throw _ => None
      end
  end.

Definition saveAccounts (accs : JsValue) (key : CryptoKey) (email : jsstring)
    (ls : Storage) (r : rng) : Storage * rng :=
  let data := JSON_stringify accs in
  let '(encryptedData, r') := encrypt data key r in
  (<[getStorageKey email := encryptedData]> ls, r').

Definition loadAccounts (key : CryptoKey) (email : jsstring) (ls : Storage)
    : result JsValue :=
  match ls !! getStorageKey email with
  | None | Some [] => Ok (JArray [])
  | Some encryptedData =>
      let* decryptedData := decrypt encryptedData key in
      JSON_parse decryptedData
  end.

Definition updateUserEmail (oldEmail newEmail : jsstring) (ls : Storage)
    : bool * Storage :=
  if userExists ls newEmail then (false, ls)
  else
    let ls1 :=
      match loadUser ls oldEmail with
      | Some userData =>
          let userData' := set_prop userData (str "email") (JString newEmail) in
          delete (getUserKey oldEmail)
            (<[getUserKey newEmail := JSON_stringify userData']> ls)
      | None => ls
      end in
    let ls2 :=
      match ls1 !! getStorageKey oldEmail with
      | Some (c :: accountsData) =>
          delete (getStorageKey oldEmail)
            (<[getStorageKey newEmail := c :: accountsData]> ls1)
      | _ => ls1
      end in
    (true, ls2).

(** [handleChangePassword] of App.tsx: the outcome and the state after. *)
Definition handleChangePassword (currentPassword newPassword : jsstring)
    (app : App) : result unit * App :=
  match currentUser app, masterKey app with
  | Some (c :: user'), Some _ =>
      let user := c :: user' in
      match loadUser (localStorage app) user with
      | None => (Throw (Error "Dados do usuário não encontrados."), app)
      | Some userData =>
          match
            bytes_of_hex (default [] (as_string (prop userData (str "salt"))))
          with
          | Throw e => (Throw e, app)
          | Ok salt =>
              let verificationKey := deriveKey currentPassword salt in
              match loadAccounts verificationKey user (localStorage app) with
              | Throw _ => (Throw (Error "A senha atual está incorreta."), app)
              | Ok _ =>
                  let newKey := deriveKey newPassword salt in
                  let '(ls', r') :=
                    saveAccounts (accounts app) newKey user
                                 (localStorage app) (random app) in
                  (Ok tt, mkApp (accounts app) (Some newKey)
                                (currentUser app) ls' r')
              end
          end
      end
  | _, _ =>
      (Throw (Error "Usuário não está logado ou a chave mestra está ausente."),
       app)
  end.

End Storage.

(** ** src/components/AddAccountModal.tsx: import and verification *)

(** [Omit<Account, 'id'>] *)
Record NewAccount := mkAccount {
  issuer : jsstring;
  name : jsstring;
  secret : jsstring;
  username : option jsstring;
  password : option jsstring
}.

(** One [OtpParameters] sub-message as [MigrationPayload.toObject] returns
    it, with [bytes: Array] and [longs: String]; an absent field is [None]. *)
Record OtpParameters := mkOtp {
  otp_secret : option bytes;
  otp_name : option jsstring;
  otp_issuer : option jsstring;
  otp_algorithm : option Z;
  otp_digits : option Z;
  otp_type : option Z;
  otp_counter : option jsstring
}.

(** The state of the modal and the calls it makes to its owner. *)
Record Modal := mkModal {
  error : option string;
  successMessage : option string;
  accountToVerify : option NewAccount;
  verificationCode : jsstring;
  onAddAccount : list NewAccount;
  onAddMultipleAccounts : list (list NewAccount)
}.

(** [a || b] on strings that may be absent. *)
Definition or_else (a : option jsstring) (b : jsstring) : jsstring :=
  match a with
  | Some (c :: a') => c :: a'
  | _ => b
  end.

Definition migrated_account (param : OtpParameters) : NewAccount :=
  mkAccount
    (or_else (otp_issuer param) (or_else (otp_name param) []))
    (or_else (otp_name param) [])
    (bytesToBase32
       (map (fun x => Js.toUint8 (Some x)) (default [] (otp_secret param))))
    None None.

(** The migration branch of [handleQrScan], from the decoded
    [payloadObject.otpParameters] on (the URL, Base64 and protobuf decoding
    before it are the work of the platform and of protobuf.js). *)
Definition handleQrScan_migration (otpParameters : option (list OtpParameters))
    (m : Modal) : Modal :=
  match otpParameters with
  | None | Some [] =>
      mkModal (Some "Nenhuma conta encontrada no QR code de migração."%string)
              (successMessage m) (accountToVerify m) (verificationCode m)
              (onAddAccount m) (onAddMultipleAccounts m)
  | Some params =>
      let newAccounts := map migrated_account params in
      mkModal (error m)
              (Some (NilZero.string_of_uint (Nat.to_uint (length newAccounts))
                     ++ " conta(s) importada(s) com sucesso!")%string)
              (accountToVerify m) (verificationCode m)
              (onAddAccount m) (onAddMultipleAccounts m ++ [newAccounts])
  end.

(** [validCodes.includes(code)] *)
Definition includes (codes : list jsstring) (code : jsstring) : bool :=
  existsb (fun c => bool_decide (c = code)) codes.

(** [handleVerificationSubmit] at clock reading [now] (milliseconds). *)
Definition handleVerificationSubmit (now : Z) (m : Modal) : Modal :=
  match accountToVerify m with
  | None => m
  | Some account =>
      let counter := time_counter now in
      let validCodes :=
        let* c0 := generateHOTP (secret account) (counter - 1) in
        let* c1 := generateHOTP (secret account) counter in
        let* c2 := generateHOTP (secret account) (counter + 1) in
        Ok [c0; c1; c2] in
      match validCodes with
      | Ok codes =>
          if includes codes (verificationCode m)
          then mkModal None (Some "Conta adicionada com sucesso!"%string)
                       (accountToVerify m) (verificationCode m)
                       (onAddAccount m ++ [account]) (onAddMultipleAccounts m)
          else mkModal
                 (Some "Código de verificação incorreto. Tente novamente."%string)
                 (successMessage m) (accountToVerify m) []
                 (onAddAccount m) (onAddMultipleAccounts m)
      | Throw _ =>
          mkModal
            (Some "Falha ao verificar o código. Verifique se a chave secreta está correta."%string)
            (successMessage m) (accountToVerify m) (verificationCode m)
            (onAddAccount m) (onAddMultipleAccounts m)
      end
  end.

(** ** Vocabulary of the Base32 proofs *)

Definition is_byte (b : Z) : Prop := 0 <= b < 256.

Definition is_bit (c : Z) : bool := (c =? 48) || (c =? 49).

(** A string without line terminators, which [.] matches unit by unit. *)
Definition one_line (s : jsstring) : Prop :=
  Forall (fun c => Js.is_line_terminator c = false) s.

(** The eight binary digits [bytes[i].toString(2).padStart(8, '0')]. *)
Definition byte_bits (b : Z) : jsstring := Js.padStart 8 48 (Js.toString b 2).

(** The Base32 symbol appended for a five-digit chunk. *)
Definition chunk_symbol (w : jsstring) : jsstring :=
  base32_symbol (Js.parseInt w 2).

(** The callback of [split('').map(..)] in [base32ToBytes]. *)
Definition symbol_bits (char : Z) : result jsstring :=
  let val := Js.indexOf base32Chars char in
  if val =? -1 then Throw (Error "Invalid base32 character")
  else Ok (Js.padStart 5 48 (Js.toString val 2)).

Definition byte_check (n : nat) : bool :=
  let b := Z.of_nat n in
  (length (byte_bits b) =? 8)%nat && forallb is_bit (byte_bits b)
  && match Js.parseInt (byte_bits b) 2 with
     | Some v => v =? b
     | None => false
     end.

Definition word_check (w : jsstring) : bool :=
  match chunk_symbol w with
  | [c] =>
      negb (c =? 61) && negb (Js.is_line_terminator c)
      && match Js.upper_unit c with [c'] => c' =? c | _ => false end
      && match symbol_bits c with
         | Ok w' => bool_decide (w' = w)
         | Throw _ => false
         end
  | _ => false
  end.

(** ** RFC 4226, as the specification words it *)

(** The counter as 8 bytes, big-endian. *)
Definition counter_bytes (counter : Z) : bytes := Hash.be_bytes 8 counter.

Definition digest_at (digest : bytes) (i : Z) : Z := nth (Z.to_nat i) digest 0.

(** [offset = digest[19] & 0x0F] and the 31-bit value read at [offset]. *)
Definition dynamic_truncation (digest : bytes) : Z :=
  let offset := Z.land (digest_at digest 19) 15 in
  Z.lor (Z.lor (Z.lor
    (Z.shiftl (Z.land (digest_at digest offset) 127) 24)
    (Z.shiftl (Z.land (digest_at digest (offset + 1)) 255) 16))
    (Z.shiftl (Z.land (digest_at digest (offset + 2)) 255) 8))
    (Z.land (digest_at digest (offset + 3)) 255).

(** A value below one million in exactly six decimal digits. *)
Definition six_digits (v : Z) : jsstring :=
  map (fun i => 48 + (v / 10 ^ i) mod 10) [5; 4; 3; 2; 1; 0].

Definition hotp_rfc4226 (key : bytes) (counter : Z) : jsstring :=
  six_digits
    (dynamic_truncation (Hash.hmac Hash.sha1 key (counter_bytes counter))
     mod 1000000).

(** ** Vocabulary of the envelope proofs *)

(** The two digits [b.toString(16).padStart(2, '0')]. *)
Definition hex_pair (b : Z) : jsstring := Js.padStart 2 48 (Js.toString b 16).

Definition is_hex_digit (c : Z) : bool :=
  ((48 <=? c) && (c <=? 57)) || ((97 <=? c) && (c <=? 102)).

Definition hex_check (n : nat) : bool :=
  let b := Z.of_nat n in
  (length (hex_pair b) =? 2)%nat && forallb is_hex_digit (hex_pair b)
  && (Js.toUint8 (Js.parseInt (hex_pair b) 16) =? b).

(** A string of UTF-16 code units. *)
Definition is_unit (c : Z) : Prop := 0 <= c < 65536.

(** Well-formed UTF-16: code units, every high surrogate followed by a low
    one and no other low surrogate. *)
Fixpoint well_formed (s : jsstring) : bool :=
  match s with
  | [] => true
  | c :: s' =>
      (0 <=? c) && (c <? 65536) &&
      if Text.is_high c then
        match s' with
        | d :: s'' => Text.is_low d && well_formed s''
        | [] => false
        end
      else negb (Text.is_low c) && well_formed s'
  end.

(** The text starts with U+FEFF, the byte order mark. *)
Definition starts_with_bom (s : jsstring) : bool :=
  match s with
  | c :: _ => c =? 65279
  | [] => false
  end.

Definition byte_ok (b : Z) : bool := (0 <=? b) && (b <? 256).

(** A Unicode scalar value: a code point that is not a surrogate. *)
Definition is_scalar (cp : Z) : Prop :=
  0 <= cp < 55296 \/ 57344 <= cp < 1114112.

(** Envelope texts that [decrypt] is specified to refuse and does refuse:
    no delimiter, an empty IV field, an empty ciphertext field. *)
Inductive malformed : jsstring -> Prop :=
| no_delimiter s : ~ In 58 s -> malformed s
| empty_iv rest : malformed (58 :: rest)
| empty_ciphertext iv : ~ In 58 iv -> malformed (iv ++ [58])
| empty_ciphertext_then iv rest : ~ In 58 iv -> malformed (iv ++ 58 :: 58 :: rest).

(** The secret of a sub-message as the [Uint8Array] made from it. *)
Definition secret_bytes (param : OtpParameters) : bytes :=
  map (fun x => Js.toUint8 (Some x)) (default [] (otp_secret param)).

(** ** A store and a JSON reader for the examples

    The record that [saveUser] writes for [a@b] with salt [00ff], its text,
    and a reader and writer that know this record and the empty list. *)

Definition quoted (s : jsstring) : jsstring := 34 :: s ++ [34].

Definition sample_text : jsstring :=
  str "{" ++ quoted (str "salt") ++ str ":" ++ quoted (str "00ff") ++ str ","
  ++ quoted (str "email") ++ str ":" ++ quoted (str "a@b") ++ str "}".

Definition sample_record : JsValue :=
  JObject [(str "salt", JString (str "00ff"));
           (str "email", JString (str "a@b"))].

Definition sample_parse (s : jsstring) : result JsValue :=
  if bool_decide (s = sample_text) then Ok sample_record
  else if bool_decide (s = str "[]") then Ok (JArray [])
  else Throw SyntaxError.

Definition sample_stringify (v : JsValue) : jsstring :=
  match v with
  | JArray [] => str "[]"
  | _ => sample_text
  end.

Definition sample_store : Storage :=
  {[ getUserKey (str "a@b") := sample_text ]}.

Definition sample_app : App :=
  mkApp (JArray []) (Some (repeat 7 32%nat)) (Some (str "a@b")) sample_store
        (fun i => Z.of_nat i).

(** A modal that is verifying the 20-byte secret of RFC 4226, with the code
    of counter 0 typed in. *)
Definition sample_account : NewAccount :=
  mkAccount (str "Example") (str "me")
            (str "GEZDGNBVGY3TQOJQGEZDGNBVGY3TQOJQ") None None.

Definition sample_modal : Modal :=
  mkModal None None (Some sample_account) (str "755224") [] [].

Definition word5 (w : jsstring) : Prop :=
  length w = 5%nat /\ forallb is_bit w = true.

(** Migration payloads as [toObject] returns them: sub-messages with
    secrets of ten and twenty bytes, and of sixteen and twenty bytes. *)
Definition sample_payload : list OtpParameters :=
  [mkOtp (Some (str "1234567890")) (Some (str "me")) None None None None None;
   mkOtp (Some (str "12345678901234567890")) (Some (str "you"))
         (Some (str "Example")) None None None None].

Definition migrated_payload : list OtpParameters :=
  [mkOtp (Some (str "1234567890123456")) (Some (str "me")) None None None
         None None;
   mkOtp (Some (str "12345678901234567890")) (Some (str "you"))
         (Some (str "Example")) None None None None].

(** A vault with one account: the list, its JSON text, and a reader and
    writer that know this list, the record of [a@b] and the empty list. *)
Definition vault_accounts : JsValue :=
  JArray [JObject [(str "id", JString (str "1"));
                   (str "issuer", JString (str "Example"));
                   (str "name", JString (str "me"));
                   (str "secret",
                    JString (str "GEZDGNBVGY3TQOJQGEZDGNBVGY3TQOJQ"))]].

Definition accounts_text : jsstring :=
  str "[{" ++ quoted (str "id") ++ str ":" ++ quoted (str "1") ++ str ","
  ++ quoted (str "issuer") ++ str ":" ++ quoted (str "Example") ++ str ","
  ++ quoted (str "name") ++ str ":" ++ quoted (str "me") ++ str ","
  ++ quoted (str "secret") ++ str ":"
  ++ quoted (str "GEZDGNBVGY3TQOJQGEZDGNBVGY3TQOJQ") ++ str "}]".

Definition vault_stringify (v : JsValue) : jsstring :=
  match v with
  | JArray [] => str "[]"
  | JArray (_ :: _) => accounts_text
  | _ => sample_text
  end.

Definition vault_parse (s : jsstring) : result JsValue :=
  if bool_decide (s = sample_text) then Ok sample_record
  else if bool_decide (s = accounts_text) then Ok vault_accounts
  else if bool_decide (s = str "[]") then Ok (JArray [])
  else Throw SyntaxError.

(** The session of [a@b], logged in with the password [old-password]: the
    store holds the record and the account list sealed by [saveAccounts]
    under the key of that password and the salt [00ff] of the record. *)
Definition sealed_app : App :=
  let key := deriveKey (str "old-password") [0; 255] in
  let saved :=
    saveAccounts vault_stringify vault_accounts key (str "a@b") sample_store
                 (fun i => Z.of_nat i) in
  mkApp vault_accounts (Some key) (Some (str "a@b")) (fst saved) (snd saved).

(** The same session over a store whose blob was cut down to one byte of
    ciphertext. *)
Definition corrupted_app : App :=
  mkApp vault_accounts (Some (deriveKey (str "old-password") [0; 255]))
        (Some (str "a@b"))
        (<[getStorageKey (str "a@b") := str "00:ff"]> sample_store)
        (fun i => Z.of_nat i).

(** ** Vocabulary of the cipher proofs *)

(** The product by the constant [k] in GF(2^8). *)
Definition gf_times (k x : Z) : Z := Aes.gf_mul 8 x k.

(** The inverse of [Aes.mix_column] (FIPS 197, 5.3.3). *)
Definition inv_mix_column (c : list Z) : list Z :=
  let a := Aes.at_ c in
  [ Z.lxor (Z.lxor (gf_times 14 (a 0%nat)) (gf_times 11 (a 1%nat)))
           (Z.lxor (gf_times 13 (a 2%nat)) (gf_times 9 (a 3%nat)));
    Z.lxor (Z.lxor (gf_times 9 (a 0%nat)) (gf_times 14 (a 1%nat)))
           (Z.lxor (gf_times 11 (a 2%nat)) (gf_times 13 (a 3%nat)));
    Z.lxor (Z.lxor (gf_times 13 (a 0%nat)) (gf_times 9 (a 1%nat)))
           (Z.lxor (gf_times 14 (a 2%nat)) (gf_times 11 (a 3%nat)));
    Z.lxor (Z.lxor (gf_times 11 (a 0%nat)) (gf_times 13 (a 1%nat)))
           (Z.lxor (gf_times 9 (a 2%nat)) (gf_times 14 (a 3%nat))) ].

(** The place of a byte in the S-box. *)
Definition inv_sub_byte (b : Z) : Z := Js.indexOf Aes.sbox_table b.

(** A column that is zero but for row [i]. *)
Definition unit_column (i : nat) (a : Z) : list Z := <[i := a]> [0; 0; 0; 0].

(** A block: sixteen bytes. *)
Definition is_block (s : list Z) : Prop :=
  length s = 16%nat /\ Forall is_byte s.

(** ** src/hooks/useTotp.ts: the one-second tick *)

Module UseTotp.

Record View := mkView {
  code : jsstring;
  timeLeft : Z;
  currentCounter : option Z
}.

(** [update()]: the code of [generateTOTP(secret)], which reads the clock
    as [now'], or the text [Error]. *)
Definition update (now' : Z) (secret : jsstring) (v : View) : View :=
  mkView (match generateTOTP now' secret with
          | Ok newCode => newCode
          | Throw _ => str "Error"
          end)
         (timeLeft v) (currentCounter v).

(** The callback of [setInterval], run when the clock reads [now]. *)
Definition tick (now now' : Z) (secret : jsstring) (v : View) : View :=
  let epoch := now / 1000 in
  let newTimeLeft := 30 - Z.rem epoch 30 in
  let newCounter := epoch / 30 in
  let v' :=
    match currentCounter v with
    | Some c => if c =? newCounter then v else update now' secret v
    | None => v
    end in
  mkView (code v') newTimeLeft (Some newCounter).

(** The body of the effect after the timer is set. *)
Definition mount (now now' : Z) (secret : jsstring) : View :=
  let initialEpoch := now / 1000 in
  update now' secret
    (mkView (str "------") (30 - Z.rem initialEpoch 30) (Some (initialEpoch / 30))).

End UseTotp.

(** ** The earlier hook (src/unnamed/part_000): refresh when the remaining
    time reads a full period *)

Module UseTotpRound.

Record View := mkView {
  code : jsstring;
  timeLeft : Z
}.

(** [Math.round(x / 1000.0)]: the nearest integer, halves upwards. *)
Definition round_seconds (now : Z) : Z := (now + 500) / 1000.

Definition update (now' : Z) (secret : jsstring) (v : View) : View :=
  mkView (match generateTOTP now' secret with
          | Ok newCode => newCode
          | Throw _ => str "Error"
          end)
         (timeLeft v).

Definition tick (now now' : Z) (secret : jsstring) (v : View) : View :=
  let epoch := round_seconds now in
  let newTimeLeft := 30 - Z.rem epoch 30 in
  let v' := if newTimeLeft =? 30 then update now' secret v else v in
  mkView (code v') newTimeLeft.

End UseTotpRound.

(** ** services/storageService: [clearAllData] *)

(** [s.startsWith(prefix)] *)
Definition startsWith (s prefix : jsstring) : bool :=
  bool_decide (take (length prefix) s = prefix).

Definition vault_key (key : jsstring) : bool :=
  negb (falsy (Some key))
  && (startsWith key (str "totp-accounts-") || startsWith key (str "totp-user-")).

(** The keys are collected first, in the order [localStorage.key(i)] gives
    them, then removed one by one. *)
Definition clearAllData (ls : Storage) : Storage :=
  let keysToRemove := List.filter vault_key (map fst (map_to_list ls)) in
  fold_left (fun m key => delete key m) keysToRemove ls.

(** ** App.tsx: registration, login and logout *)

(** [s.toLowerCase()]. Basic Latin capitals are mapped to small letters.
    Outside Basic Latin only the two characters whose lower-case mapping
    contains a Basic Latin letter are mapped (capital I with dot, Kelvin
    sign); every other unit is left as it is, which decides an equality
    with a Basic Latin text the same way. *)
Definition lower_unit (c : Z) : jsstring :=
  if (65 <=? c) && (c <=? 90) then [c + 32]
  else if c =? 304 then [105; 775]
  else if c =? 8490 then [107]
  else [c].

Definition toLowerCase (s : jsstring) : jsstring := flat_map lower_unit s.

Definition getAdminUser : jsstring := str "norulex@gmail.com".

(** [App] with the error text it shows. *)
Record Screen := mkScreen {
  vault : App;
  shown_error : option string
}.

(** What ChangePasswordModal shows after a submission: a refusal of its
    own, the message of the error that [onChangePassword] threw, or the
    success text. *)
Inductive Submitted :=
| Refused (msg : string)
| Failed (e : exn)
| Changed (msg : string).

Section AppHandlers.

Variable JSON_parse : jsstring -> result JsValue.
Variable JSON_stringify : JsValue -> jsstring.

Definition handleRegister (email password : jsstring) (s : Screen)
    : result unit * Screen :=
  let a := vault s in
  if bool_decide (toLowerCase email = toLowerCase getAdminUser) then
    (Throw (Error "This email is reserved for the administrator."),
     mkScreen a (Some "Este email é reservado."%string))
  else if userExists (localStorage a) email then
    (Throw (Error "Email already exists"),
     mkScreen a (Some "Este email já está em uso."%string))
  else
    let '((salt, saltHex), r1) := generateSalt (random a) in
    let ls1 := saveUser JSON_stringify email saltHex (localStorage a) in
    let key := deriveKey password salt in
    let '(ls2, r2) :=
      saveAccounts JSON_stringify (JArray []) key email ls1 r1 in
    (Ok tt, mkScreen (mkApp (JArray []) (Some key) (Some email) ls2 r2) None).

Definition handleLogin (email password : jsstring) (s : Screen)
    : result unit * Screen :=
  let a := vault s in
  let failed e :=
    (Throw e,
     mkScreen a (Some "Senha incorreta ou os dados estão corrompidos."%string)) in
  if negb (userExists (localStorage a) email) then
    (Throw (Error "User not found"),
     mkScreen a (Some "Usuário não encontrado."%string))
  else
    match loadUser JSON_parse (localStorage a) email with
    | None => failed (Error "User data not found")
    | Some userData =>
        match
          bytes_of_hex (default [] (as_string (prop userData (str "salt"))))
        with
        | Throw e => failed e
        | Ok salt =>
            let key := deriveKey password salt in
            match loadAccounts JSON_parse key email (localStorage a) with
            | Throw e => failed e
            | Ok decryptedAccounts =>
                (Ok tt,
                 mkScreen (mkApp decryptedAccounts (Some key) (Some email)
                             (localStorage a) (random a)) None)
            end
        end
    end.

Definition handleLogout (s : Screen) : Screen :=
  mkScreen (mkApp (JArray []) None None (localStorage (vault s)) (random (vault s)))
           None.

(** [handleSubmit] of ChangePasswordModal.tsx, with [onChangePassword]
    being [handleChangePassword]: what the modal shows and the state. *)
Definition changePassword_submit
    (currentPassword newPassword confirmPassword : jsstring) (a : App)
    : Submitted * App :=
  if negb (bool_decide (newPassword = confirmPassword)) then
    (Refused "As novas senhas não coincidem.", a)
  else if (length newPassword <? 8)%nat then
    (Refused "A nova senha deve ter pelo menos 8 caracteres.", a)
  else if bool_decide (currentPassword = newPassword) then
    (Refused "A nova senha deve ser diferente da senha atual.", a)
  else
    match
      handleChangePassword JSON_parse JSON_stringify currentPassword
        newPassword a
    with
    | (Ok _, a') => (Changed "Senha alterada com sucesso!", a')
    | (Throw e, a') => (Failed e, a')
    end.

End AppHandlers.

(** ** src/components/AddAccountModal.tsx: manual entry and file import *)

(** [s.trim()] and [s.replace(/\s/g, '')] *)
Definition trim (s : jsstring) : jsstring :=
  rev (Js.skip_white_space (rev (Js.skip_white_space s))).

Definition remove_white_space (s : jsstring) : jsstring :=
  List.filter (fun c => negb (Js.is_white_space c)) s.

(** [handleManualSubmit] on the contents of the five form fields. *)
Definition handleManualSubmit (issuer0 name0 secret0 username0 password0 : jsstring)
    (m : Modal) : Modal :=
  match trim name0, trim secret0 with
  | _ :: _, _ :: _ =>
      mkModal (error m) (successMessage m)
        (Some (mkAccount (or_else (Some (trim issuer0)) (trim name0))
                         (trim name0)
                         (remove_white_space (trim secret0))
                         (Some (trim username0)) (Some password0)))
        (verificationCode m) (onAddAccount m) (onAddMultipleAccounts m)
  | _, _ =>
      mkModal (Some "Nome da conta e segredo são obrigatórios."%string)
        (successMessage m) (accountToVerify m) (verificationCode m)
        (onAddAccount m) (onAddMultipleAccounts m)
  end.

(** An account read from a JSON file: whatever values the file holds. *)
Record ImportedAccount := mkImported {
  imp_issuer : JsValue;
  imp_name : JsValue;
  imp_secret : JsValue;
  imp_username : option JsValue;
  imp_password : option JsValue
}.

(** [!x] for a property that may be [undefined]. *)
Definition absent_or_falsy (x : option JsValue) : bool :=
  match x with
  | Some v => negb (truthy v)
  | None => true
  end.

(** [typeof item !== 'object'] *)
Definition not_object (item : JsValue) : bool :=
  match item with
  | JNull | JArray _ | JObject _ => false
  | _ => true
  end.

Definition is_null (item : JsValue) : bool :=
  match item with
  | JNull => true
  | _ => false
  end.

(** The callback of [data.map((item, index) => ..)] in [handleFileImport]. *)
Definition import_item (index : nat) (item : JsValue) : result ImportedAccount :=
  if not_object item || is_null item
     || absent_or_falsy (prop item (str "secret"))
     || absent_or_falsy (prop item (str "name"))
  then Throw (Error ("Entrada inválida no índice "
                     ++ NilZero.string_of_uint (Nat.to_uint index)
                     ++ ". As propriedades 'name' e 'secret' são obrigatórias."))
  else
    let name := default JNull (prop item (str "name")) in
    Ok (mkImported
          (match prop item (str "issuer") with
           | Some v => if truthy v then v else name
           | None => name
           end)
          name
          (default JNull (prop item (str "secret")))
          (prop item (str "username"))
          (prop item (str "password"))).

Fixpoint import_items (index : nat) (items : list JsValue)
    : result (list ImportedAccount) :=
  match items with
  | [] => Ok []
  | item :: items' =>
      let* a := import_item index item in
      let* rest := import_items (S index) items' in
      Ok (a :: rest)
  end.

(** The [try] block of [reader.onload] in [handleFileImport], from the
    value that [JSON.parse] returned: the accounts handed to
    [onAddMultipleAccounts], or the error shown. *)
Definition handleFileImport (data : JsValue) : result (list ImportedAccount) :=
  match data with
  | JArray items =>
      let* newAccounts := import_items 0 items in
      match newAccounts with
      | [] => Throw (Error "Nenhuma conta válida encontrada no arquivo.")
      | _ => Ok newAccounts
      end
  | _ => Throw (Error "O arquivo JSON deve conter um array (lista) de contas.")
  end.

(** ** Vocabulary of the further properties *)

Definition lower_ascii (c : Z) : Z :=
  if (65 <=? c) && (c <=? 90) then c + 32 else c.

(** What the hook shows for a counter: the code, or the text [Error]. *)
Definition shown (secret : jsstring) (counter : Z) : jsstring :=
  match generateHOTP secret counter with
  | Ok newCode => newCode
  | Throw _ => str "Error"
  end.

Definition is_digit (c : Z) : Prop := 48 <= c <= 57.

(** An item that [handleFileImport] accepts. *)
Definition importable (item : JsValue) : bool :=
  negb (not_object item || is_null item
        || absent_or_falsy (prop item (str "secret"))
        || absent_or_falsy (prop item (str "name"))).

(** The view shows the code of the period of clock reading [now] and
    remembers that period's counter. *)
Definition up_to_date (secret : jsstring) (now : Z) (v : UseTotp.View) : Prop :=
  UseTotp.currentCounter v = Some (time_counter now)
  /\ UseTotp.code v = shown secret (time_counter now).

(** The sample store with a blob for [a@b]. *)
Definition sample_vault : Storage :=
  <[getStorageKey (str "a@b") := str "00:ff"]> sample_store.

(** Whether a blob is stored for [a@b]. *)
Definition has_sample_blob (a : App) : bool :=
  match localStorage a !! getStorageKey (str "a@b") with
  | Some _ => true
  | None => false
  end.

(** The text of a user record with plain strings, and a reader and writer
    that know the record registered for [c@d] from the random source that
    counts 0, 1, 2, ... *)
Definition record_text (saltHex email : jsstring) : jsstring :=
  str "{" ++ quoted (str "salt") ++ str ":" ++ quoted saltHex ++ str ","
  ++ quoted (str "email") ++ str ":" ++ quoted email ++ str "}".

Definition counting : rng := fun i => Z.of_nat i.

Definition registered_record : JsValue :=
  JObject [(str "salt", JString (str "000102030405060708090a0b0c0d0e0f"));
           (str "email", JString (str "c@d"))].

Definition registered_stringify (v : JsValue) : jsstring :=
  match v with
  | JObject [(_, JString h); (_, JString e)] => record_text h e
  | _ => str "[]"
  end.

Definition registered_parse (s : jsstring) : result JsValue :=
  if bool_decide (s = registered_stringify registered_record)
  then Ok registered_record
  else if bool_decide (s = str "[]") then Ok (JArray [])
  else Throw SyntaxError.

Definition fresh_screen : Screen :=
  mkScreen (mkApp (JArray []) None None sample_store counting) None.

Definition no_white_space (s : jsstring) : Prop :=
  Forall (fun c => Js.is_white_space c = false) s.

Definition invalid_entry (index : nat) : exn :=
  Error ("Entrada inválida no índice "
         ++ NilZero.string_of_uint (Nat.to_uint index)
         ++ ". As propriedades 'name' e 'secret' são obrigatórias.").

(** A file of two items: one with an issuer, one with an empty issuer, a
    user name and a password. *)
Definition sample_file : list JsValue :=
  [JObject [(str "issuer", JString (str "GitHub"));
            (str "name", JString (str "me"));
            (str "secret", JString (str "JBSWY3DP"))];
   JObject [(str "issuer", JString []);
            (str "name", JString (str "you"));
            (str "secret", JString (str "GEZDGNBVGY3TQOJQ"));
            (str "password", JString (str "pw"))]].

(** * Properties *)

(** ** Facts on the string primitives *)

Lemma dot_runs_group n g : forall cur rest,
  (length cur + length g = n)%nat -> g <> [] -> one_line g ->
  Js.dot_runs n cur (g ++ rest) = (cur ++ g) :: Js.dot_runs n [] rest.
Proof.
  induction g as [|c g IH]; intros cur rest Hn Hg Hb; [contradiction|].
  apply Forall_cons in Hb as [Hc Hb'].
  cbn [app Js.dot_runs]. rewrite Hc. cbn zeta.
  destruct g as [|c' g].
  - rewrite length_app. cbn [length] in *.
    replace (length cur + 1)%nat with n by lia. now rewrite Nat.eqb_refl.
  - destruct (Nat.eqb_spec (length (cur ++ [c])) n) as [E|_].
    { rewrite length_app in E. cbn [length] in *. lia. }
    rewrite (IH (cur ++ [c]) rest); [| | discriminate | assumption].
    + now rewrite <- app_assoc.
    + rewrite length_app. cbn [length] in *. lia.
Qed.

Lemma dot_runs_rest n t : forall cur,
  (length cur + length t < n)%nat -> one_line t ->
  Js.dot_runs n cur t = match cur ++ t with [] => [] | r => [r] end.
Proof.
  induction t as [|c t IH]; intros cur Hn Hb.
  - cbn [Js.dot_runs]. rewrite app_nil_r. now destruct cur.
  - apply Forall_cons in Hb as [Hc Hb'].
    cbn [Js.dot_runs]. rewrite Hc. cbn zeta. cbn [length] in Hn.
    destruct (Nat.eqb_spec (length (cur ++ [c])) n) as [E|_].
    { rewrite length_app in E. cbn [length] in *. lia. }
    rewrite IH; [| rewrite length_app; cbn [length]; lia | assumption].
    now rewrite <- app_assoc.
Qed.

Lemma dot_runs_groups n (gs : list jsstring) tail :
  (0 < n)%nat ->
  Forall (fun g => length g = n) gs ->
  one_line (concat gs ++ tail) -> (length tail < n)%nat ->
  Js.dot_runs n [] (concat gs ++ tail)
  = gs ++ match tail with [] => [] | r => [r] end.
Proof.
  intros Hn. induction 1 as [|g gs Hg _ IH]; intros Hb Ht.
  - cbn [concat app] in *.
    rewrite dot_runs_rest; [now destruct tail | cbn [length]; lia | assumption].
  - cbn [concat] in *. rewrite <- app_assoc in *.
    apply Forall_app in Hb as [Hb1 Hb2].
    rewrite dot_runs_group; [| cbn; lia | | assumption].
    + cbn [app]. now rewrite IH.
    + intros ->. cbn in Hg. lia.
Qed.

Lemma byte_check_all : forallb byte_check (seq 0 256) = true.
Proof. vm_compute. reflexivity. Qed.

Lemma byte_bits_spec b :
  is_byte b ->
  length (byte_bits b) = 8%nat /\ forallb is_bit (byte_bits b) = true
  /\ Js.parseInt (byte_bits b) 2 = Some b.
Proof.
  intros Hb. pose proof byte_check_all as H.
  rewrite forallb_forall in H. specialize (H (Z.to_nat b)).
  unfold is_byte in Hb.
  assert (Hin : In (Z.to_nat b) (seq 0 256)) by (apply in_seq; lia).
  apply H in Hin. unfold byte_check in Hin.
  rewrite Z2Nat.id in Hin by lia.
  apply andb_true_iff in Hin as [Hin H3]. apply andb_true_iff in Hin as [H1 H2].
  apply Nat.eqb_eq in H1. repeat split; try assumption.
  destruct (Js.parseInt (byte_bits b) 2); [| discriminate].
  apply Z.eqb_eq in H3. congruence.
Qed.

Lemma is_bit_cases c : is_bit c = true -> c = 48 \/ c = 49.
Proof. unfold is_bit. intros H. apply orb_true_iff in H. lia. Qed.

Lemma word_check_ok w :
  length w = 5%nat -> forallb is_bit w = true -> word_check w = true.
Proof.
  destruct w as [|a [|b [|c [|d [|e [|]]]]]]; try discriminate. intros _ H.
  cbn [forallb] in H.
  repeat match type of H with
         | (_ && _)%bool = true =>
             let H1 := fresh "B" in
             apply andb_true_iff in H as [H1 H]; apply is_bit_cases in H1
         end.
  clear H.
  destruct B as [-> | ->], B0 as [-> | ->], B1 as [-> | ->],
    B2 as [-> | ->], B3 as [-> | ->]; vm_compute; reflexivity.
Qed.

Lemma word_symbol w :
  length w = 5%nat -> forallb is_bit w = true ->
  exists c, chunk_symbol w = [c] /\ c <> 61
            /\ Js.upper_unit c = [c] /\ symbol_bits c = Ok w.
Proof.
  intros Hl Hb. pose proof (word_check_ok w Hl Hb) as H.
  unfold word_check in H.
  destruct (chunk_symbol w) as [|c [|]]; try discriminate.
  exists c. split; [reflexivity|].
  apply andb_true_iff in H as [H H4]. apply andb_true_iff in H as [H H3].
  apply andb_true_iff in H as [H1 H2].
  split; [apply negb_true_iff in H1; lia|].
  split.
  - destruct (Js.upper_unit c) as [|c' [|]]; try discriminate.
    apply Z.eqb_eq in H3. congruence.
  - destruct (symbol_bits c); [|discriminate].
    apply bool_decide_eq_true_1 in H4. now subst.
Qed.

(** Every list splits into full words of [k] elements and a shorter rest. *)
Lemma split_words {A} (k : nat) (l : list A) :
  (0 < k)%nat ->
  exists ws tail, l = concat ws ++ tail
    /\ Forall (fun w => length w = k) ws /\ (length tail < k)%nat.
Proof.
  intros Hk. remember (length l) as n eqn:Hn.
  revert l Hn. induction n as [n IH] using lt_wf_ind. intros l Hn.
  destruct (Nat.lt_ge_cases (length l) k) as [Hlt | Hge].
  - exists [], l. repeat split; [constructor | assumption].
  - destruct (IH (length (drop k l))) with (l := drop k l)
      as (ws & tail & E & F & T).
    + rewrite Hn, length_drop. lia.
    + reflexivity.
    + exists (take k l :: ws), tail. repeat split.
      * cbn [concat]. rewrite <- app_assoc, <- E. symmetry. apply take_drop.
      * constructor; [rewrite length_take; lia | assumption].
      * assumption.
Qed.

Lemma loop_done fuel bits i acc :
  (length bits <= i)%nat -> bytesToBase32_loop fuel bits i acc = acc.
Proof.
  intros H. destruct fuel; [reflexivity|]. cbn [bytesToBase32_loop].
  destruct (Nat.ltb_spec i (length bits)); [lia | reflexivity].
Qed.

Lemma loop_words ws : forall tail fuel pre acc,
  Forall (fun w => length w = 5%nat) ws -> (length tail < 5)%nat ->
  (length (concat ws ++ tail) <= fuel)%nat ->
  bytesToBase32_loop fuel (pre ++ concat ws ++ tail) (length pre) acc
  = acc ++ flat_map chunk_symbol ws.
Proof.
  induction ws as [|w ws IH]; intros tail fuel pre acc Hws Ht Hf.
  - cbn [concat flat_map app] in *. rewrite app_nil_r.
    destruct tail as [|t tail].
    { apply loop_done. rewrite app_nil_r. lia. }
    destruct fuel; [cbn in Hf; lia|]. cbn [bytesToBase32_loop].
    destruct (Nat.ltb_spec (length pre) (length (pre ++ t :: tail)));
      [| reflexivity].
    unfold Js.slice. rewrite drop_app_length.
    replace (length pre + 5 - length pre)%nat with 5%nat by lia.
    rewrite take_ge by lia.
    destruct (Nat.eqb_spec (length (t :: tail)) 5); [lia|].
    apply loop_done. rewrite length_app. lia.
  - inversion Hws as [|? ? Hw Hws']; subst.
    destruct fuel; [cbn in Hf; rewrite !length_app in Hf; lia|].
    cbn [bytesToBase32_loop concat].
    destruct (Nat.ltb_spec (length pre) (length (pre ++ (w ++ concat ws) ++ tail))) as [_|Hge];
      [| rewrite !length_app in Hge; lia].
    unfold Js.slice. rewrite drop_app_length.
    replace (length pre + 5 - length pre)%nat with 5%nat by lia.
    rewrite <- (app_assoc w), take_app_length' by lia.
    rewrite Hw, Nat.eqb_refl.
    assert (Hf' : (length (concat ws ++ tail) <= fuel)%nat).
    { cbn [concat] in Hf. rewrite !length_app in Hf. rewrite length_app. lia. }
    specialize (IH tail fuel (pre ++ w) (acc ++ chunk_symbol w) Hws' Ht Hf').
    rewrite length_app, Hw, <- app_assoc in IH.
    fold (chunk_symbol w). rewrite IH.
    cbn [flat_map]. now rewrite app_assoc.
Qed.

Lemma flat_map_bits bs :
  Forall is_byte bs ->
  forallb is_bit (flat_map byte_bits bs) = true
  /\ length (flat_map byte_bits bs) = (8 * length bs)%nat.
Proof.
  induction 1 as [|b bs Hb _ [IH1 IH2]]; [split; reflexivity|].
  destruct (byte_bits_spec b Hb) as (L & B & _).
  cbn [flat_map]. rewrite forallb_app, length_app, B, IH1, L, IH2.
  split; [reflexivity | cbn [length]; lia].
Qed.

Lemma bytesToBase32_words bs ws tail :
  flat_map byte_bits bs = concat ws ++ tail ->
  Forall (fun w => length w = 5%nat) ws -> (length tail < 5)%nat ->
  bytesToBase32 bs = flat_map chunk_symbol ws.
Proof.
  intros E Hws Ht. unfold bytesToBase32. fold byte_bits. rewrite E.
  apply (loop_words ws tail _ [] []); auto.
Qed.

Lemma forallb_concat_app (ws : list jsstring) tail :
  forallb is_bit (concat ws ++ tail) = true ->
  Forall (fun w => forallb is_bit w = true) ws /\ forallb is_bit tail = true.
Proof.
  induction ws as [|w ws IH]; cbn [concat app]; intros H.
  - split; [constructor | assumption].
  - rewrite <- app_assoc, forallb_app in H.
    apply andb_true_iff in H as [Hw H]. destruct (IH H). split; auto.
Qed.

Lemma strip_trailing_eq_id s :
  Forall (fun c => c <> 61) s -> Js.strip_trailing_eq s = s.
Proof.
  induction 1 as [|c s Hc _ IH]; [reflexivity|].
  cbn [Js.strip_trailing_eq]. rewrite IH. destruct s; [|reflexivity].
  destruct (Z.eqb_spec c 61); [contradiction | reflexivity].
Qed.

Lemma symbols_of_words ws :
  Forall word5 ws ->
  let s := flat_map chunk_symbol ws in
  Js.toUpperCase s = s /\ Forall (fun c => c <> 61) s
  /\ mapM symbol_bits s = Ok ws.
Proof.
  induction 1 as [|w ws [Hl Hb] _ (IH1 & IH2 & IH3)]; cbn zeta.
  - repeat split. constructor.
  - destruct (word_symbol w Hl Hb) as (c & E & Hc & Hu & Hs).
    cbn [flat_map]. rewrite E. cbn [app]. unfold Js.toUpperCase in *.
    cbn [flat_map mapM]. rewrite Hu, Hs, IH1. cbn [app bind].
    cbn zeta in IH3. rewrite IH3. repeat split. constructor; assumption.
Qed.

Lemma bit_not_terminator c : is_bit c = true -> Js.is_line_terminator c = false.
Proof. intros H. apply is_bit_cases in H as [-> | ->]; reflexivity. Qed.

Lemma bits_one_line s : forallb is_bit s = true -> one_line s.
Proof.
  unfold one_line. rewrite forallb_forall, Forall_forall. intros H c Hc.
  apply bit_not_terminator, H. now apply list_elem_of_In.
Qed.

Lemma uniform_prefix {A} (k : nat) (gs : list (list A)) : forall hs t,
  Forall (fun g => length g = k) gs -> Forall (fun h => length h = k) hs ->
  (0 < k)%nat -> concat gs ++ t = concat hs ->
  gs = take (length gs) hs.
Proof.
  induction gs as [|g gs IH]; intros hs t Hgs Hhs Hk E; [reflexivity|].
  inversion Hgs as [|? ? Hg Hgs']; subst.
  destruct hs as [|h hs].
  - cbn [concat] in E. destruct g; [cbn in Hk; lia | discriminate].
  - inversion Hhs as [|? ? Hh Hhs']; subst.
    cbn [concat] in E. rewrite <- app_assoc in E.
    apply app_inj_1 in E as [-> E]; [| congruence].
    cbn [length take]. f_equal. eapply IH; eauto.
Qed.

Lemma concat_length_uniform {A} (k : nat) (gs : list (list A)) :
  Forall (fun g => length g = k) gs -> length (concat gs) = (k * length gs)%nat.
Proof.
  induction 1 as [|g gs Hg _ IH]; cbn [concat length]; [lia|].
  rewrite length_app, IH, Hg. lia.
Qed.

Lemma parse_byte_bits bs :
  Forall is_byte bs ->
  map Js.toUint8 (map (fun chunk => Js.parseInt chunk 2) (map byte_bits bs)) = bs.
Proof.
  induction 1 as [|b bs Hb _ IH]; [reflexivity|].
  cbn [map]. destruct (byte_bits_spec b Hb) as (_ & _ & ->).
  rewrite IH. cbn [Js.toUint8]. unfold is_byte in Hb.
  rewrite Z.mod_small by lia. reflexivity.
Qed.

Lemma base32ToBytes_unfold base32 :
  base32ToBytes base32 =
  let* groups :=
    mapM symbol_bits (Js.strip_trailing_eq (Js.toUpperCase base32)) in
  let bits := concat groups in
  match Js.match_dot 8 bits with
  | None => Throw TypeError
  | Some chunks =>
      let nums := map (fun chunk => Js.parseInt chunk 2) chunks in
      Ok (map Js.toUint8 (Js.slice nums 0 (length bits / 8)))
  end.
Proof. unfold base32ToBytes, symbol_bits. reflexivity. Qed.

(** What decoding returns on the encoder's output: the bytes that the
    emitted symbols cover in full. *)
Lemma base32_decode_encode bs :
  bs <> [] -> Forall is_byte bs ->
  base32ToBytes (bytesToBase32 bs)
  = Ok (take (5 * (8 * length bs / 5) / 8) bs).
Proof.
  intros Hne Hbs.
  destruct (flat_map_bits bs Hbs) as [Hbits Hlen].
  destruct (split_words 5 (flat_map byte_bits bs)) as (ws & t5 & E5 & Hws & Ht5);
    [lia|].
  rewrite E5 in Hbits, Hlen.
  destruct (forallb_concat_app ws t5 Hbits) as [Hwb _].
  assert (Hw5 : Forall word5 ws).
  { clear -Hws Hwb. induction Hws; inversion Hwb; subst; constructor; auto.
    split; auto. }
  rewrite (bytesToBase32_words bs ws t5 E5 Hws Ht5).
  destruct (symbols_of_words ws Hw5) as (Hup & Hne61 & Hmap).
  rewrite base32ToBytes_unfold, Hup, strip_trailing_eq_id, Hmap by assumption.
  cbn [bind]. cbn zeta.
  pose proof (concat_length_uniform 5 ws Hws) as Lws.
  rewrite length_app in Hlen.
  assert (Lbs : (0 < length bs)%nat) by (destruct bs; [contradiction | cbn; lia]).
  destruct (split_words 8 (concat ws)) as (gs & t8 & E8 & Hgs & Ht8); [lia|].
  pose proof (concat_length_uniform 8 gs Hgs) as Lgs.
  assert (L8 : length (concat ws) = (8 * length gs + length t8)%nat).
  { rewrite E8 at 1. rewrite length_app. lia. }
  assert (Hb8 : forallb is_bit (concat gs ++ t8) = true).
  { rewrite <- E8. rewrite forallb_app in Hbits.
    now apply andb_true_iff in Hbits as [? _]. }
  unfold Js.match_dot. rewrite E8 at 1.
  rewrite (dot_runs_groups 8 gs t8 ltac:(lia) Hgs (bits_one_line _ Hb8) Ht8).
  assert (Hgl : (length gs = length (concat ws) / 8)%nat).
  { apply (Nat.div_unique _ 8 _ (length t8)); lia. }
  assert (Hwl : (length ws = 8 * length bs / 5)%nat).
  { apply (Nat.div_unique _ 5 _ (length t5)); lia. }
  assert (Hpre : gs = map byte_bits (take (length gs) bs)).
  { rewrite <- firstn_map.
    apply (uniform_prefix 8 gs (map byte_bits bs) (t8 ++ t5)); auto; [| lia |].
    - apply Forall_forall. intros g Hg. apply list_elem_of_In in Hg.
      apply in_map_iff in Hg as (b & <- & Hb%list_elem_of_In).
      rewrite Forall_forall in Hbs. apply (byte_bits_spec b (Hbs b Hb)).
    - rewrite <- flat_map_concat_map, E5, E8, <- app_assoc. reflexivity. }
  assert (Hres :
    map Js.toUint8
      (Js.slice (map (fun chunk => Js.parseInt chunk 2)
                     (gs ++ match t8 with [] => [] | r => [r] end))
                0 (length (concat ws) / 8))
    = take (5 * (8 * length bs / 5) / 8) bs).
  { unfold Js.slice. rewrite drop_0, Nat.sub_0_r, <- Hgl, map_app.
    rewrite take_app_length' by now rewrite length_map.
    rewrite Hpre at 1. rewrite parse_byte_bits by now apply Forall_take.
    rewrite Hgl, Lws, Hwl. reflexivity. }
  destruct gs as [|g gs].
  - destruct t8 as [|x t8].
    + cbn [length] in *. exfalso. lia.
    + cbn [app] in *. exact (f_equal Ok Hres).
  - cbn [app] in *. exact (f_equal Ok Hres).
Qed.

Lemma strip_upper_padding s :
  Forall (fun c => c = 61) s -> Js.strip_trailing_eq (Js.toUpperCase s) = [].
Proof.
  induction 1 as [|c s -> _ IH]; [reflexivity|].
  unfold Js.toUpperCase in *. cbn [flat_map].
  change (Js.upper_unit 61) with [61]. cbn [app Js.strip_trailing_eq].
  rewrite IH. reflexivity.
Qed.

Lemma decode_encode_whole (bs : bytes) (k : nat) :
  Forall is_byte bs -> length bs = (5 * k)%nat -> (0 < k)%nat ->
  base32ToBytes (bytesToBase32 bs) = Ok bs.
Proof.
  intros Hbs Hlen Hk. rewrite base32_decode_encode; auto.
  - rewrite Hlen. replace (8 * (5 * k))%nat with (k * 8 * 5)%nat by lia.
    rewrite Nat.div_mul by lia.
    replace (5 * (k * 8))%nat with (5 * k * 8)%nat by lia.
    rewrite Nat.div_mul by lia. rewrite <- Hlen. now rewrite firstn_all.
  - intros ->. cbn in Hlen. lia.
Qed.

(** C1 fails on the code: [bytesToBase32] writes a symbol for a chunk of
    five bits only and drops the bits that are left over, although
    [base32ToBytes] reads a last symbol that carries such bits. For the
    sixteen bytes of "1234567890123456" it writes 25 symbols; they decode
    to the first fifteen bytes, while the 26 symbols of Base32 decode to
    all sixteen. *)
Theorem bytesToBase32_drops_last_bits :
  bytesToBase32 (str "1234567890123456") = str "GEZDGNBVGY3TQOJQGEZDGNBVG"
  /\ base32ToBytes (bytesToBase32 (str "1234567890123456"))
     = Ok (str "123456789012345")
  /\ base32ToBytes (bytesToBase32 (str "1234567890123456"))
     <> Ok (str "1234567890123456")
  /\ base32ToBytes (str "GEZDGNBVGY3TQOJQGEZDGNBVGY")
     = Ok (str "1234567890123456").
Proof.
  split; [vm_compute; reflexivity|]. split; [vm_compute; reflexivity|].
  split; [vm_compute; discriminate | vm_compute; reflexivity].
Qed.

(** C9: on an input made only of [=] (the empty string included) Base32
    decoding neither returns bytes nor throws its own "Invalid base32
    character" error: it dies on the [null] result of [match] with a
    [TypeError], and so does [generateHOTP]. *)
Theorem base32ToBytes_padding_only (s : jsstring) :
  Forall (fun c => c = 61) s ->
  base32ToBytes s = Throw TypeError
  /\ forall counter, generateHOTP s counter = Throw TypeError.
Proof.
  intros H.
  assert (E : base32ToBytes s = Throw TypeError).
  { rewrite base32ToBytes_unfold, strip_upper_padding by assumption. reflexivity. }
  split; [assumption|]. intros counter. unfold generateHOTP. now rewrite E.
Qed.

Lemma base32ToBytes_padding_only_witness :
  base32ToBytes (str "===") = Throw TypeError
  /\ forall counter, generateHOTP (str "===") counter = Throw TypeError.
Proof.
  apply (base32ToBytes_padding_only (str "===")).
  repeat constructor.
Defined.

Lemma be_bytes_length n x : length (Hash.be_bytes n x) = n.
Proof. induction n; cbn [Hash.be_bytes length]; congruence. Qed.

Lemma be_bytes_range n x : Forall is_byte (Hash.be_bytes n x).
Proof.
  induction n; cbn [Hash.be_bytes]; constructor; [|assumption].
  unfold is_byte. apply Z.mod_pos_bound. lia.
Qed.

Lemma sha1_length msg : length (Hash.sha1 msg) = 20%nat.
Proof. unfold Hash.sha1. cbn zeta. now rewrite !length_app, !be_bytes_length. Qed.

Lemma sha1_range msg : Forall is_byte (Hash.sha1 msg).
Proof. unfold Hash.sha1. cbn zeta. repeat apply Forall_app_2; apply be_bytes_range. Qed.

Lemma sign_HMAC_length key buffer : length (sign_HMAC key buffer) = 20%nat.
Proof. apply sha1_length. Qed.

Lemma sign_HMAC_range key buffer : Forall is_byte (sign_HMAC key buffer).
Proof. apply sha1_range. Qed.

Lemma byte_at_range arr i : Forall is_byte arr -> is_byte (byte_at arr i).
Proof.
  intros H. unfold byte_at. destruct (i <? 0); [unfold is_byte; lia|].
  destruct (_ !! _) as [b|] eqn:E; cbn [default from_option].
  - rewrite Forall_forall in H. apply H.
    eapply list_elem_of_lookup_2; eauto.
  - unfold is_byte; lia.
Qed.

Lemma byte_at_digest_at arr i : 0 <= i -> byte_at arr i = digest_at arr i.
Proof.
  intros Hi. unfold byte_at, digest_at.
  destruct (Z.ltb_spec i 0); [lia|]. now rewrite nth_lookup.
Qed.

Lemma toInt32_small x : 0 <= x < 2147483648 -> toInt32 x = x.
Proof. intros H. unfold toInt32. rewrite Z.mod_small; lia. Qed.

Lemma land_ones_range x k :
  0 <= k -> 0 <= Z.land x (Z.ones k) < 2 ^ k.
Proof. intros Hk. rewrite Z.land_ones by lia. apply Z.mod_pos_bound. lia. Qed.

Lemma js_and_byte b m k :
  is_byte b -> m = Z.ones k -> 0 <= k <= 8 ->
  js_and b m = Z.land b m /\ 0 <= Z.land b m < 2 ^ k.
Proof.
  intros Hb -> Hk. unfold is_byte in Hb.
  pose proof (land_ones_range b k ltac:(lia)) as Hr.
  assert (2 ^ k <= 2 ^ 8) by (apply Z.pow_le_mono_r; lia).
  assert (0 <= Z.ones k < 2 ^ 8).
  { rewrite Z.ones_equiv. lia. }
  change (2 ^ 8) with 256 in *.
  split; [|assumption]. unfold js_and.
  rewrite (toInt32_small b), (toInt32_small (Z.ones k)) by lia.
  apply toInt32_small. lia.
Qed.

Lemma lor_range n x y :
  0 <= n -> 0 <= x < 2 ^ n -> 0 <= y < 2 ^ n -> 0 <= Z.lor x y < 2 ^ n.
Proof.
  intros Hn Hx Hy. split; [apply Z.lor_nonneg; lia|].
  destruct (Z.eq_dec (Z.lor x y) 0) as [->|Hz]; [lia|].
  assert (0 < Z.lor x y) by (pose proof (proj2 (Z.lor_nonneg x y)); lia).
  apply Z.log2_lt_pow2; [assumption|].
  rewrite Z.log2_lor by lia.
  destruct (Z.eq_dec x 0) as [->|Hx0], (Z.eq_dec y 0) as [->|Hy0].
  - now rewrite Z.lor_0_l in Hz.
  - change (Z.log2 0) with 0. pose proof (Z.log2_nonneg y).
    rewrite Z.max_r by lia. apply Z.log2_lt_pow2; lia.
  - change (Z.log2 0) with 0. pose proof (Z.log2_nonneg x).
    rewrite Z.max_l by lia. apply Z.log2_lt_pow2; lia.
  - apply Z.max_lub_lt; apply Z.log2_lt_pow2; lia.
Qed.

Lemma js_or_small x y :
  0 <= x < 2147483648 -> 0 <= y < 2147483648 ->
  js_or x y = Z.lor x y /\ 0 <= Z.lor x y < 2147483648.
Proof.
  intros Hx Hy. pose proof (lor_range 31 x y ltac:(lia) Hx Hy) as H.
  change (2 ^ 31) with 2147483648 in H. split; [|assumption].
  unfold js_or. rewrite (toInt32_small x), (toInt32_small y) by assumption.
  now apply toInt32_small.
Qed.

Lemma js_shl_small x n k :
  0 <= x < 2 ^ k -> 0 <= n -> 0 <= k -> n + k <= 31 ->
  js_shl x n = Z.shiftl x n /\ 0 <= Z.shiftl x n < 2 ^ (n + k).
Proof.
  intros Hx Hn Hk Hnk.
  assert (Hb : 0 <= Z.shiftl x n < 2 ^ (n + k)).
  { rewrite Z.shiftl_mul_pow2, Z.pow_add_r by lia.
    assert (0 < 2 ^ n) by (apply Z.pow_pos_nonneg; lia). nia. }
  split; [|assumption].
  assert (2 ^ (n + k) <= 2 ^ 31) by (apply Z.pow_le_mono_r; lia).
  assert (2 ^ k <= 2 ^ 31) by (apply Z.pow_le_mono_r; lia).
  change (2 ^ 31) with 2147483648 in *.
  unfold js_shl. rewrite Z.mod_small by lia.
  rewrite (toInt32_small x) by lia. apply toInt32_small. lia.
Qed.

Lemma shiftr_mod_low c k :
  0 <= k <= 24 ->
  Z.shiftr (c mod 4294967296) k mod 256 = Z.shiftr c k mod 256.
Proof.
  intros Hk. change 4294967296 with (2 ^ 32). change 256 with (2 ^ 8).
  rewrite <- !Z.land_ones by lia. apply Z.bits_inj'. intros n Hn.
  rewrite !Z.land_spec, !Z.shiftr_spec, Z.land_spec by lia.
  destruct (Z.ltb_spec n 8).
  - rewrite (Z.ones_spec_low 32 (n + k)) by lia. now rewrite andb_true_r.
  - rewrite (Z.ones_spec_high 8 n) by lia. now rewrite !andb_false_r.
Qed.

Lemma counter_buffer counter :
  0 <= counter < 2 ^ 64 ->
  setUint32 (counter / 4294967296) ++ setUint32 (Z.rem counter 4294967296)
  = counter_bytes counter.
Proof.
  intros Hc. change (2 ^ 64) with (4294967296 * 4294967296) in Hc.
  rewrite Z.rem_mod_nonneg by lia. unfold setUint32, counter_bytes.
  rewrite Z.mod_mod by lia.
  rewrite (Z.mod_small (counter / 4294967296)).
  2:{ split; [apply Z.div_pos; lia | apply Z.div_lt_upper_bound; lia]. }
  cbn [Hash.be_bytes app]. cbn [Z.of_nat Pos.of_succ_nat Pos.succ Z.mul Pos.mul Pos.add].
  rewrite !shiftr_mod_low by lia.
  change 4294967296 with (2 ^ 32). rewrite <- Z.shiftr_div_pow2 by lia.
  rewrite !Z.shiftr_shiftr by lia. reflexivity.
Qed.

Lemma pos_digits_more f : forall g n acc,
  0 <= n < 10 ^ Z.of_nat f -> (1 <= f <= g)%nat ->
  Js.pos_digits g 10 n acc = Js.pos_digits f 10 n acc.
Proof.
  induction f as [|f IH]; intros g n acc Hn Hf; [lia|].
  destruct g as [|g]; [lia|]. cbn [Js.pos_digits].
  destruct (Z.ltb_spec n 10) as [|Hge]; [reflexivity|].
  rewrite Nat2Z.inj_succ, Z.pow_succ_r in Hn by lia.
  destruct f as [|f]; [cbn in Hn; lia|].
  apply IH; [|lia].
  split; [apply Z.div_pos; lia | apply Z.div_lt_upper_bound; lia].
Qed.

Lemma toString_fuel v d :
  10 ^ Z.of_nat d <= v < 10 ^ Z.of_nat (S d) ->
  Js.toString v 10 = Js.pos_digits (S d) 10 v [].
Proof.
  intros Hv. assert (0 < 10 ^ Z.of_nat d) by (apply Z.pow_pos_nonneg; lia).
  unfold Js.toString. destruct (Z.ltb_spec v 0); [lia|].
  apply pos_digits_more; [lia|].
  assert (Z.of_nat d <= Z.log2 v); [|lia].
  apply Z.log2_le_pow2; [lia|].
  transitivity (10 ^ Z.of_nat d); [|lia].
  apply Z.pow_le_mono_l. lia.
Qed.

Ltac Zify.zify_post_hook ::= Z.to_euclidean_division_equations.

Ltac split_below_ten :=
  repeat match goal with
         | |- context [?a <? 10] => destruct (Z.ltb_spec a 10); try lia
         end.

Ltac digits_of_width d :=
  rewrite (toString_fuel _ d) by (cbn; lia); cbn [Js.pos_digits];
  split_below_ten;
  unfold Js.padStart, Js.digit_char; cbn [length Nat.sub repeat app];
  split_below_ten; repeat (f_equal; try lia).

Lemma six_digits_toString v :
  0 <= v < 1000000 -> Js.padStart 6 48 (Js.toString v 10) = six_digits v.
Proof.
  intros Hv. unfold six_digits. cbn [map].
  change (10 ^ 5) with 100000. change (10 ^ 4) with 10000.
  change (10 ^ 3) with 1000. change (10 ^ 2) with 100.
  change (10 ^ 1) with 10. change (10 ^ 0) with 1.
  assert (Hcases : v < 10 \/ 10 <= v < 100 \/ 100 <= v < 1000
                   \/ 1000 <= v < 10000 \/ 10000 <= v < 100000
                   \/ 100000 <= v < 1000000) by lia.
  destruct Hcases as [H|[H|[H|[H|[H|H]]]]].
  - unfold Js.toString. destruct (Z.ltb_spec v 0); [lia|].
    rewrite Nat.add_1_r. cbn [Js.pos_digits]. split_below_ten.
    unfold Js.padStart, Js.digit_char. cbn [length Nat.sub repeat app].
    split_below_ten. repeat (f_equal; try lia).
  - digits_of_width 1%nat.
  - digits_of_width 2%nat.
  - digits_of_width 3%nat.
  - digits_of_width 4%nat.
  - digits_of_width 5%nat.
Qed.

Ltac Zify.zify_post_hook ::= idtac.

Lemma generateHOTP_unfold secret key counter :
  base32ToBytes secret = Ok key -> key <> [] ->
  generateHOTP secret counter =
  let hmacBytes :=
    sign_HMAC key (setUint32 (counter / 4294967296)
                   ++ setUint32 (Z.rem counter 4294967296)) in
  let offset :=
    js_and (byte_at hmacBytes (Z.of_nat (length hmacBytes) - 1)) 15 in
  let binary :=
    js_or (js_or (js_or (js_shl (js_and (byte_at hmacBytes offset) 127) 24)
                        (js_shl (js_and (byte_at hmacBytes (offset + 1)) 255) 16))
                 (js_shl (js_and (byte_at hmacBytes (offset + 2)) 255) 8))
          (js_and (byte_at hmacBytes (offset + 3)) 255) in
  Ok (Js.padStart 6 48 (Js.toString (Z.rem binary 1000000) 10)).
Proof.
  intros E Hk. unfold generateHOTP. rewrite E. cbn [bind].
  destruct key; [contradiction | reflexivity].
Qed.

(** The 32-bit operators of the source compute the truncation of RFC 4226
    without wrapping: the value has 31 bits. *)
Lemma binary_truncation (h : bytes) :
  Forall is_byte h -> length h = 20%nat ->
  let offset := js_and (byte_at h (Z.of_nat (length h) - 1)) 15 in
  js_or (js_or (js_or (js_shl (js_and (byte_at h offset) 127) 24)
                      (js_shl (js_and (byte_at h (offset + 1)) 255) 16))
               (js_shl (js_and (byte_at h (offset + 2)) 255) 8))
        (js_and (byte_at h (offset + 3)) 255)
  = dynamic_truncation h
  /\ 0 <= dynamic_truncation h < 2147483648.
Proof.
  intros Hh Hl. rewrite Hl. change (Z.of_nat 20 - 1) with 19.
  pose proof (byte_at_range h) as Hb.
  destruct (js_and_byte (byte_at h 19) 15 4 (Hb 19 Hh) eq_refl ltac:(lia))
    as [Eo Ho].
  cbn zeta. rewrite Eo. rewrite (byte_at_digest_at h 19) in * by lia.
  unfold dynamic_truncation. cbn zeta.
  set (o := Z.land (digest_at h 19) 15) in *. change (2 ^ 4) with 16 in Ho.
  rewrite <- !(byte_at_digest_at h) by lia.
  destruct (js_and_byte (byte_at h o) 127 7 (Hb _ Hh) eq_refl ltac:(lia))
    as [E0 R0].
  destruct (js_and_byte (byte_at h (o + 1)) 255 8 (Hb _ Hh) eq_refl ltac:(lia))
    as [E1 R1].
  destruct (js_and_byte (byte_at h (o + 2)) 255 8 (Hb _ Hh) eq_refl ltac:(lia))
    as [E2 R2].
  destruct (js_and_byte (byte_at h (o + 3)) 255 8 (Hb _ Hh) eq_refl ltac:(lia))
    as [E3 R3].
  rewrite E0, E1, E2, E3.
  destruct (js_shl_small _ 24 7 R0 ltac:(lia) ltac:(lia) ltac:(lia)) as [S0 B0].
  destruct (js_shl_small _ 16 8 R1 ltac:(lia) ltac:(lia) ltac:(lia)) as [S1 B1].
  destruct (js_shl_small _ 8 8 R2 ltac:(lia) ltac:(lia) ltac:(lia)) as [S2 B2].
  rewrite S0, S1, S2.
  change (2 ^ (24 + 7)) with 2147483648 in B0.
  change (2 ^ (16 + 8)) with 16777216 in B1.
  change (2 ^ (8 + 8)) with 65536 in B2. change (2 ^ 8) with 256 in R3.
  destruct (js_or_small _ (Z.shiftl (Z.land (byte_at h (o + 1)) 255) 16) B0)
    as [O1 C1]; [lia|].
  rewrite O1.
  destruct (js_or_small _ (Z.shiftl (Z.land (byte_at h (o + 2)) 255) 8) C1)
    as [O2 C2]; [lia|].
  rewrite O2.
  destruct (js_or_small _ (Z.land (byte_at h (o + 3)) 255) C2)
    as [O3 C3]; [lia|].
  rewrite O3. split; [reflexivity | assumption].
Qed.

(** C2, as the code has it: on a secret that decodes to a non-empty key
    and a counter of 64 bits, [generateHOTP] is HOTP of RFC 4226 (counter as
    8 bytes big-endian, HMAC-SHA-1, offset from the low four bits of the
    last byte, 31-bit truncation, modulo one million, six digits). The
    20-byte secret of the RFC, GEZDGNBVGY3TQOJQGEZDGNBVGY3TQOJQ in Base32,
    gives 755224 at counter 0 and 287082 at counter 1. *)
Theorem generateHOTP_rfc4226 :
  (forall secret key counter,
     base32ToBytes secret = Ok key -> key <> [] -> 0 <= counter < 2 ^ 64 ->
     generateHOTP secret counter = Ok (hotp_rfc4226 key counter))
  /\ generateHOTP (str "GEZDGNBVGY3TQOJQGEZDGNBVGY3TQOJQ") 0 = Ok (str "755224")
  /\ generateHOTP (str "GEZDGNBVGY3TQOJQGEZDGNBVGY3TQOJQ") 1 = Ok (str "287082").
Proof.
  split; [| split; vm_compute; reflexivity].
  intros secret key counter E Hk Hc.
  rewrite (generateHOTP_unfold secret key counter E Hk).
  rewrite counter_buffer by assumption. cbn zeta.
  set (h := sign_HMAC key (counter_bytes counter)).
  destruct (binary_truncation h (sign_HMAC_range _ _) (sign_HMAC_length _ _))
    as [Eb Rb].
  cbn zeta in Eb. rewrite Eb. rewrite Z.rem_mod_nonneg by lia.
  rewrite six_digits_toString by (apply Z.mod_pos_bound; lia).
  reflexivity.
Qed.

Lemma generateHOTP_rfc4226_witness :
  generateHOTP (str "GEZDGNBVGY3TQOJQ") 7
  = Ok (hotp_rfc4226 (str "1234567890") 7).
Proof.
  apply (proj1 generateHOTP_rfc4226).
  - vm_compute. reflexivity.
  - discriminate.
  - lia.
Defined.

(** The 16-symbol secret of the known-answer test decodes to the ten bytes
    "1234567890" and does not give the RFC's first code. *)
Lemma generateHOTP_short_secret :
  base32ToBytes (str "GEZDGNBVGY3TQOJQ") = Ok (str "1234567890")
  /\ generateHOTP (str "GEZDGNBVGY3TQOJQ") 0 = Ok (str "891490")
  /\ generateHOTP (str "GEZDGNBVGY3TQOJQ") 0 <> Ok (str "755224")
  /\ generateHOTP (str "GEZDGNBVGY3TQOJQ") 1 <> Ok (str "287082").
Proof.
  split; [vm_compute; reflexivity|]. split; [vm_compute; reflexivity|].
  split; vm_compute; discriminate.
Qed.

(** ** Lengths and ranges in the primitives *)

Lemma lxor_byte a b : is_byte a -> is_byte b -> is_byte (Z.lxor a b).
Proof.
  unfold is_byte. intros Ha Hb. split; [apply Z.lxor_nonneg; lia|].
  destruct (Z.eq_dec (Z.lxor a b) 0) as [->|Hz]; [lia|].
  assert (0 <= Z.lxor a b) by (apply Z.lxor_nonneg; lia).
  change 256 with (2 ^ 8). apply Z.log2_lt_pow2; [lia|].
  pose proof (Z.log2_lxor a b ltac:(lia) ltac:(lia)) as Hl.
  assert (Z.log2 a < 8).
  { destruct (Z.eq_dec a 0) as [->|]; [cbn; lia|]. apply Z.log2_lt_pow2; lia. }
  assert (Z.log2 b < 8).
  { destruct (Z.eq_dec b 0) as [->|]; [cbn; lia|]. apply Z.log2_lt_pow2; lia. }
  lia.
Qed.

Lemma xor_bytes_length xs : forall ys,
  length (Hash.xor_bytes xs ys) = Nat.min (length xs) (length ys).
Proof.
  induction xs as [|x xs IH]; intros [|y ys]; cbn [Hash.xor_bytes length];
    try reflexivity.
  now rewrite IH.
Qed.

Lemma xor_bytes_range xs : forall ys,
  Forall is_byte xs -> Forall is_byte ys -> Forall is_byte (Hash.xor_bytes xs ys).
Proof.
  induction xs as [|x xs IH]; intros [|y ys] Hx Hy; cbn [Hash.xor_bytes];
    try constructor.
  - apply lxor_byte; [now inversion Hx | now inversion Hy].
  - apply IH; [now inversion Hx | now inversion Hy].
Qed.

Lemma xor_bytes_involutive xs : forall ys,
  (length xs <= length ys)%nat ->
  Hash.xor_bytes (Hash.xor_bytes xs ys) ys = xs.
Proof.
  induction xs as [|x xs IH]; intros [|y ys] H; cbn [Hash.xor_bytes length] in *;
    try reflexivity; try lia.
  rewrite IH by lia.
  now rewrite Z.lxor_assoc, Z.lxor_nilpotent, Z.lxor_0_r.
Qed.

Lemma flat_map_be_bytes_range ws : Forall is_byte (flat_map (Hash.be_bytes 4) ws).
Proof.
  induction ws as [|w ws IH]; [constructor|].
  cbn [flat_map]. apply Forall_app_2; [apply be_bytes_range | assumption].
Qed.

Lemma flat_map_be_bytes_length ws :
  length (flat_map (Hash.be_bytes 4) ws) = (4 * length ws)%nat.
Proof.
  induction ws as [|w ws IH]; [reflexivity|].
  cbn [flat_map length]. rewrite length_app, be_bytes_length, IH. lia.
Qed.

Lemma sha256_rounds_length ks : forall w v,
  length v = 8%nat -> length (Hash.sha256_rounds ks w v) = 8%nat.
Proof.
  induction ks as [|k ks IH]; intros w v Hv; [assumption|].
  cbn [Hash.sha256_rounds]. now apply IH.
Qed.

Lemma add_words_length xs : forall ys,
  length (Hash.add_words xs ys) = Nat.min (length xs) (length ys).
Proof.
  induction xs as [|x xs IH]; intros [|y ys]; cbn [Hash.add_words length];
    try reflexivity.
  now rewrite IH.
Qed.

Lemma sha256_length msg : length (Hash.sha256 msg) = 32%nat.
Proof.
  unfold Hash.sha256. rewrite flat_map_be_bytes_length.
  assert (H : forall blocks h, length h = 8%nat ->
            length (fold_left Hash.sha256_block blocks h) = 8%nat).
  { induction blocks as [|b blocks IH]; intros h Hh; [assumption|].
    cbn [fold_left]. apply IH. unfold Hash.sha256_block.
    rewrite add_words_length, sha256_rounds_length, Hh by assumption.
    reflexivity. }
  rewrite H; reflexivity.
Qed.

Lemma sha256_range msg : Forall is_byte (Hash.sha256 msg).
Proof. apply flat_map_be_bytes_range. Qed.

Lemma pbkdf2_sha256_key password salt iterations :
  length (Hash.pbkdf2_sha256 password salt iterations) = 32%nat
  /\ Forall is_byte (Hash.pbkdf2_sha256 password salt iterations).
Proof.
  unfold Hash.pbkdf2_sha256. cbn zeta.
  set (f := fun '(u, t) => _).
  set (P := fun p : bytes * bytes =>
              (length (fst p) = 32%nat /\ Forall is_byte (fst p))
              /\ length (snd p) = 32%nat /\ Forall is_byte (snd p)).
  assert (H : P (N.iter (N.pred iterations) f
                   (Hash.hmac Hash.sha256 password (salt ++ Hash.be_bytes 4 1),
                    Hash.hmac Hash.sha256 password (salt ++ Hash.be_bytes 4 1)))).
  { apply N.iter_invariant.
    - intros [u t] [[Hu1 Hu2] [Ht1 Ht2]]. unfold f, P. cbn [fst snd] in *.
      repeat split.
      + apply sha256_length.
      + apply sha256_range.
      + rewrite xor_bytes_length, Ht1. unfold Hash.hmac. cbn zeta.
        now rewrite sha256_length.
      + apply xor_bytes_range; [assumption | apply sha256_range].
    - unfold P, Hash.hmac. cbn [fst snd]. cbn zeta.
      repeat split; try apply sha256_length; apply sha256_range. }
  apply H.
Qed.

Lemma deriveKey_key password salt :
  length (deriveKey password salt) = 32%nat
  /\ Forall is_byte (deriveKey password salt).
Proof. unfold deriveKey. exact (pbkdf2_sha256_key _ _ _). Qed.

Opaque Hash.pbkdf2_sha256 deriveKey.

Lemma byte_ok_spec b : byte_ok b = true <-> is_byte b.
Proof. unfold byte_ok, is_byte. lia. Qed.

Lemma Forall_byte_ok l : forallb byte_ok l = true -> Forall is_byte l.
Proof.
  rewrite forallb_forall, Forall_forall. intros H x Hx.
  apply byte_ok_spec, H. now apply list_elem_of_In.
Qed.

Lemma nth_byte l i : Forall is_byte l -> is_byte (nth i l 0).
Proof.
  intros H. revert i. induction H as [|x l Hx _ IH]; intros [|i]; cbn [nth];
    auto; unfold is_byte; lia.
Qed.

Lemma sub_byte_range a : is_byte (Aes.sub_byte a).
Proof.
  unfold Aes.sub_byte. apply nth_byte, Forall_byte_ok.
  vm_compute. reflexivity.
Qed.

Lemma xtime_range a : is_byte a -> is_byte (Aes.xtime a).
Proof.
  intros Ha.
  assert (H : forallb (fun n => byte_ok (Aes.xtime (Z.of_nat n))) (seq 0 256) = true)
    by (vm_compute; reflexivity).
  rewrite forallb_forall in H. specialize (H (Z.to_nat a)).
  unfold is_byte in Ha. rewrite Z2Nat.id in H by lia.
  apply byte_ok_spec, H, in_seq. lia.
Qed.

Lemma map_sub_byte_range s : Forall is_byte (map Aes.sub_byte s).
Proof. apply Forall_map, Forall_forall. intros. apply sub_byte_range. Qed.

Lemma shift_rows_length s : length (Aes.shift_rows s) = 16%nat.
Proof. unfold Aes.shift_rows. now rewrite length_map, length_seq. Qed.

Lemma shift_rows_range s : Forall is_byte s -> Forall is_byte (Aes.shift_rows s).
Proof.
  intros H. unfold Aes.shift_rows. apply Forall_map, Forall_forall.
  intros i _. now apply nth_byte.
Qed.

Lemma expand_spec n : forall i rcon w,
  length w = (4 * i)%nat -> (8 <= i)%nat -> Forall is_byte w -> is_byte rcon ->
  length (Aes.expand n i rcon w) = (4 * (i + n))%nat
  /\ Forall is_byte (Aes.expand n i rcon w).
Proof.
  induction n as [|n IH]; intros i rcon w Hl Hi Hw Hr.
  - cbn [Aes.expand]. split; [lia | assumption].
  - cbn [Aes.expand].
    set (prev := take 4 (drop (4 * (i - 1)) w)).
    set (back := take 4 (drop (4 * (i - 8)) w)).
    set (temp := if (i mod 8 =? 0)%nat then Hash.xor_bytes _ _ else _).
    assert (Lp : length prev = 4%nat).
    { unfold prev. rewrite length_take, length_drop. lia. }
    assert (Lb : length back = 4%nat).
    { unfold back. rewrite length_take, length_drop. lia. }
    assert (Rp : Forall is_byte prev) by now apply Forall_take, Forall_drop.
    assert (Rb : Forall is_byte back) by now apply Forall_take, Forall_drop.
    assert (Ht : length temp = 4%nat /\ Forall is_byte temp).
    { unfold temp. destruct (i mod 8 =? 0)%nat; [|destruct (i mod 8 =? 4)%nat].
      - split.
        + rewrite xor_bytes_length, length_map, length_app, length_drop,
            length_take. cbn [length]. lia.
        + apply xor_bytes_range; [apply map_sub_byte_range|].
          apply Forall_cons. split; [assumption|].
          apply Forall_byte_ok. reflexivity.
      - split; [now rewrite length_map | apply map_sub_byte_range].
      - split; assumption. }
    destruct Ht as [Lt Rt].
    destruct (IH (S i) (if (i mod 8 =? 0)%nat then Aes.xtime rcon else rcon)
                 (w ++ Hash.xor_bytes back temp)) as [L R].
    + rewrite length_app, xor_bytes_length. lia.
    + lia.
    + apply Forall_app_2; [assumption | now apply xor_bytes_range].
    + destruct (i mod 8 =? 0)%nat; [now apply xtime_range | assumption].
    + split; [rewrite L; lia | assumption].
Qed.

Lemma key_schedule_spec key :
  length key = 32%nat -> Forall is_byte key ->
  length (Aes.key_schedule key) = 240%nat
  /\ Forall is_byte (Aes.key_schedule key).
Proof.
  intros Hl Hk. unfold Aes.key_schedule.
  destruct (expand_spec 52 8 1 key Hl ltac:(lia) Hk ltac:(unfold is_byte; lia))
    as [L R].
  split; [exact L | exact R].
Qed.

Section Cipher.

Variable ks : list Z.
Hypothesis ks_length : length ks = 240%nat.
Hypothesis ks_range : Forall is_byte ks.

Lemma cipher_length block : length (Aes.cipher ks block) = 16%nat.
Proof using ks_length.
  unfold Aes.cipher, Aes.round_key. cbn zeta.
  rewrite xor_bytes_length, shift_rows_length, length_take, length_drop. lia.
Qed.

Lemma cipher_range block : Forall is_byte (Aes.cipher ks block).
Proof using ks_range.
  unfold Aes.cipher, Aes.round_key. cbn zeta. apply xor_bytes_range.
  - apply shift_rows_range, map_sub_byte_range.
  - now apply Forall_take, Forall_drop.
Qed.

Lemma key_stream_length n : forall cb,
  length (Aes.key_stream n ks cb) = (16 * n)%nat.
Proof using ks_length.
  induction n as [|n IH]; intros cb; cbn [Aes.key_stream length]; [lia|].
  rewrite length_app, cipher_length, IH. lia.
Qed.

Lemma key_stream_range n : forall cb, Forall is_byte (Aes.key_stream n ks cb).
Proof using ks_range.
  induction n as [|n IH]; intros cb; cbn [Aes.key_stream]; [constructor|].
  apply Forall_app_2; [apply cipher_range | apply IH].
Qed.

Lemma stream_covers (data : bytes) :
  (length data <= 16 * (length data / 16 + 1))%nat.
Proof.
  pose proof (Nat.div_mod_eq (length data) 16).
  pose proof (Nat.mod_upper_bound (length data) 16). lia.
Qed.

Lemma gctr_length icb data : length (Aes.gctr ks icb data) = length data.
Proof using ks_length.
  unfold Aes.gctr. rewrite xor_bytes_length, key_stream_length.
  pose proof (stream_covers data). lia.
Qed.

Lemma gctr_range icb data :
  Forall is_byte data -> Forall is_byte (Aes.gctr ks icb data).
Proof using ks_range.
  intros H. unfold Aes.gctr. apply xor_bytes_range; [assumption|].
  apply key_stream_range.
Qed.

Lemma gctr_involutive icb data :
  Aes.gctr ks icb (Aes.gctr ks icb data) = data.
Proof using ks_length.
  unfold Aes.gctr at 1. rewrite gctr_length. unfold Aes.gctr.
  apply xor_bytes_involutive. rewrite key_stream_length. apply stream_covers.
Qed.

Lemma tag_length h j c : length (Aes.tag ks h j c) = 16%nat.
Proof using ks_length.
  unfold Aes.tag, Aes.bytes_of. cbn zeta.
  now rewrite xor_bytes_length, be_bytes_length, cipher_length.
Qed.

Lemma tag_range h j c : Forall is_byte (Aes.tag ks h j c).
Proof using ks_range.
  unfold Aes.tag, Aes.bytes_of. cbn zeta.
  apply xor_bytes_range; [apply be_bytes_range | apply cipher_range].
Qed.

End Cipher.

(** What AES-GCM promises: a ciphertext of bytes, sixteen longer than the
    plaintext, that decrypts to the plaintext under the same key and IV. *)
Lemma gcm_encrypt_spec key iv plaintext :
  length key = 32%nat -> Forall is_byte key -> Forall is_byte plaintext ->
  let c := Aes.gcm_encrypt key iv plaintext in
  length c = (length plaintext + 16)%nat /\ Forall is_byte c
  /\ Aes.gcm_decrypt key iv c = Some plaintext.
Proof.
  intros Hl Hk Hp. destruct (key_schedule_spec key Hl Hk) as [L R].
  cbn zeta. unfold Aes.gcm_decrypt, Aes.gcm_encrypt. cbn zeta.
  set (ks := Aes.key_schedule key) in *.
  set (h := Aes.block_of _). set (j := Aes.j0 h iv).
  set (c := Aes.gctr ks (Aes.inc32 j) plaintext).
  assert (Lc : length c = length plaintext) by now apply gctr_length.
  assert (Lt : length (Aes.tag ks h j c) = 16%nat) by now apply tag_length.
  rewrite length_app, Lt, Lc. split; [reflexivity|]. split.
  - apply Forall_app_2; [now apply gctr_range | now apply tag_range].
  - destruct (Nat.ltb_spec (length plaintext + 16) 16); [lia|].
    replace (length plaintext + 16 - 16)%nat with (length c) by lia.
    rewrite take_app_length, drop_app_length.
    rewrite bool_decide_eq_true_2 by reflexivity.
    unfold c. now rewrite gctr_involutive.
Qed.

(** ** The block cipher is one-to-one, and so is GCM in its IV *)

Lemma byte_cases (P : Z -> bool) :
  forallb (fun n => P (Z.of_nat n)) (seq 0 256) = true ->
  forall a, is_byte a -> P a = true.
Proof.
  intros H a Ha. rewrite forallb_forall in H. specialize (H (Z.to_nat a)).
  unfold is_byte in Ha. rewrite Z2Nat.id in H by lia. apply H, in_seq. lia.
Qed.

Lemma byte_pairs (P : Z -> Z -> bool) :
  forallb (fun m => forallb (fun n => P (Z.of_nat m) (Z.of_nat n)) (seq 0 256))
          (seq 0 256) = true ->
  forall a b, is_byte a -> is_byte b -> P a b = true.
Proof.
  intros H a b Ha Hb.
  apply (byte_cases (fun a => forallb (fun n => P a (Z.of_nat n)) (seq 0 256)))
    with (a := a) in H; [|assumption].
  now apply (byte_cases (P a)).
Qed.

Lemma sub_byte_inverse a : is_byte a -> inv_sub_byte (Aes.sub_byte a) = a.
Proof.
  intros Ha. apply Z.eqb_eq.
  apply (byte_cases (fun a => inv_sub_byte (Aes.sub_byte a) =? a)); [|assumption].
  vm_compute. reflexivity.
Qed.

Lemma sub_byte_inj a b :
  is_byte a -> is_byte b -> Aes.sub_byte a = Aes.sub_byte b -> a = b.
Proof.
  intros Ha Hb E. pose proof (sub_byte_inverse a Ha) as Ia.
  pose proof (sub_byte_inverse b Hb) as Ib. congruence.
Qed.

Lemma map_sub_byte_inj s : forall t,
  Forall is_byte s -> Forall is_byte t ->
  map Aes.sub_byte s = map Aes.sub_byte t -> s = t.
Proof.
  induction s as [|x s IH]; intros [|y t] Hs Ht E; try discriminate E;
    [reflexivity|].
  apply Forall_cons in Hs as [Hx Hs]. apply Forall_cons in Ht as [Hy Ht].
  injection E as E1 E2. f_equal; [now apply sub_byte_inj | now apply IH].
Qed.

Ltac explode s H :=
  do 16 (destruct s as [|? s]; [discriminate H|]);
  destruct s; [|discriminate H].

Lemma shift_rows_inj s t :
  length s = 16%nat -> length t = 16%nat ->
  Aes.shift_rows s = Aes.shift_rows t -> s = t.
Proof.
  intros Hs Ht E. explode s Hs. explode t Ht.
  vm_compute in E. injection E. intros. subst. reflexivity.
Qed.

Lemma xor_shuffle a b c d :
  Z.lxor (Z.lxor a b) (Z.lxor c d) = Z.lxor (Z.lxor a c) (Z.lxor b d).
Proof.
  rewrite !Z.lxor_assoc. f_equal. rewrite <- !Z.lxor_assoc. f_equal.
  apply Z.lxor_comm.
Qed.

Lemma xor_shuffle8 a a' b b' c c' d d' :
  Z.lxor (Z.lxor (Z.lxor a a') (Z.lxor b b'))
         (Z.lxor (Z.lxor c c') (Z.lxor d d'))
  = Z.lxor (Z.lxor (Z.lxor a b) (Z.lxor c d))
           (Z.lxor (Z.lxor a' b') (Z.lxor c' d')).
Proof.
  rewrite (xor_shuffle a a' b b'), (xor_shuffle c c' d d').
  apply xor_shuffle.
Qed.

Lemma xtime_linear x y :
  is_byte x -> is_byte y ->
  Aes.xtime (Z.lxor x y) = Z.lxor (Aes.xtime x) (Aes.xtime y).
Proof.
  intros Hx Hy. apply Z.eqb_eq.
  apply (byte_pairs (fun x y => Aes.xtime (Z.lxor x y)
                                =? Z.lxor (Aes.xtime x) (Aes.xtime y)));
    [|assumption|assumption].
  vm_compute. reflexivity.
Qed.

Lemma gf_mul_linear n : forall x y k,
  is_byte x -> is_byte y ->
  Aes.gf_mul n (Z.lxor x y) k
  = Z.lxor (Aes.gf_mul n x k) (Aes.gf_mul n y k).
Proof.
  induction n as [|n IH]; intros x y k Hx Hy; cbn [Aes.gf_mul]; [reflexivity|].
  rewrite xtime_linear, IH by auto using xtime_range.
  destruct (Z.odd k).
  - apply xor_shuffle.
  - now rewrite !Z.lxor_0_l.
Qed.

Lemma gf_mul_range n : forall x k, is_byte x -> is_byte (Aes.gf_mul n x k).
Proof.
  induction n as [|n IH]; intros x k Hx; cbn [Aes.gf_mul].
  - unfold is_byte. lia.
  - apply lxor_byte; [destruct (Z.odd k); [assumption | unfold is_byte; lia]|].
    apply IH. now apply xtime_range.
Qed.

Lemma mix_column_length c : length (Aes.mix_column c) = 4%nat.
Proof. reflexivity. Qed.

Lemma mix_column_range c : Forall is_byte c -> Forall is_byte (Aes.mix_column c).
Proof.
  intros H. unfold Aes.mix_column, Aes.at_. cbv beta zeta.
  pose proof (fun i => nth_byte c i H) as Hn.
  repeat constructor; repeat apply lxor_byte; auto using xtime_range.
Qed.

Lemma inv_mix_column_length c : length (inv_mix_column c) = 4%nat.
Proof. reflexivity. Qed.

Ltac explode4 s H :=
  do 4 (destruct s as [|? s]; [discriminate H|]);
  destruct s; [|discriminate H].

Lemma inv_mix_column_linear u v :
  length u = 4%nat -> length v = 4%nat ->
  Forall is_byte u -> Forall is_byte v ->
  inv_mix_column (Hash.xor_bytes u v)
  = Hash.xor_bytes (inv_mix_column u) (inv_mix_column v).
Proof.
  intros Lu Lv Hu Hv. explode4 u Lu. explode4 v Lv.
  repeat (apply Forall_cons in Hu as [? Hu]).
  repeat (apply Forall_cons in Hv as [? Hv]).
  unfold inv_mix_column, Aes.at_, gf_times.
  cbn [Hash.xor_bytes nth]. cbv beta zeta.
  rewrite !gf_mul_linear by assumption.
  f_equal; [apply xor_shuffle8|].
  f_equal; [apply xor_shuffle8|].
  f_equal; [apply xor_shuffle8|].
  f_equal. apply xor_shuffle8.
Qed.

Lemma mix_column_split a b c d :
  Aes.mix_column [a; b; c; d]
  = Hash.xor_bytes
      (Hash.xor_bytes (Aes.mix_column (unit_column 0 a))
                      (Aes.mix_column (unit_column 1 b)))
      (Hash.xor_bytes (Aes.mix_column (unit_column 2 c))
                      (Aes.mix_column (unit_column 3 d))).
Proof.
  unfold Aes.mix_column, Aes.at_, unit_column.
  cbn [nth Hash.xor_bytes list_insert insert]. cbv beta zeta.
  change (Aes.xtime 0) with 0.
  rewrite ?Z.lxor_0_l, ?Z.lxor_0_r. reflexivity.
Qed.

Ltac unit_case k a Ha :=
  refine (bool_decide_eq_true_1 _
            (byte_cases
               (fun x => bool_decide
                           (inv_mix_column (Aes.mix_column (unit_column k x))
                            = unit_column k x)) _ a Ha));
  vm_compute; reflexivity.

Lemma inv_mix_unit i a :
  (i < 4)%nat -> is_byte a ->
  inv_mix_column (Aes.mix_column (unit_column i a)) = unit_column i a.
Proof.
  intros Hi Ha. destruct i as [|[|[|[|i]]]]; [| | | | lia].
  - unit_case 0%nat a Ha.
  - unit_case 1%nat a Ha.
  - unit_case 2%nat a Ha.
  - unit_case 3%nat a Ha.
Qed.

Lemma unit_column_range i a :
  (i < 4)%nat -> is_byte a -> Forall is_byte (unit_column i a).
Proof.
  intros Hi Ha. unfold unit_column.
  unfold is_byte in *.
  destruct i as [|[|[|[|i]]]]; [| | | | lia]; cbn;
    repeat (apply Forall_cons; split; [lia|]); constructor.
Qed.

Lemma inv_mix_column_mix c :
  length c = 4%nat -> Forall is_byte c ->
  inv_mix_column (Aes.mix_column c) = c.
Proof.
  intros L H. explode4 c L.
  repeat (apply Forall_cons in H as [? H]).
  rewrite mix_column_split.
  rewrite !inv_mix_column_linear;
    rewrite ?xor_bytes_length, ?mix_column_length; try reflexivity;
    repeat apply xor_bytes_range;
    try (apply mix_column_range, unit_column_range; (assumption || lia)).
  rewrite !inv_mix_unit by (assumption || lia).
  unfold unit_column. cbn [Hash.xor_bytes list_insert insert].
  now rewrite ?Z.lxor_0_l, ?Z.lxor_0_r.
Qed.

Lemma mix_column_inj c d :
  length c = 4%nat -> length d = 4%nat ->
  Forall is_byte c -> Forall is_byte d ->
  Aes.mix_column c = Aes.mix_column d -> c = d.
Proof.
  intros Lc Ld Hc Hd E.
  rewrite <- (inv_mix_column_mix c Lc Hc), <- (inv_mix_column_mix d Ld Hd).
  now rewrite E.
Qed.

Lemma mix_columns_length s : length (Aes.mix_columns s) = 16%nat.
Proof. reflexivity. Qed.

Lemma mix_columns_range s :
  Forall is_byte s -> Forall is_byte (Aes.mix_columns s).
Proof.
  intros H. unfold Aes.mix_columns. cbn [flat_map seq].
  repeat (apply Forall_app_2;
          [apply mix_column_range, Forall_take, Forall_drop; assumption|]).
  constructor.
Qed.

Lemma mix_columns_inj s t :
  is_block s -> is_block t ->
  Aes.mix_columns s = Aes.mix_columns t -> s = t.
Proof.
  intros [Ls Hs] [Lt Ht] E. explode s Ls. explode t Lt.
  repeat (apply Forall_cons in Hs as [? Hs]).
  repeat (apply Forall_cons in Ht as [? Ht]).
  unfold Aes.mix_columns in E. cbn [flat_map seq] in E.
  cbn [take drop firstn skipn Nat.mul Nat.add] in E.
  apply app_inj_1 in E as [E0 E]; [|reflexivity].
  apply app_inj_1 in E as [E1 E]; [|reflexivity].
  apply app_inj_1 in E as [E2 E]; [|reflexivity].
  apply app_inj_1 in E as [E3 _]; [|reflexivity].
  apply mix_column_inj in E0, E1, E2, E3;
    try reflexivity;
    try (repeat (apply Forall_cons; split; [assumption|]); constructor).
  congruence.
Qed.

Lemma xor_bytes_inj x y k :
  (length x <= length k)%nat -> (length y <= length k)%nat ->
  Hash.xor_bytes x k = Hash.xor_bytes y k -> x = y.
Proof.
  intros Hx Hy E.
  rewrite <- (xor_bytes_involutive x k Hx), <- (xor_bytes_involutive y k Hy).
  now rewrite E.
Qed.

Lemma xor_bytes_comm x : forall y, Hash.xor_bytes x y = Hash.xor_bytes y x.
Proof.
  induction x as [|a x IH]; intros [|b y]; cbn [Hash.xor_bytes]; try reflexivity.
  now rewrite Z.lxor_comm, IH.
Qed.

Lemma xor_bytes_inj_l x y k :
  (length x <= length k)%nat -> (length y <= length k)%nat ->
  Hash.xor_bytes k x = Hash.xor_bytes k y -> x = y.
Proof.
  rewrite (xor_bytes_comm k x), (xor_bytes_comm k y). apply xor_bytes_inj.
Qed.

Section Injective.

Variable ks : list Z.
Hypothesis ks_length : length ks = 240%nat.
Hypothesis ks_range : Forall is_byte ks.

Lemma round_key_block r : (r <= 14)%nat -> is_block (Aes.round_key ks r).
Proof using ks_length ks_range.
  intros Hr. unfold Aes.round_key. split.
  - rewrite length_take, length_drop. lia.
  - now apply Forall_take, Forall_drop.
Qed.

Lemma add_round_key_block s r :
  is_block s -> (r <= 14)%nat -> is_block (Hash.xor_bytes s (Aes.round_key ks r)).
Proof using ks_length ks_range.
  intros [L H] Hr. destruct (round_key_block r Hr) as [Lk Hk]. split.
  - rewrite xor_bytes_length. lia.
  - now apply xor_bytes_range.
Qed.

Lemma add_round_key_inj s t r :
  is_block s -> is_block t -> (r <= 14)%nat ->
  Hash.xor_bytes s (Aes.round_key ks r) = Hash.xor_bytes t (Aes.round_key ks r) ->
  s = t.
Proof using ks_length ks_range.
  intros [Ls _] [Lt _] Hr. destruct (round_key_block r Hr) as [Lk _].
  apply xor_bytes_inj; lia.
Qed.

Lemma sub_shift_block s :
  is_block s -> is_block (Aes.shift_rows (map Aes.sub_byte s)).
Proof.
  intros _. split; [apply shift_rows_length|].
  apply shift_rows_range, map_sub_byte_range.
Qed.

Lemma sub_shift_inj s t :
  is_block s -> is_block t ->
  Aes.shift_rows (map Aes.sub_byte s) = Aes.shift_rows (map Aes.sub_byte t) ->
  s = t.
Proof.
  intros [Ls Hs] [Lt Ht] E.
  apply shift_rows_inj in E; [| now rewrite length_map ..].
  now apply map_sub_byte_inj.
Qed.

Lemma mixed_block s :
  is_block s -> is_block (Aes.mix_columns (Aes.shift_rows (map Aes.sub_byte s))).
Proof.
  intros H. split; [apply mix_columns_length|].
  apply mix_columns_range, (sub_shift_block s H).
Qed.

Lemma rounds_block n : forall r s,
  (r + n <= 15)%nat -> is_block s -> is_block (Aes.rounds n r ks s).
Proof using ks_length ks_range.
  induction n as [|n IH]; intros r s Hr Hs; cbn [Aes.rounds]; [assumption|].
  apply IH; [lia|]. apply add_round_key_block; [now apply mixed_block | lia].
Qed.

Lemma rounds_inj n : forall r s t,
  (r + n <= 15)%nat -> is_block s -> is_block t ->
  Aes.rounds n r ks s = Aes.rounds n r ks t -> s = t.
Proof using ks_length ks_range.
  induction n as [|n IH]; intros r s t Hr Hs Ht E; cbn [Aes.rounds] in E;
    [assumption|].
  apply IH in E; [| lia | apply add_round_key_block; [now apply mixed_block | lia] ..].
  apply add_round_key_inj in E; [| now apply mixed_block .. | lia].
  apply mix_columns_inj in E; [| now apply sub_shift_block ..].
  now apply sub_shift_inj.
Qed.

(** The forward cipher maps different blocks to different blocks. *)
Lemma cipher_inj b b' :
  is_block b -> is_block b' ->
  Aes.cipher ks b = Aes.cipher ks b' -> b = b'.
Proof using ks_length ks_range.
  intros Hb Hb' E. unfold Aes.cipher in E. cbn zeta in E.
  assert (H0 : forall x, is_block x ->
                 is_block (Aes.rounds 13 1 ks
                             (Hash.xor_bytes x (Aes.round_key ks 0)))).
  { intros x Hx. apply rounds_block; [lia|].
    apply add_round_key_block; [assumption | lia]. }
  apply add_round_key_inj in E;
    [| now apply sub_shift_block, H0 .. | lia].
  apply sub_shift_inj in E; [| now apply H0 ..].
  apply rounds_inj in E;
    [| lia | apply add_round_key_block; [assumption | lia] ..].
  apply add_round_key_inj in E; [assumption | assumption .. | lia].
Qed.

End Injective.

(** *** Big-endian words *)

Lemma fold_be_word l : forall acc,
  fold_left (fun acc b => acc * 256 + b) l acc
  = acc * 256 ^ Z.of_nat (length l) + Hash.be_word l.
Proof.
  unfold Hash.be_word. induction l as [|a l IH]; intros acc.
  - cbn [fold_left length]. change (Z.of_nat 0) with 0. lia.
  - cbn [fold_left length]. rewrite (IH (acc * 256 + a)), (IH (0 * 256 + a)).
    rewrite Nat2Z.inj_succ, Z.pow_succ_r by lia. lia.
Qed.

Lemma be_word_cons a l :
  Hash.be_word (a :: l) = a * 256 ^ Z.of_nat (length l) + Hash.be_word l.
Proof.
  unfold Hash.be_word at 1. cbn [fold_left]. rewrite fold_be_word. lia.
Qed.

Lemma be_word_bound l :
  Forall is_byte l -> 0 <= Hash.be_word l < 256 ^ Z.of_nat (length l).
Proof.
  induction 1 as [|a l Ha _ IH].
  - cbn. lia.
  - rewrite be_word_cons. cbn [length].
    rewrite Nat2Z.inj_succ, Z.pow_succ_r by lia. unfold is_byte in Ha. nia.
Qed.

Lemma be_bytes_low m : forall n x y,
  (m <= n)%nat ->
  Hash.be_bytes m (x * 256 ^ Z.of_nat n + y) = Hash.be_bytes m y.
Proof.
  induction m as [|m IH]; intros n x y Hm; cbn [Hash.be_bytes]; [reflexivity|].
  rewrite (IH n x y) by lia. f_equal.
  rewrite !Z.shiftr_div_pow2 by lia.
  rewrite Z.pow_mul_r by lia. change (2 ^ 8) with 256.
  replace (Z.of_nat n) with (Z.of_nat m + (1 + Z.of_nat (n - S m))) by lia.
  rewrite !Z.pow_add_r by lia. change (256 ^ 1) with 256.
  replace (x * (256 ^ Z.of_nat m * (256 * 256 ^ Z.of_nat (n - S m))) + y)
    with (y + (x * 256 ^ Z.of_nat (n - S m) * 256) * 256 ^ Z.of_nat m) by lia.
  rewrite Z.div_add by (apply Z.pow_nonzero; lia).
  now rewrite Z.mod_add by lia.
Qed.

Lemma be_bytes_be_word l :
  Forall is_byte l -> Hash.be_bytes (length l) (Hash.be_word l) = l.
Proof.
  induction 1 as [|a l Ha Hl IH]; [reflexivity|].
  rewrite be_word_cons. cbn [length Hash.be_bytes].
  rewrite be_bytes_low, IH by lia. f_equal.
  pose proof (be_word_bound l Hl) as Hw.
  rewrite Z.shiftr_div_pow2 by lia.
  rewrite Z.pow_mul_r by lia. change (2 ^ 8) with 256.
  rewrite Z.add_comm, Z.div_add by (apply Z.pow_nonzero; lia).
  rewrite Z.div_small by assumption. unfold is_byte in Ha.
  now rewrite Z.add_0_l, Z.mod_small.
Qed.

(** *** GCM *)

(** The pre-counter block of a twelve-byte IV is the IV followed by the
    counter 1. *)
Lemma j0_bytes h iv :
  length iv = 12%nat -> Forall is_byte iv ->
  Aes.bytes_of (Aes.j0 h iv) = iv ++ [0; 0; 0; 1].
Proof.
  intros L H. unfold Aes.j0, Aes.bytes_of. rewrite L. cbn [Nat.eqb].
  assert (H' : Forall is_byte (iv ++ [0; 0; 0; 1])).
  { apply Forall_app_2; [assumption|].
    repeat (apply Forall_cons; split; [unfold is_byte; lia|]). constructor. }
  replace 16%nat with (length (iv ++ [0; 0; 0; 1]))
    by (rewrite length_app, L; reflexivity).
  now apply be_bytes_be_word.
Qed.

Lemma counter_block h iv :
  length iv = 12%nat -> Forall is_byte iv ->
  is_block (Aes.bytes_of (Aes.j0 h iv)).
Proof.
  intros Li Hi. rewrite j0_bytes by assumption. split.
  - rewrite length_app, Li. reflexivity.
  - apply Forall_app_2; [assumption|].
    repeat (apply Forall_cons; split; [unfold is_byte; lia|]). constructor.
Qed.

Lemma tag_inj ks h j1 j2 c :
  length ks = 240%nat -> Forall is_byte ks ->
  is_block (Aes.bytes_of j1) -> is_block (Aes.bytes_of j2) ->
  Aes.tag ks h j1 c = Aes.tag ks h j2 c ->
  Aes.bytes_of j1 = Aes.bytes_of j2.
Proof.
  intros L R B1 B2 E. unfold Aes.tag in E.
  apply xor_bytes_inj_l in E.
  - now apply (cipher_inj ks L R).
  - unfold Aes.bytes_of. rewrite cipher_length, be_bytes_length by assumption. lia.
  - unfold Aes.bytes_of. rewrite cipher_length, be_bytes_length by assumption. lia.
Qed.

Lemma sealed_inj ks h iv1 iv2 plaintext :
  length ks = 240%nat -> Forall is_byte ks ->
  length iv1 = 12%nat -> Forall is_byte iv1 ->
  length iv2 = 12%nat -> Forall is_byte iv2 ->
  Aes.gctr ks (Aes.inc32 (Aes.j0 h iv1)) plaintext
  ++ Aes.tag ks h (Aes.j0 h iv1)
       (Aes.gctr ks (Aes.inc32 (Aes.j0 h iv1)) plaintext)
  = Aes.gctr ks (Aes.inc32 (Aes.j0 h iv2)) plaintext
    ++ Aes.tag ks h (Aes.j0 h iv2)
         (Aes.gctr ks (Aes.inc32 (Aes.j0 h iv2)) plaintext) ->
  iv1 = iv2.
Proof.
  intros L R L1 H1 L2 H2 E.
  apply app_inj_1 in E as [Ec Et]; [| now rewrite !gctr_length].
  rewrite Ec in Et.
  apply tag_inj in Et; [| assumption | assumption | now apply counter_block ..].
  rewrite !j0_bytes in Et by assumption.
  now apply app_inv_tail in Et.
Qed.

(** Under one key, different twelve-byte IVs never give the same output
    (ciphertext and tag), whatever the plaintext: where the ciphertexts
    agree, the tags are masked by the cipher of different blocks. *)
Lemma gcm_encrypt_iv_inj key iv1 iv2 plaintext :
  length key = 32%nat -> Forall is_byte key ->
  length iv1 = 12%nat -> Forall is_byte iv1 ->
  length iv2 = 12%nat -> Forall is_byte iv2 ->
  Aes.gcm_encrypt key iv1 plaintext = Aes.gcm_encrypt key iv2 plaintext ->
  iv1 = iv2.
Proof.
  intros Lk Hk L1 H1 L2 H2 E.
  destruct (key_schedule_spec key Lk Hk) as [L R].
  exact (sealed_inj _ _ iv1 iv2 plaintext L R L1 H1 L2 H2 E).
Qed.

(** ** UTF-8: decoding what was encoded *)

Lemma lor_shiftl_add a b n :
  0 <= n -> 0 <= b < 2 ^ n -> Z.lor (Z.shiftl a n) b = a * 2 ^ n + b.
Proof.
  intros Hn Hb. rewrite <- Z.shiftl_mul_pow2 by lia.
  rewrite <- Z.lxor_lor, <- Z.add_nocarry_lxor; try reflexivity.
  all: apply Z.bits_inj'; intros i Hi; rewrite Z.land_spec, Z.bits_0.
  all: destruct (Z.ltb_spec i n);
    [ rewrite Z.shiftl_spec_low by lia; reflexivity | ].
  all: destruct (Z.eq_dec b 0) as [->|];
    [ rewrite Z.bits_0; apply andb_false_r | ].
  all: rewrite (Z.bits_above_log2 b i); [apply andb_false_r | lia |].
  all: apply Z.log2_lt_pow2; [lia|];
    apply Z.lt_le_trans with (2 ^ n); [lia | apply Z.pow_le_mono_r; lia].
Qed.

Lemma land_low a n : 0 <= n -> Z.land a (Z.ones n) = a mod 2 ^ n.
Proof. intros. now apply Z.land_ones. Qed.

Ltac Zify.zify_post_hook ::= Z.to_euclidean_division_equations.

Ltac split_tests :=
  repeat match goal with
         | |- context [?a <=? ?b] => destruct (Z.leb_spec a b); try lia
         | |- context [?a <? ?b] => destruct (Z.ltb_spec a b); try lia
         | |- context [?a =? ?b] => destruct (Z.eqb_spec a b); try lia
         end.

Lemma utf8_range cp : is_scalar cp -> Forall is_byte (Text.utf8 cp).
Proof.
  intros H. unfold Text.utf8, is_scalar, is_byte in *.
  split_tests; repeat constructor; lia.
Qed.

Ltac read_byte :=
  cbn [app Text.run]; unfold Text.step at 1;
  cbn [Text.initial Text.bytes_needed Text.lower_boundary Text.upper_boundary
       Text.bytes_seen Text.code_point];
  try unfold Text.lead; split_tests;
  cbn [andb Nat.eqb app Text.bytes_needed Text.lower_boundary
       Text.upper_boundary Text.bytes_seen Text.code_point].

(** The decoder reads the bytes of a scalar value back as that value and
    is ready for the next one. *)
Lemma run_utf8 cp rest :
  is_scalar cp ->
  Text.run Text.initial (Text.utf8 cp ++ rest) = cp :: Text.run Text.initial rest.
Proof.
  intros H. unfold is_scalar in H. unfold Text.utf8.
  destruct (Z.ltb_spec cp 128); [| destruct (Z.ltb_spec cp 2048);
    [| destruct (Z.ltb_spec cp 65536)]].
  - read_byte. reflexivity.
  - read_byte. read_byte. f_equal.
    change 31 with (Z.ones 5). change 63 with (Z.ones 6).
    rewrite !land_low, lor_shiftl_add by lia.
    change (2 ^ 5) with 32. change (2 ^ 6) with 64. lia.
  - read_byte; read_byte; read_byte; f_equal;
    change 15 with (Z.ones 4); change 63 with (Z.ones 6);
    rewrite !land_low, !lor_shiftl_add by lia;
    change (2 ^ 4) with 16; change (2 ^ 6) with 64; lia.
  - read_byte; read_byte; read_byte; read_byte; f_equal;
    change 7 with (Z.ones 3); change 63 with (Z.ones 6);
    rewrite !land_low, !lor_shiftl_add by lia;
    change (2 ^ 3) with 8; change (2 ^ 6) with 64; lia.
Qed.

Lemma run_encode cps :
  Forall is_scalar cps -> Text.run Text.initial (flat_map Text.utf8 cps) = cps.
Proof.
  induction 1 as [|cp cps Hcp _ IH]; [reflexivity|].
  cbn [flat_map]. now rewrite run_utf8, IH.
Qed.

Lemma encode_range_scalars cps :
  Forall is_scalar cps -> Forall is_byte (flat_map Text.utf8 cps).
Proof.
  induction 1 as [|cp cps Hcp _ IH]; [constructor|].
  cbn [flat_map]. apply Forall_app_2; [now apply utf8_range | assumption].
Qed.

Lemma scalars_spec n : forall s,
  (length s <= n)%nat -> well_formed s = true ->
  Forall is_scalar (Text.scalars s) /\ flat_map Text.units (Text.scalars s) = s.
Proof.
  induction n as [|n IH]; intros s Hn Hw.
  { destruct s; [split; [constructor | reflexivity] | cbn in Hn; lia]. }
  destruct s as [|c s]; [split; [constructor | reflexivity]|].
  cbn [well_formed] in Hw. apply andb_true_iff in Hw as [Hc Hw].
  cbn [Text.scalars length] in *.
  destruct (Text.is_high c) eqn:Hh.
  - destruct s as [|d s]; [discriminate|].
    apply andb_true_iff in Hw as [Hd Hw]. rewrite Hd.
    destruct (IH s) as [F E]; [cbn [length] in Hn; lia | assumption |].
    unfold Text.is_high, Text.is_low in *. split.
    + constructor; [unfold is_scalar; lia | assumption].
    + cbn [flat_map]. rewrite E. unfold Text.units.
      destruct (Z.ltb_spec (65536 + (c - 55296) * 1024 + (d - 56320)) 65536);
        [lia|].
      cbn [app]. f_equal; [lia|]. f_equal. lia.
  - apply andb_true_iff in Hw as [Hl Hw]. apply negb_true_iff in Hl.
    rewrite Hl. destruct (IH s) as [F E]; [lia | assumption |].
    unfold Text.is_high, Text.is_low in *. split.
    + constructor; [unfold is_scalar; lia | assumption].
    + cbn [flat_map]. rewrite E. unfold Text.units.
      destruct (Z.ltb_spec c 65536); [reflexivity | lia].
Qed.

Lemma encode_range s : well_formed s = true -> Forall is_byte (Text.encode s).
Proof.
  intros H. apply encode_range_scalars. now apply (scalars_spec (length s)).
Qed.

Lemma utf8_not_bom cp rest :
  is_scalar cp -> cp <> 65279 ->
  Text.strip_bom (Text.utf8 cp ++ rest) = Text.utf8 cp ++ rest.
Proof.
  intros H Hb. unfold is_scalar in H. unfold Text.strip_bom, Text.utf8.
  destruct (Z.ltb_spec cp 128); [| destruct (Z.ltb_spec cp 2048);
    [| destruct (Z.ltb_spec cp 65536)]]; cbn [app].
  - destruct rest as [|b [|c r]]; try reflexivity.
    destruct (Z.eqb_spec cp 239); [lia | reflexivity].
  - destruct rest as [|c r]; try reflexivity.
    destruct (Z.eqb_spec (192 + cp / 64) 239); [lia | reflexivity].
  - destruct (Z.eqb_spec (224 + cp / 4096) 239); [| reflexivity].
    destruct (Z.eqb_spec (128 + (cp / 64) mod 64) 187); [| reflexivity].
    destruct (Z.eqb_spec (128 + cp mod 64) 191); [lia | reflexivity].
  - destruct (Z.eqb_spec (240 + cp / 262144) 239); [lia | reflexivity].
Qed.

Ltac Zify.zify_post_hook ::= idtac.

(** Text that is well-formed UTF-16 and does not start with a byte order
    mark survives [TextEncoder] followed by [TextDecoder]. *)
Lemma decode_encode s :
  well_formed s = true -> starts_with_bom s = false ->
  Text.decode (Text.encode s) = s.
Proof.
  intros Hw Hb. destruct (scalars_spec (length s) s) as [F E]; auto.
  unfold Text.decode, Text.encode.
  assert (Hs : Text.strip_bom (flat_map Text.utf8 (Text.scalars s))
               = flat_map Text.utf8 (Text.scalars s)).
  { destruct (Text.scalars s) as [|cp cps] eqn:Es; [reflexivity|].
    cbn [flat_map]. apply utf8_not_bom; [now inversion F|].
    destruct s as [|c s]; [discriminate|].
    cbn [starts_with_bom] in Hb. apply Z.eqb_neq in Hb.
    cbn [Text.scalars] in Es. unfold Text.is_high, Text.is_low in Es.
    destruct ((55296 <=? c) && (c <=? 56319)) eqn:Hh.
    - destruct s as [|d s]; [injection Es as <- _; lia|].
      destruct ((56320 <=? d) && (d <=? 57343)) eqn:Hl;
        injection Es as <- _; lia.
    - destruct ((56320 <=? c) && (c <=? 57343)); injection Es as <- _; lia. }
  rewrite Hs, run_encode by assumption. exact E.
Qed.

(** ** Hexadecimal fields *)

Lemma hex_check_all : forallb hex_check (seq 0 256) = true.
Proof. vm_compute. reflexivity. Qed.

Lemma hex_pair_spec b :
  is_byte b ->
  length (hex_pair b) = 2%nat /\ forallb is_hex_digit (hex_pair b) = true
  /\ Js.toUint8 (Js.parseInt (hex_pair b) 16) = b.
Proof.
  intros Hb. pose proof hex_check_all as H.
  rewrite forallb_forall in H. specialize (H (Z.to_nat b)).
  unfold is_byte in Hb.
  assert (Hin : In (Z.to_nat b) (seq 0 256)) by (apply in_seq; lia).
  apply H in Hin. unfold hex_check in Hin. rewrite Z2Nat.id in Hin by lia.
  apply andb_true_iff in Hin as [Hin H3]. apply andb_true_iff in Hin as [H1 H2].
  apply Nat.eqb_eq in H1. apply Z.eqb_eq in H3. auto.
Qed.

Lemma hex_digit_plain c :
  is_hex_digit c = true -> c <> 58 /\ Js.is_line_terminator c = false.
Proof.
  unfold is_hex_digit, Js.is_line_terminator. intros H. split; [lia|].
  repeat match goal with
         | |- context [c =? ?k] => destruct (Z.eqb_spec c k); [lia|]
         end.
  reflexivity.
Qed.

Lemma hex_digits bs :
  Forall is_byte bs -> forallb is_hex_digit (hex_of_bytes bs) = true.
Proof.
  induction 1 as [|b bs Hb _ IH]; [reflexivity|].
  unfold hex_of_bytes in *. cbn [flat_map]. fold (hex_pair b).
  rewrite forallb_app, IH. now destruct (hex_pair_spec b Hb) as (_ & -> & _).
Qed.

Lemma hex_length bs :
  Forall is_byte bs -> length (hex_of_bytes bs) = (2 * length bs)%nat.
Proof.
  induction 1 as [|b bs Hb _ IH]; [reflexivity|].
  unfold hex_of_bytes in *. cbn [flat_map length]. fold (hex_pair b).
  rewrite length_app, IH. destruct (hex_pair_spec b Hb) as (-> & _). lia.
Qed.

Lemma hex_digits_plain s :
  forallb is_hex_digit s = true -> ~ In 58 s /\ one_line s.
Proof.
  intros H. rewrite forallb_forall in H. split.
  - intros Hin. apply H, hex_digit_plain in Hin. lia.
  - apply Forall_forall. intros c Hc. apply list_elem_of_In in Hc.
    now apply H, hex_digit_plain in Hc.
Qed.

Lemma parse_hex_pairs bs :
  Forall is_byte bs ->
  map (fun byte => Js.toUint8 (Js.parseInt byte 16)) (map hex_pair bs) = bs.
Proof.
  induction 1 as [|x xs Hx _ IH]; [reflexivity|].
  cbn [map]. destruct (hex_pair_spec x Hx) as (_ & _ & ->). now rewrite IH.
Qed.

(** Parsing the hexadecimal text of a non-empty byte array gives it back. *)
Lemma bytes_of_hex_of_bytes bs :
  Forall is_byte bs -> bs <> [] -> bytes_of_hex (hex_of_bytes bs) = Ok bs.
Proof.
  intros Hbs Hne.
  destruct (hex_digits_plain _ (hex_digits bs Hbs)) as [_ Hline].
  unfold bytes_of_hex, Js.match_dot.
  assert (E : hex_of_bytes bs = concat (map hex_pair bs) ++ []).
  { rewrite app_nil_r. apply flat_map_concat_map. }
  rewrite E in Hline |- *.
  rewrite (dot_runs_groups 2 (map hex_pair bs) []); [| lia | | assumption | cbn; lia].
  - rewrite app_nil_r. destruct (map hex_pair bs) as [|p ps] eqn:Ep.
    + destruct bs; [contradiction | discriminate].
    + rewrite <- Ep, parse_hex_pairs by assumption. reflexivity.
  - apply Forall_forall. intros g Hg. apply list_elem_of_In in Hg.
    apply in_map_iff in Hg as (b & <- & Hb%list_elem_of_In).
    rewrite Forall_forall in Hbs. apply (hex_pair_spec b (Hbs b Hb)).
Qed.

(** ** [split] *)

Lemma split_no_sep sep s : ~ In sep s -> split sep s = [s].
Proof.
  induction s as [|c s IH]; intros H; [reflexivity|].
  cbn [split]. destruct (Z.eqb_spec c sep) as [->|_].
  - exfalso. apply H. now left.
  - rewrite IH; [reflexivity|]. intros Hin. apply H. now right.
Qed.

Lemma split_at_sep sep a b :
  ~ In sep a -> split sep (a ++ sep :: b) = a :: split sep b.
Proof.
  induction a as [|c a IH]; intros H.
  - cbn [app split]. now rewrite Z.eqb_refl.
  - cbn [app split]. destruct (Z.eqb_spec c sep) as [->|_].
    + exfalso. apply H. now left.
    + rewrite IH; [reflexivity|]. intros Hin. apply H. now right.
Qed.

Lemma split_nonempty sep s : split sep s <> [].
Proof.
  destruct s as [|c s]; [discriminate|]. cbn [split].
  destruct (c =? sep); [discriminate|]. now destruct (split sep s).
Qed.

(** ** The envelope *)

Lemma getRandomValues_spec n r :
  length (fst (getRandomValues n r)) = n
  /\ Forall is_byte (fst (getRandomValues n r)).
Proof.
  unfold getRandomValues. cbn [fst]. split.
  - now rewrite length_map, length_seq.
  - apply Forall_map, Forall_forall. intros i _. unfold is_byte.
    apply Z.mod_pos_bound. lia.
Qed.

Lemma encrypt_unfold data key r :
  encrypt data key r =
  (hex_of_bytes (fst (getRandomValues 12 r)) ++ 58 ::
   hex_of_bytes (Aes.gcm_encrypt key (fst (getRandomValues 12 r))
                                 (Text.encode data)),
   snd (getRandomValues 12 r)).
Proof. reflexivity. Qed.

Lemma nonempty_length {A} (l : list A) : (0 < length l)%nat -> l <> [].
Proof. destruct l; [cbn; lia | discriminate]. Qed.

Lemma decrypt_fields iv ct key :
  Forall is_byte iv -> Forall is_byte ct -> iv <> [] -> ct <> [] ->
  decrypt (hex_of_bytes iv ++ 58 :: hex_of_bytes ct) key =
  match Aes.gcm_decrypt key iv ct with
  | None => Throw OperationError
  | Some decryptedData => Ok (Text.decode decryptedData)
  end.
Proof.
  intros Hiv Hct Niv Nct. unfold decrypt. cbn zeta.
  destruct (hex_digits_plain _ (hex_digits iv Hiv)) as [Civ _].
  destruct (hex_digits_plain _ (hex_digits ct Hct)) as [Cct _].
  rewrite split_at_sep, split_no_sep by assumption.
  pose proof (hex_length iv Hiv) as Liv. pose proof (hex_length ct Hct) as Lct.
  assert (Fiv : falsy (Some (hex_of_bytes iv)) = false).
  { destruct (hex_of_bytes iv); [|reflexivity].
    destruct iv; [contradiction | cbn in Liv; lia]. }
  assert (Fct : falsy (Some (hex_of_bytes ct)) = false).
  { destruct (hex_of_bytes ct); [|reflexivity].
    destruct ct; [contradiction | cbn in Lct; lia]. }
  change ([hex_of_bytes iv; hex_of_bytes ct] !! 0%nat)
    with (Some (hex_of_bytes iv)).
  change ([hex_of_bytes iv; hex_of_bytes ct] !! 1%nat)
    with (Some (hex_of_bytes ct)).
  rewrite Fiv, Fct. cbn [orb default from_option id].
  rewrite !bytes_of_hex_of_bytes by assumption. reflexivity.
Qed.

(** Decrypting what [encrypt] returned, under the same key: the text as
    [TextDecoder] reads the bytes that [TextEncoder] wrote. *)
Lemma decrypt_encrypt data key r :
  length key = 32%nat -> Forall is_byte key ->
  Forall is_byte (Text.encode data) ->
  decrypt (fst (encrypt data key r)) key
  = Ok (Text.decode (Text.encode data)).
Proof.
  intros Lk Rk Rd. rewrite encrypt_unfold. cbn [fst].
  destruct (getRandomValues_spec 12 r) as [Liv Riv].
  destruct (gcm_encrypt_spec key (fst (getRandomValues 12 r))
              (Text.encode data) Lk Rk Rd) as (Lc & Rc & Dc).
  rewrite decrypt_fields;
    [ now rewrite Dc | assumption | assumption
    | apply nonempty_length; lia | apply nonempty_length; lia ].
Qed.

Opaque deriveKey.

(** C3, as the code has it: the envelope that [encrypt] makes of a text
    under a derived key decrypts to that text under the same key, for every
    password, salt and random source, when the text is well-formed UTF-16
    and does not start with U+FEFF. [deriveKey] is a function of the
    password and the salt. *)
Theorem envelope_roundtrip (password : jsstring) (salt : bytes)
    (m : jsstring) (r : rng) :
  well_formed m = true -> starts_with_bom m = false ->
  decrypt (fst (encrypt m (deriveKey password salt) r))
          (deriveKey password salt) = Ok m.
Proof.
  intros Hw Hb. destruct (deriveKey_key password salt) as [Lk Rk].
  rewrite decrypt_encrypt by (auto using encode_range).
  now rewrite decode_encode.
Qed.

Lemma envelope_roundtrip_witness :
  decrypt (fst (encrypt (str "[{}]") (deriveKey (str "pw") [1; 2; 3])
                        (fun i => Z.of_nat i)))
          (deriveKey (str "pw") [1; 2; 3]) = Ok (str "[{}]").
Proof.
  apply (envelope_roundtrip (str "pw") [1; 2; 3] (str "[{}]")
           (fun i => Z.of_nat i)); reflexivity.
Defined.

(** A text that starts with U+FEFF comes back without it. *)
Lemma envelope_roundtrip_loses_bom :
  decrypt (fst (encrypt [65279; 91; 93] (deriveKey (str "pw") [1; 2; 3])
                        (fun i => Z.of_nat i)))
          (deriveKey (str "pw") [1; 2; 3]) <> Ok [65279; 91; 93].
Proof.
  destruct (deriveKey_key (str "pw") [1; 2; 3]) as [Lk Rk].
  rewrite decrypt_encrypt; [| assumption | assumption |].
  - change (Text.decode (Text.encode [65279; 91; 93])) with [91; 93].
    discriminate.
  - apply Forall_byte_ok. reflexivity.
Qed.

(** C4, as the code has it: an envelope text without [:], or with an empty
    IV field or an empty ciphertext field, is refused with the error
    "Invalid encrypted data format" before any decryption. *)
Theorem decrypt_malformed (s : jsstring) (key : CryptoKey) :
  malformed s -> decrypt s key = Throw (Error "Invalid encrypted data format").
Proof.
  intros H. unfold decrypt. cbn zeta. destruct H as [s H | rest | iv H | iv rest H].
  - rewrite split_no_sep by assumption.
    change ([s] !! 1%nat) with (@None jsstring).
    cbn [falsy]. now rewrite orb_true_r.
  - cbn [split]. rewrite Z.eqb_refl.
    change (([] :: split 58 rest) !! 0%nat) with (Some (@nil Z)).
    reflexivity.
  - rewrite split_at_sep by assumption. cbn [split].
    change ([iv; []] !! 1%nat) with (Some (@nil Z)).
    cbn [falsy]. now rewrite orb_true_r.
  - rewrite split_at_sep by assumption. cbn [split]. rewrite Z.eqb_refl.
    change ((iv :: [] :: split 58 rest) !! 1%nat) with (Some (@nil Z)).
    cbn [falsy]. now rewrite orb_true_r.
Qed.

Lemma decrypt_malformed_witness :
  decrypt (str "00ff:") (repeat 7 32)
  = Throw (Error "Invalid encrypted data format").
Proof.
  apply (decrypt_malformed (str "00ff:") (repeat 7 32)).
  apply (empty_ciphertext (str "00ff")).
  vm_compute. intuition discriminate.
Defined.

(** Fields that are not hexadecimal are not refused: [zz:zz] reaches
    AES-GCM and fails there, and an IV field starting with [3z] is read as
    one starting with [03], so the envelope decrypts. *)
Lemma decrypt_accepts_non_hex :
  decrypt (str "zz:zz") (repeat 7 32) = Throw OperationError
  /\ decrypt (str "zz:zz") (repeat 7 32)
     <> Throw (Error "Invalid encrypted data format")
  /\ fst (encrypt (str "[]") (repeat 7 32) (fun i => Z.of_nat (7 * i + 3)))
     = str "030a11181f262d343b424950:9cfcf38d84f371917a03834144f7eed5b11a"
  /\ decrypt (str "3z0a11181f262d343b424950:9cfcf38d84f371917a03834144f7eed5b11a")
             (repeat 7 32) = Ok (str "[]").
Proof. repeat split; try (vm_compute; reflexivity). vm_compute. discriminate. Qed.

Lemma hex_of_bytes_inj a b :
  Forall is_byte a -> Forall is_byte b -> a <> [] ->
  hex_of_bytes a = hex_of_bytes b -> a = b.
Proof.
  intros Ha Hb Na E.
  assert (Nb : b <> []).
  { intros ->. apply (f_equal (@length Z)) in E.
    rewrite hex_length in E by assumption. cbn in E.
    destruct a; [contradiction | cbn in E; lia]. }
  pose proof (bytes_of_hex_of_bytes a Ha Na) as E1.
  rewrite E, bytes_of_hex_of_bytes in E1 by assumption. congruence.
Qed.

Lemma scalars_of_units n : forall s,
  (length s <= n)%nat -> Forall is_unit s -> Forall is_scalar (Text.scalars s).
Proof.
  induction n as [|n IH]; intros s Hn Hs.
  { destruct s; [constructor | cbn in Hn; lia]. }
  destruct s as [|c s]; [constructor|].
  apply Forall_cons in Hs as [Hc Hs]. cbn [length] in Hn.
  cbn [Text.scalars]. unfold is_unit in Hc.
  destruct (Text.is_high c) eqn:Hh.
  - destruct s as [|d s]; [repeat constructor; unfold is_scalar; lia|].
    destruct (Text.is_low d) eqn:Hl.
    + apply Forall_cons in Hs as [Hd Hs]. cbn [length] in Hn.
      unfold Text.is_high, Text.is_low, is_unit in *.
      constructor; [unfold is_scalar; lia | apply IH; [lia | assumption]].
    + constructor; [unfold is_scalar; lia | apply IH; [lia | assumption]].
  - destruct (Text.is_low c) eqn:Hl.
    + constructor; [unfold is_scalar; lia | apply IH; [lia | assumption]].
    + unfold Text.is_high, Text.is_low in *.
      constructor; [unfold is_scalar; lia | apply IH; [lia | assumption]].
Qed.

Lemma encode_bytes s : Forall is_unit s -> Forall is_byte (Text.encode s).
Proof.
  intros H. apply encode_range_scalars. now apply (scalars_of_units (length s)).
Qed.

(** C5: [encrypt] runs the cipher with the twelve bytes that it draws from
    the random source during the call, writes those same bytes as the IV
    field of the envelope and leaves the source past them; it has no other
    way to an IV. Two calls whose draws differ return different envelopes,
    whatever the key and the text, and under a 256-bit key also different
    ciphertext bytes and ciphertext fields. *)
Theorem encrypt_fresh_iv (data : jsstring) (key : CryptoKey) (r1 r2 : rng) :
  fst (getRandomValues 12 r1) <> fst (getRandomValues 12 r2) ->
  let iv1 := fst (getRandomValues 12 r1) in
  let iv2 := fst (getRandomValues 12 r2) in
  let sealed1 := Aes.gcm_encrypt key iv1 (Text.encode data) in
  let sealed2 := Aes.gcm_encrypt key iv2 (Text.encode data) in
  fst (encrypt data key r1) <> fst (encrypt data key r2)
  /\ take 24 (fst (encrypt data key r1)) = hex_of_bytes iv1
  /\ snd (encrypt data key r1) = snd (getRandomValues 12 r1)
  /\ fst (encrypt data key r1) = hex_of_bytes iv1 ++ 58 :: hex_of_bytes sealed1
  /\ fst (encrypt data key r2) = hex_of_bytes iv2 ++ 58 :: hex_of_bytes sealed2
  /\ fst (getRandomValues 12 (snd (encrypt data key r1)))
     = map (fun i => r1 (12 + i)%nat mod 256) (seq 0 12)
  /\ (length key = 32%nat -> Forall is_byte key ->
      sealed1 <> sealed2
      /\ (Forall is_unit data -> hex_of_bytes sealed1 <> hex_of_bytes sealed2)).
Proof.
  intros Hne. cbn zeta. rewrite !encrypt_unfold. cbn [fst snd].
  destruct (getRandomValues_spec 12 r1) as [L1 R1].
  destruct (getRandomValues_spec 12 r2) as [L2 R2].
  pose proof (hex_length _ R1) as H1. pose proof (hex_length _ R2) as H2.
  split; [| split; [| repeat split]].
  - intros E. apply app_inj_1 in E as [E _]; [| lia].
    apply Hne, hex_of_bytes_inj; [assumption | assumption | | assumption].
    apply nonempty_length. lia.
  - apply take_app_length'. lia.
  - intros E. apply Hne.
    now apply (gcm_encrypt_iv_inj key _ _ (Text.encode data)).
  - intros Hu E. apply encode_bytes in Hu.
    destruct (gcm_encrypt_spec key (fst (getRandomValues 12 r1))
                (Text.encode data)) as (La & Ra & _); [assumption ..|].
    destruct (gcm_encrypt_spec key (fst (getRandomValues 12 r2))
                (Text.encode data)) as (Lb & Rb & _); [assumption ..|].
    apply hex_of_bytes_inj in E; [| assumption | assumption |].
    + apply Hne. now apply (gcm_encrypt_iv_inj key _ _ (Text.encode data)).
    + apply nonempty_length. lia.
Qed.

Lemma encrypt_fresh_iv_witness :
  let r1 : rng := fun i => Z.of_nat i in
  let r2 : rng := fun i => Z.of_nat (12 + i) in
  let key := repeat 7 32 in
  fst (encrypt (str "[]") key r1) <> fst (encrypt (str "[]") key r2)
  /\ take 24 (fst (encrypt (str "[]") key r1)) = str "000102030405060708090a0b"
  /\ take 24 (fst (encrypt (str "[]") key r2)) = str "0c0d0e0f1011121314151617"
  /\ fst (getRandomValues 12 (snd (encrypt (str "[]") key r1)))
     = fst (getRandomValues 12 r2)
  /\ Aes.gcm_encrypt key (fst (getRandomValues 12 r1)) (Text.encode (str "[]"))
     <> Aes.gcm_encrypt key (fst (getRandomValues 12 r2))
          (Text.encode (str "[]")).
Proof.
  cbn zeta.
  destruct (encrypt_fresh_iv (str "[]") (repeat 7 32)
              (fun i => Z.of_nat i) (fun i => Z.of_nat (12 + i)))
    as (Hd & Ht & _ & _ & E2 & Hn & Hk).
  - vm_compute. discriminate.
  - destruct Hk as [Hs _]; [reflexivity | |].
    { apply Forall_forall. intros x Hx. apply list_elem_of_In, repeat_spec in Hx.
      subst. unfold is_byte. lia. }
    split; [exact Hd|]. split; [exact Ht|]. split.
    + rewrite E2. apply take_app_length'. reflexivity.
    + split; [exact Hn | exact Hs].
Defined.

Opaque deriveKey.

(** ** Storage keys *)

Lemma getUserKey_inj a b : getUserKey a = getUserKey b -> a = b.
Proof. unfold getUserKey. apply app_inv_head. Qed.

Lemma getStorageKey_inj a b : getStorageKey a = getStorageKey b -> a = b.
Proof. unfold getStorageKey. apply app_inv_head. Qed.

Lemma user_key_not_storage_key a b : getUserKey a <> getStorageKey b.
Proof. unfold getUserKey, getStorageKey. cbn. discriminate. Qed.

Section StoreFacts.

Variable JSON_parse : jsstring -> result JsValue.
Variable JSON_stringify : JsValue -> jsstring.

Lemma loadUser_insert_other ls k v email :
  k <> getUserKey email -> loadUser JSON_parse (<[k := v]> ls) email = loadUser JSON_parse ls email.
Proof. intros H. unfold loadUser. now rewrite lookup_insert_ne. Qed.

Lemma saveAccounts_store accs key email ls r :
  fst (saveAccounts JSON_stringify accs key email ls r)
  = <[getStorageKey email := fst (encrypt (JSON_stringify accs) key r)]> ls.
Proof. unfold saveAccounts. now destruct (encrypt _ _ _). Qed.

Lemma save_then_load accs key email ls r :
  length key = 32%nat -> Forall is_byte key ->
  well_formed (JSON_stringify accs) = true ->
  starts_with_bom (JSON_stringify accs) = false ->
  loadAccounts JSON_parse key email
    (fst (saveAccounts JSON_stringify accs key email ls r))
  = JSON_parse (JSON_stringify accs).
Proof.
  intros Lk Rk Hw Hb. unfold saveAccounts, loadAccounts.
  pose proof (decrypt_encrypt (JSON_stringify accs) key r Lk Rk
                (encode_range _ Hw)) as D.
  rewrite decode_encode in D by assumption.
  destruct (encrypt (JSON_stringify accs) key r) as [env r'] eqn:E.
  cbn [fst] in *. rewrite lookup_insert_eq.
  destruct env as [|c env].
  - unfold decrypt in D. cbn in D. discriminate D.
  - now rewrite D.
Qed.

(** C10: when a user record is stored under the new email,
    [updateUserEmail] returns false and the store is what it was; on any
    store, a false return leaves the store as it was. *)
Theorem updateUserEmail_taken (oldEmail newEmail : jsstring) (ls : Storage) :
  oldEmail <> newEmail -> userExists ls newEmail = true ->
  updateUserEmail JSON_parse JSON_stringify oldEmail newEmail ls = (false, ls)
  /\ forall ls', fst (updateUserEmail JSON_parse JSON_stringify oldEmail newEmail ls') = false ->
                 snd (updateUserEmail JSON_parse JSON_stringify oldEmail newEmail ls') = ls'.
Proof.
  intros _ H. split.
  - unfold updateUserEmail. now rewrite H.
  - intros ls'. unfold updateUserEmail.
    destruct (userExists ls' newEmail); [reflexivity | discriminate].
Qed.

(** C6: password change by a logged-in user whose record is stored. When
    loading the accounts under the key derived from the current password
    and the stored salt fails, the call fails and the state is untouched.
    When it succeeds, the accounts in memory are encrypted under the key
    derived from the new password and the same salt and stored in place of
    the blob; that key becomes the master key and the user record, with its
    salt, is unchanged. *)
Theorem handleChangePassword_spec (currentPassword newPassword : jsstring)
    (app : App) (user : jsstring) (userData : JsValue) (salt : bytes) :
  currentUser app = Some user -> user <> [] -> is_Some (masterKey app) ->
  loadUser JSON_parse (localStorage app) user = Some userData ->
  bytes_of_hex (default [] (as_string (prop userData (str "salt")))) = Ok salt ->
  (forall e,
     loadAccounts JSON_parse (deriveKey currentPassword salt) user (localStorage app)
     = Throw e ->
     handleChangePassword JSON_parse JSON_stringify currentPassword newPassword app
     = (Throw (Error "A senha atual está incorreta."), app))
  /\ (forall v,
        loadAccounts JSON_parse (deriveKey currentPassword salt) user (localStorage app)
        = Ok v ->
        let newKey := deriveKey newPassword salt in
        let sealed := encrypt (JSON_stringify (accounts app)) newKey (random app) in
        let app' := mkApp (accounts app) (Some newKey) (currentUser app)
                      (<[getStorageKey user := fst sealed]> (localStorage app))
                      (snd sealed) in
        handleChangePassword JSON_parse JSON_stringify currentPassword
          newPassword app = (Ok tt, app')
        /\ loadUser JSON_parse (localStorage app') user = Some userData).
Proof.
  intros Hu Hne [mk Hk] Hl Hs. unfold handleChangePassword.
  rewrite Hu, Hk. destruct user as [|c user]; [contradiction|].
  rewrite Hl, Hs. split.
  - intros e He. now rewrite He.
  - intros v Hv. cbn zeta. rewrite Hv. split.
    + unfold saveAccounts. now destruct (encrypt _ _ _).
    + cbn [localStorage]. rewrite loadUser_insert_other; [assumption|].
      intros E. symmetry in E. now apply user_key_not_storage_key in E.
Qed.

End StoreFacts.

Lemma updateUserEmail_taken_witness :
  updateUserEmail sample_parse sample_stringify (str "c@d") (str "a@b")
    sample_store = (false, sample_store)
  /\ forall ls',
       fst (updateUserEmail sample_parse sample_stringify (str "c@d")
              (str "a@b") ls') = false ->
       snd (updateUserEmail sample_parse sample_stringify (str "c@d")
              (str "a@b") ls') = ls'.
Proof.
  apply (updateUserEmail_taken sample_parse sample_stringify
           (str "c@d") (str "a@b") sample_store).
  - vm_compute. discriminate.
  - vm_compute. reflexivity.
Defined.

(** The sealed vault opens under the key of the current password, and the
    corrupted one under no key. *)
Lemma sealed_load :
  loadAccounts vault_parse (deriveKey (str "old-password") [0; 255])
    (str "a@b") (localStorage sealed_app) = Ok vault_accounts.
Proof.
  destruct (deriveKey_key (str "old-password") [0; 255]) as [Lk Rk].
  pose proof (save_then_load vault_parse vault_stringify vault_accounts _
                (str "a@b") sample_store (fun i => Z.of_nat i) Lk Rk) as H.
  assert (W : well_formed (vault_stringify vault_accounts) = true)
    by (vm_compute; reflexivity).
  assert (B : starts_with_bom (vault_stringify vault_accounts) = false)
    by (vm_compute; reflexivity).
  specialize (H W B).
  assert (P : vault_parse (vault_stringify vault_accounts) = Ok vault_accounts)
    by (vm_compute; reflexivity).
  rewrite P in H. exact H.
Qed.

Lemma corrupted_load key :
  loadAccounts vault_parse key (str "a@b") (localStorage corrupted_app)
  = Throw OperationError.
Proof.
  unfold corrupted_app, loadAccounts. cbn [localStorage].
  rewrite lookup_insert_eq. reflexivity.
Qed.

Lemma handleChangePassword_spec_witness :
  handleChangePassword vault_parse vault_stringify (str "old-password")
    (str "new-password") corrupted_app
  = (Throw (Error "A senha atual está incorreta."), corrupted_app)
  /\ loadAccounts vault_parse (deriveKey (str "old-password") [0; 255])
       (str "a@b") (localStorage sealed_app) = Ok vault_accounts
  /\ (let newKey := deriveKey (str "new-password") [0; 255] in
      let sealed :=
        encrypt (vault_stringify vault_accounts) newKey (random sealed_app) in
      let ls' := <[getStorageKey (str "a@b") := fst sealed]>
                   (localStorage sealed_app) in
      handleChangePassword vault_parse vault_stringify (str "old-password")
        (str "new-password") sealed_app
      = (Ok tt, mkApp vault_accounts (Some newKey) (Some (str "a@b")) ls'
                      (snd sealed))
      /\ loadUser vault_parse ls' (str "a@b") = Some sample_record).
Proof.
  split; [|split; [exact sealed_load|]].
  - refine (proj1 (handleChangePassword_spec vault_parse vault_stringify
                     (str "old-password") (str "new-password") corrupted_app
                     (str "a@b") sample_record [0; 255] eq_refl _
                     (ex_intro _ _ eq_refl) _ _)
              OperationError (corrupted_load _)).
    + discriminate.
    + unfold corrupted_app. cbn [localStorage].
      rewrite loadUser_insert_other; [vm_compute; reflexivity|].
      intros E. symmetry in E. now apply user_key_not_storage_key in E.
    + vm_compute. reflexivity.
  - refine (proj2 (handleChangePassword_spec vault_parse vault_stringify
                     (str "old-password") (str "new-password") sealed_app
                     (str "a@b") sample_record [0; 255] eq_refl _
                     (ex_intro _ _ eq_refl) _ _)
              vault_accounts sealed_load).
    + discriminate.
    + unfold sealed_app. cbn [localStorage].
      rewrite saveAccounts_store. rewrite loadUser_insert_other.
      * vm_compute; reflexivity.
      * intros E. symmetry in E. now apply user_key_not_storage_key in E.
    + vm_compute. reflexivity.
Defined.

(** ** Import and verification in the modal *)

Lemma secret_bytes_range param : Forall is_byte (secret_bytes param).
Proof.
  unfold secret_bytes. apply Forall_map, Forall_forall. intros x _.
  unfold is_byte. cbn [Js.toUint8]. apply Z.mod_pos_bound. lia.
Qed.

(** X24: a payload of N >= 1 sub-messages hands N accounts to the owner
    in one call, in order; the secret of each is what [bytesToBase32] makes
    of the sub-message's secret bytes, and decodes to those bytes when
    their number is a positive multiple of 5. *)
Theorem migration_accounts (params : list OtpParameters) (m : Modal) :
  params <> [] ->
  exists accs,
    onAddMultipleAccounts (handleQrScan_migration (Some params) m)
    = onAddMultipleAccounts m ++ [accs]
    /\ length accs = length params
    /\ forall i param, params !! i = Some param ->
         exists account,
           accs !! i = Some account
           /\ secret account = bytesToBase32 (secret_bytes param)
           /\ forall k, (0 < k)%nat ->
                length (secret_bytes param) = (5 * k)%nat ->
                base32ToBytes (secret account) = Ok (secret_bytes param).
Proof.
  intros Hne. exists (map migrated_account params).
  destruct params as [|p ps]; [contradiction|].
  split; [reflexivity|]. split; [apply length_map|].
  intros i param Hi. exists (migrated_account param). split.
  - change (map migrated_account (p :: ps)) with (migrated_account <$> (p :: ps)).
    now rewrite list_lookup_fmap, Hi.
  - split; [reflexivity|]. intros k Hk Hl.
    change (secret (migrated_account param))
      with (bytesToBase32 (secret_bytes param)).
    now apply (decode_encode_whole _ k (secret_bytes_range param)).
Qed.

Lemma migration_accounts_witness :
  exists a0 a1,
    onAddMultipleAccounts
      (handleQrScan_migration (Some sample_payload)
         (mkModal None None None [] [] []))
    = [[a0; a1]]
    /\ secret a0 = str "GEZDGNBVGY3TQOJQ"
    /\ base32ToBytes (secret a0) = Ok (str "1234567890")
    /\ secret a1 = str "GEZDGNBVGY3TQOJQGEZDGNBVGY3TQOJQ"
    /\ base32ToBytes (secret a1) = Ok (str "12345678901234567890").
Proof.
  destruct (migration_accounts sample_payload
              (mkModal None None None [] [] []))
    as (accs & H & L & Hlook).
  - discriminate.
  - destruct (Hlook 0%nat _ eq_refl) as (a0 & E0 & S0 & R0).
    destruct (Hlook 1%nat _ eq_refl) as (a1 & E1 & S1 & R1).
    destruct accs as [|x0 [|x1 [|x2 accs]]]; try discriminate L.
    injection E0 as ->. injection E1 as ->.
    exists a0, a1. split; [exact H|].
    rewrite (R0 2%nat), (R1 4%nat), S0, S1 by (reflexivity || lia).
    repeat split; reflexivity.
Defined.

(** C7 fails on the code, by the defect of C1: the secret of a migrated
    account lacks the bits that [bytesToBase32] drops. Of two sub-messages,
    one with the sixteen bytes of "1234567890123456" and one with the
    twenty bytes of RFC 4226, the first becomes an account whose secret
    decodes to fifteen bytes and whose code is not the code of the
    sub-message's secret; the second is intact. *)
Theorem migration_sixteen_byte_secret :
  exists a0 a1,
    onAddMultipleAccounts
      (handleQrScan_migration (Some migrated_payload)
         (mkModal None None None [] [] []))
    = [[a0; a1]]
    /\ secret a0 = str "GEZDGNBVGY3TQOJQGEZDGNBVG"
    /\ base32ToBytes (secret a0) = Ok (str "123456789012345")
    /\ generateHOTP (secret a0) 0 = Ok (str "222574")
    /\ hotp_rfc4226 (str "1234567890123456") 0 = str "504023"
    /\ base32ToBytes (secret a1) = Ok (str "12345678901234567890")
    /\ generateHOTP (secret a1) 0 = Ok (str "755224").
Proof.
  eexists _, _. split; [reflexivity|].
  cbn [secret]. repeat split; vm_compute; reflexivity.
Qed.

(** Whether [generateHOTP] returns a code depends on the secret only. *)
Lemma generateHOTP_cases secret :
  (exists e, forall counter, generateHOTP secret counter = Throw e)
  \/ (forall counter, exists code, generateHOTP secret counter = Ok code).
Proof.
  unfold generateHOTP. destruct (base32ToBytes secret) as [key|e]; cbn [bind].
  - destruct key as [|b key]; cbn [importKey_HMAC bind].
    + left. now exists DataError.
    + right. intros counter. eexists. reflexivity.
  - left. now exists e.
Qed.

Lemma includes_spec codes code : includes codes code = true <-> In code codes.
Proof.
  unfold includes. rewrite existsb_exists. split.
  - intros (c & Hc & E). apply bool_decide_eq_true_1 in E. now subst.
  - intros H. exists code. split; [assumption | now apply bool_decide_eq_true_2].
Qed.

Lemma app_one_neq {A} (l : list A) x : l <> l ++ [x].
Proof.
  intros E. apply (f_equal (@length A)) in E. rewrite length_app in E.
  cbn in E. lia.
Qed.

(** C8: with the counter [floor(now / 1000 / 30)] of the moment of the call,
    the account under verification is passed to the owner exactly when the
    submitted code is the code of the counter before, of the counter or of
    the counter after; otherwise nothing is passed. *)
Theorem verification_window (now : Z) (m : Modal) (account : NewAccount) :
  accountToVerify m = Some account ->
  let counter := now / 1000 / 30 in
  let code := verificationCode m in
  let m' := handleVerificationSubmit now m in
  (onAddAccount m' = onAddAccount m ++ [account] <->
     generateHOTP (secret account) (counter - 1) = Ok code
     \/ generateHOTP (secret account) counter = Ok code
     \/ generateHOTP (secret account) (counter + 1) = Ok code)
  /\ (onAddAccount m' = onAddAccount m ++ [account]
      \/ onAddAccount m' = onAddAccount m).
Proof.
  intros Ha. cbn zeta. unfold handleVerificationSubmit. rewrite Ha. cbn zeta.
  unfold time_counter. rewrite <- Z.div_div by lia.
  set (counter := now / 1000 / 30).
  destruct (generateHOTP_cases (secret account)) as [[e He] | Hok].
  - rewrite !He. cbn [bind onAddAccount]. split; [|now right]. split.
    + intros E. now apply app_one_neq in E.
    + intros [H | [H | H]]; discriminate.
  - destruct (Hok (counter - 1)) as [c0 E0], (Hok counter) as [c1 E1],
      (Hok (counter + 1)) as [c2 E2].
    rewrite E0, E1, E2. cbn [bind].
    destruct (includes [c0; c1; c2] (verificationCode m)) eqn:Hi;
      cbn [onAddAccount].
    + split; [|now left]. split; [|reflexivity]. intros _.
      apply includes_spec in Hi. cbn [In] in Hi.
      destruct Hi as [<- | [<- | [<- | []]]]; auto.
    + split; [|now right]. split.
      * intros E. now apply app_one_neq in E.
      * intros H. assert (In (verificationCode m) [c0; c1; c2]) as Hin.
        { cbn [In]. destruct H as [H | [H | H]]; injection H as ->; auto. }
        apply includes_spec in Hin. congruence.
Qed.

Lemma verification_window_witness :
  let counter := 15000 / 1000 / 30 in
  let code := verificationCode sample_modal in
  let m' := handleVerificationSubmit 15000 sample_modal in
  (onAddAccount m' = onAddAccount sample_modal ++ [sample_account] <->
     generateHOTP (secret sample_account) (counter - 1) = Ok code
     \/ generateHOTP (secret sample_account) counter = Ok code
     \/ generateHOTP (secret sample_account) (counter + 1) = Ok code)
  /\ (onAddAccount m' = onAddAccount sample_modal ++ [sample_account]
      \/ onAddAccount m' = onAddAccount sample_modal).
Proof.
  apply (verification_window 15000 sample_modal sample_account).
  reflexivity.
Defined.

Opaque deriveKey.

(** * Further properties of the sources *)

(** ** Base32 *)

(** X1: on a non-empty byte array, decoding the encoding returns the
    leading bytes that the emitted symbols cover in full. *)
Theorem base32_decode_prefix (bs : bytes) :
  bs <> [] -> Forall is_byte bs ->
  base32ToBytes (bytesToBase32 bs)
  = Ok (take (5 * (8 * length bs / 5) / 8) bs).
Proof. exact (base32_decode_encode bs). Qed.

Lemma base32_decode_prefix_witness :
  base32ToBytes (bytesToBase32 [1; 2; 3])
  = Ok (take (5 * (8 * length [1; 2; 3] / 5) / 8) [1; 2; 3]).
Proof.
  apply (base32_decode_prefix [1; 2; 3]).
  - discriminate.
  - repeat constructor; unfold is_byte; lia.
Defined.

Lemma bytesToBase32_symbols bs :
  Forall is_byte bs ->
  exists ws, bytesToBase32 bs = flat_map chunk_symbol ws /\ Forall word5 ws
             /\ length ws = (8 * length bs / 5)%nat.
Proof.
  intros Hbs. destruct (flat_map_bits bs Hbs) as [Hbits Hlen].
  destruct (split_words 5 (flat_map byte_bits bs)) as (ws & t5 & E5 & Hws & Ht5);
    [lia|].
  rewrite E5 in Hbits, Hlen. destruct (forallb_concat_app ws t5 Hbits) as [Hwb _].
  exists ws. split; [now apply (bytesToBase32_words bs ws t5)|]. split.
  - clear -Hws Hwb. induction Hws; inversion Hwb; subst; constructor; auto.
    split; auto.
  - rewrite length_app, (concat_length_uniform 5 ws Hws) in Hlen.
    apply (Nat.div_unique _ 5 _ (length t5)); [exact Ht5 | symmetry; exact Hlen].
Qed.

Lemma indexOf_In l c : Js.indexOf l c <> -1 -> In c l.
Proof.
  induction l as [|x l IH]; cbn [Js.indexOf]; [intros H; now contradiction H|].
  destruct (Z.eqb_spec x c) as [->|_]; [now left|].
  destruct (Z.eqb_spec (Js.indexOf l c) (-1)) as [E|N]; intros H.
  - now contradiction H.
  - right. now apply IH.
Qed.

Lemma symbol_bits_ok c w :
  symbol_bits c = Ok w -> Js.indexOf base32Chars c <> -1.
Proof.
  unfold symbol_bits. cbn zeta. intros Hs Hi.
  destruct (Js.indexOf base32Chars c =? -1) eqn:E.
  - discriminate Hs.
  - apply Z.eqb_neq in E. contradiction.
Qed.

Lemma symbols_length ws :
  Forall word5 ws -> length (flat_map chunk_symbol ws) = length ws.
Proof.
  induction 1 as [|w ws [Hl Hb] _ IH]; [reflexivity|].
  destruct (word_symbol w Hl Hb) as (c & E & _).
  cbn [flat_map]. rewrite length_app, E, IH. reflexivity.
Qed.

Lemma symbols_in_alphabet ws :
  Forall word5 ws ->
  Forall (fun c => In c base32Chars) (flat_map chunk_symbol ws).
Proof.
  induction 1 as [|w ws [Hl Hb] _ IH]; [constructor|].
  destruct (word_symbol w Hl Hb) as (c & E & _ & _ & Hs).
  cbn [flat_map]. rewrite E. apply Forall_app_2; [|assumption].
  apply Forall_cons. split; [|constructor].
  eapply indexOf_In, symbol_bits_ok, Hs.
Qed.

(** X2: the encoder writes one symbol of the alphabet for every five bits
    that the input fills, and nothing else: no padding, no other unit. *)
Theorem bytesToBase32_alphabet (bs : bytes) :
  Forall is_byte bs ->
  length (bytesToBase32 bs) = (8 * length bs / 5)%nat
  /\ Forall (fun c => In c base32Chars) (bytesToBase32 bs).
Proof.
  intros Hbs. destruct (bytesToBase32_symbols bs Hbs) as (ws & E & Hws & L).
  rewrite E. split.
  - rewrite symbols_length by assumption. exact L.
  - now apply symbols_in_alphabet.
Qed.

Lemma bytesToBase32_alphabet_witness :
  length (bytesToBase32 [255; 0; 7]) = (8 * length [255; 0; 7] / 5)%nat
  /\ Forall (fun c => In c base32Chars) (bytesToBase32 [255; 0; 7]).
Proof.
  apply (bytesToBase32_alphabet [255; 0; 7]).
  repeat constructor; unfold is_byte; lia.
Defined.

Lemma upper_lower_ascii c : Js.upper_unit (lower_ascii c) = Js.upper_unit c.
Proof.
  unfold lower_ascii. destruct ((65 <=? c) && (c <=? 90)) eqn:H; [|reflexivity].
  apply andb_true_iff in H as [H1 H2]. apply Z.leb_le in H1, H2.
  unfold Js.upper_unit.
  destruct ((97 <=? c + 32) && (c + 32 <=? 122)) eqn:H3.
  2:{ apply andb_false_iff in H3 as [H3|H3]; apply Z.leb_gt in H3; lia. }
  destruct ((97 <=? c) && (c <=? 122)) eqn:H4.
  { apply andb_true_iff in H4 as [H4 _]. apply Z.leb_le in H4. lia. }
  repeat match goal with
         | |- context [c =? ?k] => destruct (Z.eqb_spec c k); [lia|]
         end.
  cbn [orb]. f_equal. lia.
Qed.

Lemma toUpperCase_lower_ascii s :
  Js.toUpperCase (map lower_ascii s) = Js.toUpperCase s.
Proof.
  unfold Js.toUpperCase. induction s as [|c s IH]; [reflexivity|].
  cbn [map flat_map]. now rewrite upper_lower_ascii, IH.
Qed.

Lemma toUpperCase_padding n : Js.toUpperCase (repeat 61 n) = repeat 61 n.
Proof.
  unfold Js.toUpperCase. induction n as [|n IH]; [reflexivity|].
  cbn [repeat flat_map]. rewrite IH. reflexivity.
Qed.

Lemma strip_cons c s :
  Js.strip_trailing_eq (c :: s)
  = match Js.strip_trailing_eq s with
    | [] => if c =? 61 then [] else [c]
    | r => c :: r
    end.
Proof. reflexivity. Qed.

Lemma strip_padding n : Js.strip_trailing_eq (repeat 61 n) = [].
Proof.
  induction n as [|n IH]; [reflexivity|].
  cbn [repeat]. now rewrite strip_cons, IH.
Qed.

Lemma strip_app_padding x n :
  Js.strip_trailing_eq (x ++ repeat 61 n) = Js.strip_trailing_eq x.
Proof.
  induction x as [|c x IH]; [apply strip_padding|].
  rewrite <- app_comm_cons.
  now rewrite (strip_cons c (x ++ repeat 61 n)), (strip_cons c x), IH.
Qed.

(** X3: decoding ignores the case of Basic Latin letters and any number of
    [=] at the end. *)
Theorem base32ToBytes_case_padding (s : jsstring) (n : nat) :
  base32ToBytes (map lower_ascii s ++ repeat 61 n) = base32ToBytes s.
Proof.
  rewrite !base32ToBytes_unfold. unfold Js.toUpperCase at 1.
  rewrite flat_map_app. fold (Js.toUpperCase (map lower_ascii s)).
  fold (Js.toUpperCase (repeat 61 n)).
  now rewrite toUpperCase_lower_ascii, toUpperCase_padding, strip_app_padding.
Qed.

Lemma strip_keeps x c y :
  c <> 61 ->
  Js.strip_trailing_eq (x ++ c :: y) = x ++ c :: Js.strip_trailing_eq y.
Proof.
  intros Hc. induction x as [|a x IH].
  - change ([] ++ c :: y) with (c :: y). rewrite strip_cons.
    destruct (Js.strip_trailing_eq y); [|reflexivity].
    now destruct (Z.eqb_spec c 61).
  - rewrite <- app_comm_cons, (strip_cons a (x ++ c :: y)), IH. now destruct x.
Qed.

Lemma symbol_bits_cases c :
  symbol_bits c = Throw (Error "Invalid base32 character")
  \/ exists w, symbol_bits c = Ok w.
Proof.
  unfold symbol_bits. cbn zeta.
  destruct (Js.indexOf base32Chars c =? -1); [now left | right; eauto].
Qed.

Lemma mapM_symbol_bits_bad l c :
  In c l -> Js.indexOf base32Chars c = -1 ->
  mapM symbol_bits l = Throw (Error "Invalid base32 character").
Proof.
  intros Hin Hc. induction l as [|x l IH]; [contradiction|].
  cbn [mapM]. destruct (symbol_bits_cases x) as [-> | [w Hw]]; [reflexivity|].
  rewrite Hw. cbn [bind]. destruct Hin as [-> | Hin].
  - now apply symbol_bits_ok in Hw.
  - now rewrite IH.
Qed.

Lemma upper_unit_keeps d :
  d <> 61 -> exists e x, Js.upper_unit d = e :: x /\ Forall (fun u => u <> 61) (e :: x).
Proof.
  intros Hd. unfold Js.upper_unit.
  destruct ((97 <=? d) && (d <=? 122)) eqn:E.
  { exists (d - 32), []. split; [reflexivity|]. repeat constructor. lia. }
  repeat match goal with
         | |- context [if ?t then _ else _] =>
             destruct t;
             [eexists _, _; split; [reflexivity|];
              repeat constructor; discriminate |]
         end.
  exists d, []. split; [reflexivity|]. now repeat constructor.
Qed.

Lemma toUpperCase_keeps b :
  Exists (fun d => d <> 61) b ->
  exists y e z, Js.toUpperCase b = y ++ e :: z /\ e <> 61.
Proof.
  intros H. apply Exists_exists in H as (d & Hin & Hd).
  apply list_elem_of_In, in_split in Hin as (b1 & b2 & ->).
  destruct (upper_unit_keeps d Hd) as (e & x & Hu & Hall).
  exists (Js.toUpperCase b1), e, (x ++ Js.toUpperCase b2). split.
  - unfold Js.toUpperCase. rewrite flat_map_app. cbn [flat_map].
    rewrite Hu. reflexivity.
  - now apply Forall_cons in Hall as [He _].
Qed.

(** X4: a unit that is not a symbol of the alphabet and that upper-casing
    leaves as it is makes decoding throw "Invalid base32 character"
    wherever it stands, unless it is an [=] of the run of [=] that ends the
    text: white space, a digit 1 and an [=] before the end all do. *)
Theorem base32ToBytes_invalid_character (a b : jsstring) (c : Z) :
  Js.indexOf base32Chars c = -1 -> Js.upper_unit c = [c] ->
  c <> 61 \/ Exists (fun d => d <> 61) b ->
  base32ToBytes (a ++ c :: b) = Throw (Error "Invalid base32 character").
Proof.
  intros Hi Hu Hc. rewrite base32ToBytes_unfold.
  assert (E : Js.toUpperCase (a ++ c :: b)
              = Js.toUpperCase a ++ c :: Js.toUpperCase b).
  { unfold Js.toUpperCase. rewrite flat_map_app. cbn [flat_map].
    rewrite Hu. reflexivity. }
  rewrite E. destruct Hc as [Hc | Hb].
  - rewrite strip_keeps by assumption.
    rewrite (mapM_symbol_bits_bad _ c); [reflexivity | | assumption].
    apply in_or_app. right. now left.
  - destruct (toUpperCase_keeps b Hb) as (y & e & z & -> & He).
    replace (Js.toUpperCase a ++ c :: y ++ e :: z)
      with ((Js.toUpperCase a ++ c :: y) ++ e :: z)
      by (now rewrite <- app_assoc).
    rewrite strip_keeps by assumption.
    rewrite (mapM_symbol_bits_bad _ c); [reflexivity | | assumption].
    apply in_or_app. left. apply in_or_app. right. now left.
Qed.

Lemma base32ToBytes_invalid_character_witness :
  base32ToBytes (str "GEZD" ++ 49 :: str "NBVG")
  = Throw (Error "Invalid base32 character")
  /\ base32ToBytes (str "GE" ++ 61 :: str "ZD")
     = Throw (Error "Invalid base32 character")
  /\ base32ToBytes (str "GEZD" ++ 32 :: str "NBVG==")
     = Throw (Error "Invalid base32 character").
Proof.
  split; [|split].
  - apply (base32ToBytes_invalid_character (str "GEZD") (str "NBVG") 49).
    + reflexivity.
    + reflexivity.
    + left. discriminate.
  - apply (base32ToBytes_invalid_character (str "GE") (str "ZD") 61).
    + reflexivity.
    + reflexivity.
    + right. constructor. discriminate.
  - apply (base32ToBytes_invalid_character (str "GEZD") (str "NBVG==") 32).
    + reflexivity.
    + reflexivity.
    + left. discriminate.
Defined.

(** ** HOTP *)

Lemma six_digits_shape v :
  length (six_digits v) = 6%nat /\ Forall is_digit (six_digits v).
Proof.
  unfold six_digits. split; [reflexivity|].
  apply Forall_map, Forall_forall. intros i _. unfold is_digit.
  pose proof (Z.mod_pos_bound (v / 10 ^ i) 10 ltac:(lia)). lia.
Qed.

(** X5: whatever the counter, a code that [generateHOTP] returns is made of
    exactly six decimal digits. *)
Theorem generateHOTP_six_digits (secret : jsstring) (counter : Z)
    (newCode : jsstring) :
  generateHOTP secret counter = Ok newCode ->
  length newCode = 6%nat /\ Forall is_digit newCode.
Proof.
  intros H. destruct (base32ToBytes secret) as [key|e] eqn:E.
  2:{ unfold generateHOTP in H. rewrite E in H. discriminate H. }
  destruct key as [|b key].
  { unfold generateHOTP in H. rewrite E in H. discriminate H. }
  rewrite (generateHOTP_unfold secret (b :: key) counter E) in H by discriminate.
  cbn zeta in H.
  set (h := sign_HMAC (b :: key) _) in H.
  destruct (binary_truncation h (sign_HMAC_range _ _) (sign_HMAC_length _ _))
    as [Eb Rb].
  cbn zeta in Eb. rewrite Eb in H. rewrite Z.rem_mod_nonneg in H by lia.
  rewrite six_digits_toString in H by (apply Z.mod_pos_bound; lia).
  injection H as <-. apply six_digits_shape.
Qed.

Lemma generateHOTP_six_digits_witness :
  length (str "755224") = 6%nat /\ Forall is_digit (str "755224").
Proof.
  apply (generateHOTP_six_digits (str "GEZDGNBVGY3TQOJQGEZDGNBVGY3TQOJQ") 0).
  vm_compute. reflexivity.
Defined.

Ltac Zify.zify_post_hook ::= Z.to_euclidean_division_equations.

Lemma counter_words_wrap counter :
  (counter / 4294967296) mod 4294967296
  = (counter mod 2 ^ 64 / 4294967296) mod 4294967296
  /\ Z.rem counter 4294967296 mod 4294967296
     = Z.rem (counter mod 2 ^ 64) 4294967296 mod 4294967296.
Proof. change (2 ^ 64) with 18446744073709551616. split; lia. Qed.

Ltac Zify.zify_post_hook ::= idtac.

(** X6: the counter is signed as a 64-bit word: [generateHOTP] gives the
    same result for a counter and for its residue modulo 2^64, so the
    counter -1 stands for 2^64 - 1. *)
Theorem generateHOTP_counter_wraps (secret : jsstring) (counter : Z) :
  generateHOTP secret counter = generateHOTP secret (counter mod 2 ^ 64).
Proof.
  unfold generateHOTP. destruct (counter_words_wrap counter) as [Hhi Hlo].
  unfold setUint32. now rewrite Hhi, Hlo.
Qed.

(** ** The refresh hook *)

Lemma time_counter_seconds now : now / 1000 / 30 = time_counter now.
Proof. unfold time_counter. apply Z.div_div; lia. Qed.

Ltac Zify.zify_post_hook ::= Z.to_euclidean_division_equations.

(** X7: from 1970 on, the remaining time set by a tick and at mounting is
    between 1 and 30 and is what is left of the 30-second period. *)
Theorem useTotp_timeLeft (now now' : Z) (secret : jsstring) (v : UseTotp.View) :
  0 <= now ->
  let left := UseTotp.timeLeft (UseTotp.tick now now' secret v) in
  1 <= left <= 30 /\ left = 30 - (now / 1000) mod 30
  /\ UseTotp.timeLeft (UseTotp.mount now now' secret) = left.
Proof.
  intros Hn. cbn [UseTotp.tick UseTotp.mount UseTotp.update UseTotp.timeLeft].
  rewrite Z.rem_mod_nonneg by lia. repeat split; lia.
Qed.

Lemma useTotp_timeLeft_witness :
  let left := UseTotp.timeLeft
                (UseTotp.tick 59999 59999 (str "GEZDGNBVGY3TQOJQ")
                              (UseTotp.mkView (str "------") 0 None)) in
  1 <= left <= 30 /\ left = 30 - (59999 / 1000) mod 30
  /\ UseTotp.timeLeft (UseTotp.mount 59999 59999 (str "GEZDGNBVGY3TQOJQ")) = left.
Proof.
  apply (useTotp_timeLeft 59999 59999 (str "GEZDGNBVGY3TQOJQ")
           (UseTotp.mkView (str "------") 0 None)).
  lia.
Defined.

Ltac Zify.zify_post_hook ::= idtac.

(** X8: when [update] reads the clock in the same period as the tick that
    calls it, the view is up to date after mounting and after every tick
    that finds it up to date for the time of an earlier tick, however long
    ago that was: a late or missed tick does not leave an old code. *)
Theorem useTotp_code_current (now now' : Z) (secret : jsstring) :
  time_counter now' = time_counter now ->
  up_to_date secret now (UseTotp.mount now now' secret)
  /\ forall now0 v, up_to_date secret now0 v ->
       up_to_date secret now (UseTotp.tick now now' secret v).
Proof.
  intros Hp. unfold up_to_date. split.
  - cbn [UseTotp.mount UseTotp.update UseTotp.currentCounter UseTotp.code].
    rewrite time_counter_seconds. split; [reflexivity|].
    unfold shown, generateTOTP. now rewrite Hp.
  - intros now0 v [Hc Hv]. unfold UseTotp.tick. cbn zeta.
    rewrite time_counter_seconds, Hc.
    cbn [UseTotp.currentCounter UseTotp.code]. split; [reflexivity|].
    destruct (Z.eqb_spec (time_counter now0) (time_counter now)) as [E|_].
    + now rewrite Hv, E.
    + cbn [UseTotp.update UseTotp.code]. unfold shown, generateTOTP.
      now rewrite Hp.
Qed.

Lemma useTotp_code_current_witness :
  up_to_date (str "GEZDGNBVGY3TQOJQ") 60010
    (UseTotp.mount 60010 60012 (str "GEZDGNBVGY3TQOJQ"))
  /\ forall now0 v, up_to_date (str "GEZDGNBVGY3TQOJQ") now0 v ->
       up_to_date (str "GEZDGNBVGY3TQOJQ") 60010
         (UseTotp.tick 60010 60012 (str "GEZDGNBVGY3TQOJQ") v).
Proof.
  apply (useTotp_code_current 60010 60012 (str "GEZDGNBVGY3TQOJQ")).
  reflexivity.
Defined.

Ltac Zify.zify_post_hook ::= Z.to_euclidean_division_equations.

(** X9: the earlier hook, which refreshes when the rounded remaining time
    reads 30. A tick in the last half second of period [k - 1] refreshes
    with the code of period [k - 1], and a tick later in period [k], from
    half a second in to half a second before its end, does not refresh: the
    view shows the code of the period before. *)
Theorem useTotpRound_stale_code (k now1 now2 : Z) (secret : jsstring)
    (v : UseTotpRound.View) :
  1 <= k -> 30000 * k - 500 <= now1 < 30000 * k ->
  30000 * k + 500 <= now2 < 30000 * k + 29500 ->
  UseTotpRound.code
    (UseTotpRound.tick now2 now2 secret (UseTotpRound.tick now1 now1 secret v))
  = shown secret (k - 1)
  /\ time_counter now2 = k.
Proof.
  intros Hk H1 H2. unfold UseTotpRound.tick, UseTotpRound.round_seconds.
  cbn zeta. cbn [UseTotpRound.code].
  assert (E1 : (now1 + 500) / 1000 = 30 * k) by lia.
  assert (E2 : 30 - Z.rem ((now2 + 500) / 1000) 30 <> 30).
  { rewrite Z.rem_mod_nonneg by lia. lia. }
  rewrite E1. replace (Z.rem (30 * k) 30) with 0.
  2:{ rewrite Z.rem_mod_nonneg by lia. lia. }
  destruct (Z.eqb_spec (30 - Z.rem ((now2 + 500) / 1000) 30) 30) as [E|_];
    [contradiction|].
  change (30 - 0 =? 30) with true. cbn [UseTotpRound.update UseTotpRound.code].
  unfold shown, generateTOTP, time_counter. split.
  - replace (now1 / (1000 * 30)) with (k - 1) by lia. reflexivity.
  - lia.
Qed.

Ltac Zify.zify_post_hook ::= idtac.

Lemma useTotpRound_stale_code_witness :
  UseTotpRound.code
    (UseTotpRound.tick 60700 60700 (str "GEZDGNBVGY3TQOJQ")
       (UseTotpRound.tick 59700 59700 (str "GEZDGNBVGY3TQOJQ")
          (UseTotpRound.mkView (str "------") 0)))
  = shown (str "GEZDGNBVGY3TQOJQ") (2 - 1)
  /\ time_counter 60700 = 2.
Proof.
  apply (useTotpRound_stale_code 2 59700 60700 (str "GEZDGNBVGY3TQOJQ")
           (UseTotpRound.mkView (str "------") 0)); lia.
Defined.

(** ** Salt and envelope *)

Lemma generateSalt_spec (r : rng) :
  let salt := fst (fst (generateSalt r)) in
  let saltHex := snd (fst (generateSalt r)) in
  length salt = 16%nat /\ Forall is_byte salt /\ length saltHex = 32%nat
  /\ bytes_of_hex saltHex = Ok salt.
Proof.
  cbn zeta. unfold generateSalt.
  destruct (getRandomValues_spec 16 r) as [L R].
  change (getRandomValues 16 r)
    with (fst (getRandomValues 16 r), snd (getRandomValues 16 r)).
  cbn [fst snd]. repeat split; try assumption.
  - rewrite hex_length, L by assumption. reflexivity.
  - apply bytes_of_hex_of_bytes; [assumption|]. apply nonempty_length. lia.
Qed.

(** X10: the salt is sixteen bytes, its text thirty-two hexadecimal digits,
    and reading the text the way the login does gives the salt back. *)
Theorem generateSalt_parsed_back (r : rng) :
  let salt := fst (fst (generateSalt r)) in
  let saltHex := snd (fst (generateSalt r)) in
  length salt = 16%nat /\ Forall is_byte salt /\ length saltHex = 32%nat
  /\ bytes_of_hex saltHex = Ok salt.
Proof. exact (generateSalt_spec r). Qed.

Lemma decrypt_two_fields a b tl key :
  split 58 (a ++ 58 :: b) = [a; b] ->
  forall s, split 58 s = a :: b :: tl -> decrypt s key = decrypt (a ++ 58 :: b) key.
Proof. intros E s Es. unfold decrypt. cbn zeta. now rewrite E, Es. Qed.

(** X11: only the first two fields of the envelope text are read: whatever
    follows a second [:] changes nothing. *)
Theorem decrypt_ignores_third_field (a b rest : jsstring) (key : CryptoKey) :
  ~ In 58 a -> ~ In 58 b ->
  decrypt (a ++ 58 :: b ++ 58 :: rest) key = decrypt (a ++ 58 :: b) key.
Proof.
  intros Ha Hb. apply (decrypt_two_fields a b (split 58 rest)).
  - now rewrite split_at_sep, split_no_sep.
  - now rewrite !split_at_sep.
Qed.

Lemma decrypt_ignores_third_field_witness :
  decrypt (str "00" ++ 58 :: str "ff" ++ 58 :: str "junk") (repeat 7 32)
  = decrypt (str "00" ++ 58 :: str "ff") (repeat 7 32).
Proof.
  apply (decrypt_ignores_third_field (str "00") (str "ff") (str "junk")
           (repeat 7 32)); vm_compute; intuition discriminate.
Defined.

Section StoreRoundTrip.

Variable JSON_parse : jsstring -> result JsValue.
Variable JSON_stringify : JsValue -> jsstring.

(** X12: the accounts stored by [saveAccounts] under a well-formed 256-bit
    key are read back by [loadAccounts] with the same key as
    [JSON.parse(JSON.stringify(accounts))], when that text is well-formed
    UTF-16 and does not start with U+FEFF. *)
Theorem saveAccounts_loadAccounts (accs : JsValue) (key : CryptoKey)
    (email : jsstring) (ls : Storage) (r : rng) :
  length key = 32%nat -> Forall is_byte key ->
  well_formed (JSON_stringify accs) = true ->
  starts_with_bom (JSON_stringify accs) = false ->
  loadAccounts JSON_parse key email
    (fst (saveAccounts JSON_stringify accs key email ls r))
  = JSON_parse (JSON_stringify accs).
Proof. exact (save_then_load JSON_parse JSON_stringify accs key email ls r). Qed.

Lemma handleChangePassword_throws cur new vault e :
  fst (handleChangePassword JSON_parse JSON_stringify cur new vault) = Throw e ->
  snd (handleChangePassword JSON_parse JSON_stringify cur new vault) = vault.
Proof.
  unfold handleChangePassword.
  destruct (currentUser vault) as [[|c user]|]; try reflexivity.
  destruct (masterKey vault); try reflexivity.
  destruct (loadUser _ _ _); try reflexivity.
  destruct (bytes_of_hex _); try reflexivity.
  destruct (loadAccounts _ _ _ _); try reflexivity.
  destruct (saveAccounts _ _ _ _ _ _). discriminate.
Qed.

(** X13: a password change that fails, for whatever reason, leaves the
    whole state as it was: session, store and random source. *)
Theorem handleChangePassword_failure_atomic
    (currentPassword newPassword : jsstring) (a : App) (e : exn) :
  fst (handleChangePassword JSON_parse JSON_stringify currentPassword
         newPassword a) = Throw e ->
  snd (handleChangePassword JSON_parse JSON_stringify currentPassword
         newPassword a) = a.
Proof. exact (handleChangePassword_throws currentPassword newPassword a e). Qed.

(** X14: after a password change that succeeds, the stored blob loads under
    the new master key as [JSON.parse(JSON.stringify(accounts))] of the
    accounts in memory (when that text is well-formed and has no byte order
    mark), and the accounts in memory and the user are unchanged. *)
Theorem handleChangePassword_then_load
    (currentPassword newPassword : jsstring) (a a' : App) (user : jsstring) :
  currentUser a = Some user ->
  well_formed (JSON_stringify (accounts a)) = true ->
  starts_with_bom (JSON_stringify (accounts a)) = false ->
  handleChangePassword JSON_parse JSON_stringify currentPassword newPassword a
  = (Ok tt, a') ->
  exists newKey,
    masterKey a' = Some newKey
    /\ loadAccounts JSON_parse newKey user (localStorage a')
       = JSON_parse (JSON_stringify (accounts a))
    /\ accounts a' = accounts a /\ currentUser a' = Some user.
Proof.
  intros Hu Hw Hb. unfold handleChangePassword. rewrite Hu.
  destruct user as [|c user]; [discriminate|].
  destruct (masterKey a); [|discriminate].
  destruct (loadUser _ _ _); [|discriminate].
  destruct (bytes_of_hex _) as [salt|]; [|discriminate].
  destruct (loadAccounts _ _ _ _); [|discriminate].
  destruct (deriveKey_key newPassword salt) as [Lk Rk].
  pose proof (save_then_load JSON_parse JSON_stringify (accounts a) (deriveKey newPassword salt)
                (c :: user) (localStorage a) (random a) Lk Rk Hw Hb) as L.
  destruct (saveAccounts _ _ _ _ _ _) as [ls' r'].
  intros [= <-]. exists (deriveKey newPassword salt). cbn [fst] in L.
  repeat split; assumption.
Qed.

End StoreRoundTrip.

Lemma saveAccounts_loadAccounts_witness :
  loadAccounts sample_parse (repeat 7 32) (str "a@b")
    (fst (saveAccounts sample_stringify (JArray []) (repeat 7 32) (str "a@b")
            sample_store (fun i => Z.of_nat i)))
  = sample_parse (sample_stringify (JArray [])).
Proof.
  apply (saveAccounts_loadAccounts sample_parse sample_stringify (JArray [])
           (repeat 7 32) (str "a@b") sample_store (fun i => Z.of_nat i)).
  - reflexivity.
  - apply Forall_byte_ok. reflexivity.
  - reflexivity.
  - reflexivity.
Defined.

Lemma handleChangePassword_failure_atomic_witness :
  snd (handleChangePassword sample_parse sample_stringify (str "old")
         (str "new") (mkApp (JArray []) None None sample_store (fun _ => 0)))
  = mkApp (JArray []) None None sample_store (fun _ => 0).
Proof.
  apply (handleChangePassword_failure_atomic sample_parse sample_stringify
           (str "old") (str "new")
           (mkApp (JArray []) None None sample_store (fun _ => 0))
           (Error "Usuário não está logado ou a chave mestra está ausente.")).
  reflexivity.
Defined.

Lemma handleChangePassword_then_load_witness :
  exists newKey,
    masterKey (snd (handleChangePassword sample_parse sample_stringify
                      (str "old") (str "new") sample_app)) = Some newKey
    /\ loadAccounts sample_parse newKey (str "a@b")
         (localStorage (snd (handleChangePassword sample_parse sample_stringify
                               (str "old") (str "new") sample_app)))
       = sample_parse (sample_stringify (accounts sample_app))
    /\ accounts (snd (handleChangePassword sample_parse sample_stringify
                        (str "old") (str "new") sample_app))
       = accounts sample_app
    /\ currentUser (snd (handleChangePassword sample_parse sample_stringify
                           (str "old") (str "new") sample_app))
       = Some (str "a@b").
Proof.
  apply (handleChangePassword_then_load sample_parse sample_stringify
           (str "old") (str "new") sample_app).
  - reflexivity.
  - reflexivity.
  - reflexivity.
  - reflexivity.
Defined.

(** ** The store *)

Lemma storage_keys_differ a b :
  a <> b ->
  getUserKey a <> getUserKey b /\ getStorageKey a <> getStorageKey b.
Proof.
  intros H. split; intros E; apply H;
    [now apply getUserKey_inj | now apply getStorageKey_inj].
Qed.

(** X15: [deleteUser] removes the record and the blob of that email and
    nothing else: the record and the blob of every other email, and every
    other key, are as before. *)
Theorem deleteUser_only_that_user (email other : jsstring) (ls : Storage) :
  other <> email ->
  userExists (deleteUser email ls) email = false
  /\ deleteUser email ls !! getStorageKey email = None
  /\ userExists (deleteUser email ls) other = userExists ls other
  /\ deleteUser email ls !! getStorageKey other = ls !! getStorageKey other
  /\ forall k, k <> getUserKey email -> k <> getStorageKey email ->
       deleteUser email ls !! k = ls !! k.
Proof.
  intros H. destruct (storage_keys_differ other email H) as [Hu Hs].
  pose proof (user_key_not_storage_key email email) as Hx.
  pose proof (user_key_not_storage_key other email) as Hy.
  pose proof (user_key_not_storage_key email other) as Hz.
  unfold userExists, deleteUser. repeat split.
  - now rewrite lookup_delete_eq.
  - rewrite lookup_delete_ne by assumption. now rewrite lookup_delete_eq.
  - now rewrite !lookup_delete_ne by congruence.
  - now rewrite !lookup_delete_ne by congruence.
  - intros k H1 H2. now rewrite !lookup_delete_ne by congruence.
Qed.

Lemma deleteUser_only_that_user_witness :
  userExists (deleteUser (str "a@b") sample_store) (str "a@b") = false
  /\ deleteUser (str "a@b") sample_store !! getStorageKey (str "a@b") = None
  /\ userExists (deleteUser (str "a@b") sample_store) (str "c@d")
     = userExists sample_store (str "c@d")
  /\ deleteUser (str "a@b") sample_store !! getStorageKey (str "c@d")
     = sample_store !! getStorageKey (str "c@d")
  /\ forall k, k <> getUserKey (str "a@b") -> k <> getStorageKey (str "a@b") ->
       deleteUser (str "a@b") sample_store !! k = sample_store !! k.
Proof.
  apply (deleteUser_only_that_user (str "a@b") (str "c@d") sample_store).
  vm_compute. discriminate.
Defined.

Section Rename.

Variable JSON_parse : jsstring -> result JsValue.
Variable JSON_stringify : JsValue -> jsstring.

(** X16: renaming a stored user to a free email moves both entries: the
    record, with its email replaced, and the blob are under the new email,
    nothing is left under the old one, and every other key is as before. *)
Theorem updateUserEmail_moves (oldEmail newEmail : jsstring) (ls : Storage)
    (userData : JsValue) (blob : jsstring) :
  oldEmail <> newEmail -> userExists ls newEmail = false ->
  loadUser JSON_parse ls oldEmail = Some userData ->
  ls !! getStorageKey oldEmail = Some blob -> blob <> [] ->
  let ls' := snd (updateUserEmail JSON_parse JSON_stringify oldEmail newEmail ls) in
  fst (updateUserEmail JSON_parse JSON_stringify oldEmail newEmail ls) = true
  /\ ls' !! getUserKey newEmail
     = Some (JSON_stringify (set_prop userData (str "email") (JString newEmail)))
  /\ ls' !! getStorageKey newEmail = Some blob
  /\ ls' !! getUserKey oldEmail = None
  /\ ls' !! getStorageKey oldEmail = None
  /\ forall k, k <> getUserKey oldEmail -> k <> getStorageKey oldEmail ->
       k <> getUserKey newEmail -> k <> getStorageKey newEmail ->
       ls' !! k = ls !! k.
Proof.
  intros Hne Hfree Hload Hblob Hnb. cbn zeta. unfold updateUserEmail.
  rewrite Hfree, Hload. cbn zeta.
  destruct (storage_keys_differ oldEmail newEmail Hne) as [Hu Hs].
  pose proof (user_key_not_storage_key oldEmail oldEmail) as H1.
  pose proof (user_key_not_storage_key newEmail oldEmail) as H2.
  pose proof (user_key_not_storage_key oldEmail newEmail) as H3.
  pose proof (user_key_not_storage_key newEmail newEmail) as H4.
  rewrite lookup_delete_ne, lookup_insert_ne by congruence.
  match goal with
  | |- context [match ?x with Some _ => _ | None => _ end] =>
      replace x with (Some blob) by (symmetry; exact Hblob)
  end.
  destruct blob as [|c blob]; [contradiction|]. cbn [fst snd].
  repeat split.
  - rewrite lookup_delete_ne, lookup_insert_ne, lookup_delete_ne by congruence.
    now rewrite lookup_insert_eq.
  - rewrite lookup_delete_ne by congruence. now rewrite lookup_insert_eq.
  - rewrite lookup_delete_ne, lookup_insert_ne by congruence.
    now rewrite lookup_delete_eq.
  - now rewrite lookup_delete_eq.
  - intros k K1 K2 K3 K4.
    now rewrite lookup_delete_ne, lookup_insert_ne, lookup_delete_ne,
      lookup_insert_ne by congruence.
Qed.

End Rename.

Lemma fold_delete_lookup keys : forall (m : Storage) k,
  fold_left (fun m key => delete key m) keys m !! k
  = if bool_decide (k ∈ keys) then None else m !! k.
Proof.
  induction keys as [|key keys IH]; intros m k; [reflexivity|].
  cbn [fold_left]. rewrite IH.
  destruct (decide (key = k)) as [->|Hk].
  - rewrite lookup_delete_eq. rewrite (bool_decide_eq_true_2 (k ∈ k :: keys));
      [|now left]. now destruct (bool_decide (k ∈ keys)).
  - rewrite lookup_delete_ne by assumption.
    destruct (bool_decide (k ∈ keys)) eqn:E.
    + apply bool_decide_eq_true_1 in E.
      now rewrite (bool_decide_eq_true_2 (k ∈ key :: keys)) by now right.
    + apply bool_decide_eq_false_1 in E.
      rewrite (bool_decide_eq_false_2 (k ∈ key :: keys)); [reflexivity|].
      intros Hin. apply elem_of_cons in Hin as [?|?]; [congruence | contradiction].
Qed.

(** X17: [clearAllData] removes every key that starts with one of the two
    prefixes of the vault and leaves every other key of the store alone;
    after it no user exists. *)
Theorem clearAllData_lookup (ls : Storage) (k email : jsstring) :
  clearAllData ls !! k = (if vault_key k then None else ls !! k)
  /\ userExists (clearAllData ls) email = false.
Proof.
  assert (H : forall k, clearAllData ls !! k
                        = if vault_key k then None else ls !! k).
  { clear k. intros k. unfold clearAllData. cbn zeta. rewrite fold_delete_lookup.
    destruct (vault_key k) eqn:V.
    - destruct (ls !! k) as [v|] eqn:L.
      + rewrite bool_decide_eq_true_2; [reflexivity|].
        apply list_elem_of_In, filter_In. split; [|assumption].
        apply in_map_iff. exists (k, v). split; [reflexivity|].
        apply list_elem_of_In, elem_of_map_to_list. assumption.
      + now destruct (bool_decide _).
    - rewrite bool_decide_eq_false_2; [reflexivity|].
      intros Hin. apply list_elem_of_In, filter_In in Hin as [_ Hin]. congruence. }
  split; [apply H|]. unfold userExists. rewrite H.
  now replace (vault_key (getUserKey email)) with true.
Qed.

Lemma updateUserEmail_moves_witness :
  let ls' := snd (updateUserEmail sample_parse sample_stringify (str "a@b")
                    (str "c@d") sample_vault) in
  fst (updateUserEmail sample_parse sample_stringify (str "a@b") (str "c@d")
         sample_vault) = true
  /\ ls' !! getUserKey (str "c@d")
     = Some (sample_stringify
               (set_prop sample_record (str "email") (JString (str "c@d"))))
  /\ ls' !! getStorageKey (str "c@d") = Some (str "00:ff")
  /\ ls' !! getUserKey (str "a@b") = None
  /\ ls' !! getStorageKey (str "a@b") = None
  /\ forall k, k <> getUserKey (str "a@b") -> k <> getStorageKey (str "a@b") ->
       k <> getUserKey (str "c@d") -> k <> getStorageKey (str "c@d") ->
       ls' !! k = sample_vault !! k.
Proof.
  apply (updateUserEmail_moves sample_parse sample_stringify (str "a@b")
           (str "c@d") sample_vault sample_record (str "00:ff")).
  - vm_compute. discriminate.
  - vm_compute. reflexivity.
  - vm_compute. reflexivity.
  - vm_compute. reflexivity.
  - discriminate.
Defined.

(** ** Login and the password form *)

Section Session.

Variable JSON_parse : jsstring -> result JsValue.
Variable JSON_stringify : JsValue -> jsstring.

(** X18: a login that fails, for whatever reason, changes nothing but the
    message shown: no session is opened and the store is untouched. *)
Theorem handleLogin_failure (email password : jsstring) (s : Screen) (e : exn) :
  fst (handleLogin JSON_parse email password s) = Throw e ->
  vault (snd (handleLogin JSON_parse email password s)) = vault s
  /\ is_Some (shown_error (snd (handleLogin JSON_parse email password s))).
Proof.
  unfold handleLogin. cbn zeta.
  destruct (userExists _ _); cbn [negb]; [|split; [reflexivity | eauto]].
  destruct (loadUser _ _ _); [|split; [reflexivity | eauto]].
  destruct (bytes_of_hex _); [|split; [reflexivity | eauto]].
  destruct (loadAccounts _ _ _ _); [discriminate | split; [reflexivity | eauto]].
Qed.

(** X19: the password form changes the state only when the new password
    equals its confirmation, has at least 8 units, differs from the current
    one and [handleChangePassword] succeeds. *)
Theorem changePassword_submit_guards
    (currentPassword newPassword confirmPassword : jsstring) (a : App) :
  snd (changePassword_submit JSON_parse JSON_stringify currentPassword
         newPassword confirmPassword a) <> a ->
  newPassword = confirmPassword /\ (8 <= length newPassword)%nat
  /\ currentPassword <> newPassword
  /\ fst (handleChangePassword JSON_parse JSON_stringify currentPassword
            newPassword a) = Ok tt.
Proof.
  unfold changePassword_submit.
  destruct (decide (newPassword = confirmPassword)) as [E|N].
  2:{ rewrite bool_decide_eq_false_2 by assumption. cbn. congruence. }
  rewrite bool_decide_eq_true_2 by assumption. cbn [negb].
  destruct (Nat.ltb_spec (length newPassword) 8); [cbn; congruence|].
  destruct (decide (currentPassword = newPassword)) as [E'|N'].
  { rewrite bool_decide_eq_true_2 by assumption. cbn. congruence. }
  rewrite bool_decide_eq_false_2 by assumption.
  pose proof (handleChangePassword_throws JSON_parse JSON_stringify
                currentPassword newPassword a) as T.
  destruct (handleChangePassword _ _ _ _ _) as [[[]|e] a']; cbn [fst snd] in *.
  - auto.
  - intros H'. exfalso. apply H'. now apply (T e).
Qed.

End Session.

Lemma handleLogin_failure_witness :
  vault (snd (handleLogin sample_parse (str "c@d") (str "pw")
              (mkScreen sample_app None))) = sample_app
  /\ is_Some (shown_error (snd (handleLogin sample_parse (str "c@d") (str "pw")
                                  (mkScreen sample_app None)))).
Proof.
  apply (handleLogin_failure sample_parse (str "c@d") (str "pw")
           (mkScreen sample_app None) (Error "User not found")).
  vm_compute. reflexivity.
Defined.

Lemma handleChangePassword_stores JSON_parse JSON_stringify cur new a a' user :
  currentUser a = Some user ->
  handleChangePassword JSON_parse JSON_stringify cur new a = (Ok tt, a') ->
  is_Some (localStorage a' !! getStorageKey user).
Proof.
  intros Hu. unfold handleChangePassword. rewrite Hu.
  destruct user as [|c user]; [discriminate|].
  destruct (masterKey a); [|discriminate].
  destruct (loadUser _ _ _); [|discriminate].
  destruct (bytes_of_hex _) as [salt|]; [|discriminate].
  destruct (loadAccounts _ _ _ _); [|discriminate].
  unfold saveAccounts. destruct (encrypt _ _ _) as [env r'].
  intros [= <-]. cbn [localStorage]. rewrite lookup_insert_eq. eauto.
Qed.

Lemma changePassword_submit_guards_witness :
  str "new-password" = str "new-password"
  /\ (8 <= length (str "new-password"))%nat
  /\ str "old-password" <> str "new-password"
  /\ fst (handleChangePassword sample_parse sample_stringify
            (str "old-password") (str "new-password") sample_app) = Ok tt.
Proof.
  apply (changePassword_submit_guards sample_parse sample_stringify
           (str "old-password") (str "new-password") (str "new-password")
           sample_app).
  intros E.
  assert (Hs : snd (changePassword_submit sample_parse sample_stringify
                      (str "old-password") (str "new-password")
                      (str "new-password") sample_app)
               = snd (handleChangePassword sample_parse sample_stringify
                        (str "old-password") (str "new-password") sample_app))
    by reflexivity.
  assert (Hok : handleChangePassword sample_parse sample_stringify
                  (str "old-password") (str "new-password") sample_app
                = (Ok tt, snd (handleChangePassword sample_parse
                                 sample_stringify (str "old-password")
                                 (str "new-password") sample_app)))
    by reflexivity.
  apply (handleChangePassword_stores sample_parse sample_stringify
           (str "old-password") (str "new-password") sample_app _ (str "a@b")
           eq_refl) in Hok.
  rewrite <- Hs, E in Hok. destruct Hok as [x Hx]. vm_compute in Hx.
  discriminate Hx.
Defined.

(** ** Registration followed by login *)

Section Register.

Variable JSON_parse : jsstring -> result JsValue.
Variable JSON_stringify : JsValue -> jsstring.

(** X20: registering a free email that is not the administrator's, logging
    out and logging in with the same password opens the session with an
    empty account list and the same master key, provided [JSON.parse]
    reads back the user record and the empty list that [JSON.stringify]
    wrote (texts not empty, well-formed, without byte order mark). *)
Theorem register_then_login (email password : jsstring) (s : Screen) :
  toLowerCase email <> toLowerCase getAdminUser ->
  userExists (localStorage (vault s)) email = false ->
  let saltHex := snd (fst (generateSalt (random (vault s)))) in
  let record := JObject [(str "salt", JString saltHex);
                         (str "email", JString email)] in
  JSON_stringify record <> [] ->
  JSON_parse (JSON_stringify record) = Ok record ->
  JSON_parse (JSON_stringify (JArray [])) = Ok (JArray []) ->
  well_formed (JSON_stringify (JArray [])) = true ->
  starts_with_bom (JSON_stringify (JArray [])) = false ->
  let reg := handleRegister JSON_stringify email password s in
  let login := handleLogin JSON_parse email password (handleLogout (snd reg)) in
  fst reg = Ok tt /\ fst login = Ok tt
  /\ accounts (vault (snd login)) = JArray []
  /\ currentUser (vault (snd login)) = Some email
  /\ masterKey (vault (snd login)) = masterKey (vault (snd reg)).
Proof.
  intros Hadmin Hfree. cbn zeta. intros Hne Hrec Harr Hw Hb.
  unfold handleRegister. cbn zeta.
  rewrite bool_decide_eq_false_2 by assumption. rewrite Hfree.
  destruct (generateSalt_spec (random (vault s))) as (_ & _ & _ & Hhex).
  cbn zeta in Hhex.
  destruct (generateSalt (random (vault s))) as [[salt saltHex] r1].
  cbn [fst snd] in *.
  destruct (deriveKey_key password salt) as [Lk Rk].
  pose proof (save_then_load JSON_parse JSON_stringify (JArray [])
                (deriveKey password salt) email
                (saveUser JSON_stringify email saltHex (localStorage (vault s)))
                r1 Lk Rk Hw Hb) as Hload.
  destruct (saveAccounts _ _ _ _ _ _) as [ls2 r2] eqn:Es.
  cbn [fst snd] in *. split; [reflexivity|].
  assert (Hu : ls2 !! getUserKey email
               = Some (JSON_stringify
                         (JObject [(str "salt", JString saltHex);
                                   (str "email", JString email)]))).
  { unfold saveAccounts in Es. destruct (encrypt _ _ _) in Es.
    injection Es as <- _. rewrite lookup_insert_ne.
    - unfold saveUser. now rewrite lookup_insert_eq.
    - intros E. symmetry in E. now apply user_key_not_storage_key in E. }
  unfold handleLogin, handleLogout. cbn zeta. cbn [vault localStorage random].
  destruct (JSON_stringify (JObject _)) as [|c text] eqn:Et; [contradiction|].
  unfold userExists, loadUser.
  repeat match goal with
         | |- context [?x] =>
             lazymatch x with
             | _ !! _ => replace x with (Some (c :: text)) by (symmetry; exact Hu)
             end
         end.
  cbn [negb]. cbv beta iota. rewrite Hrec.
  change (truthy (JObject [(str "salt", JString saltHex);
                           (str "email", JString email)])) with true.
  change (prop (JObject [(str "salt", JString saltHex);
                         (str "email", JString email)]) (str "email"))
    with (Some (JString email)).
  change (prop (JObject [(str "salt", JString saltHex);
                         (str "email", JString email)]) (str "salt"))
    with (Some (JString saltHex)).
  cbn [as_string]. rewrite !bool_decide_eq_true_2 by eauto.
  cbn [andb]. cbv beta iota.
  change (prop (JObject [(str "salt", JString saltHex);
                         (str "email", JString email)]) (str "salt"))
    with (Some (JString saltHex)).
  cbn [as_string default from_option id]. rewrite Hhex, Hload, Harr.
  cbn [fst snd vault accounts currentUser masterKey]. auto.
Qed.

End Register.

Lemma register_then_login_witness :
  let reg := handleRegister registered_stringify (str "c@d") (str "password")
               fresh_screen in
  let login := handleLogin registered_parse (str "c@d") (str "password")
                 (handleLogout (snd reg)) in
  fst reg = Ok tt /\ fst login = Ok tt
  /\ accounts (vault (snd login)) = JArray []
  /\ currentUser (vault (snd login)) = Some (str "c@d")
  /\ masterKey (vault (snd login)) = masterKey (vault (snd reg)).
Proof.
  apply (register_then_login registered_parse registered_stringify
           (str "c@d") (str "password") fresh_screen).
  - vm_compute. discriminate.
  - vm_compute. reflexivity.
  - vm_compute. discriminate.
  - vm_compute. reflexivity.
  - vm_compute. reflexivity.
  - vm_compute. reflexivity.
  - vm_compute. reflexivity.
Defined.

(** ** Manual entry and file import *)

Lemma skip_white_space_suffix (s : jsstring) :
  exists p, s = p ++ Js.skip_white_space s.
Proof.
  induction s as [|c s IH]; [now exists []|].
  cbn [Js.skip_white_space]. destruct (Js.is_white_space c).
  - destruct IH as [p Hp]. exists (c :: p). cbn. now f_equal.
  - now exists [].
Qed.

Lemma skip_white_space_head (s : jsstring) (c : Z) (r : jsstring) :
  Js.skip_white_space s = c :: r -> Js.is_white_space c = false.
Proof.
  induction s as [|d s IH]; [discriminate|].
  cbn [Js.skip_white_space]. destruct (Js.is_white_space d) eqn:E; [exact IH|].
  intros [= -> _]. exact E.
Qed.

Lemma trim_head (s : jsstring) (c : Z) (r : jsstring) :
  trim s = c :: r -> Js.is_white_space c = false.
Proof.
  unfold trim. intros H.
  destruct (skip_white_space_suffix (rev (Js.skip_white_space s))) as [p Hp].
  apply (f_equal (@rev Z)) in Hp. rewrite rev_involutive, rev_app_distr, H in Hp.
  exact (skip_white_space_head _ _ _ Hp).
Qed.

Lemma remove_white_space_spec (s : jsstring) :
  no_white_space (remove_white_space s).
Proof.
  unfold no_white_space, remove_white_space.
  induction s as [|c s IH]; [constructor|].
  cbn [List.filter]. destruct (Js.is_white_space c) eqn:E; cbn [negb].
  - exact IH.
  - constructor; assumption.
Qed.

(** X21: the manual form either reports the missing field and leaves the
    account awaiting verification as it was, or stages an account whose
    name and issuer are not empty and whose secret is not empty and holds
    no white space. *)
Theorem handleManualSubmit_staged
    (issuer0 name0 secret0 username0 password0 : jsstring) (m : Modal) :
  let m' := handleManualSubmit issuer0 name0 secret0 username0 password0 m in
  (trim name0 = [] \/ trim secret0 = [] ->
   accountToVerify m' = accountToVerify m
   /\ error m' = Some "Nome da conta e segredo são obrigatórios."%string)
  /\ (trim name0 <> [] -> trim secret0 <> [] ->
      exists acc, accountToVerify m' = Some acc
        /\ name acc = trim name0 /\ issuer acc <> []
        /\ secret acc <> [] /\ no_white_space (secret acc)
        /\ error m' = error m).
Proof.
  cbn zeta. unfold handleManualSubmit. split.
  - intros [E|E]; rewrite E; [|destruct (trim name0)]; now cbn.
  - intros Hn Hs. destruct (trim name0) as [|c n] eqn:En; [contradiction|].
    destruct (trim secret0) as [|d t] eqn:Et; [contradiction|].
    eexists. cbn [accountToVerify error]. split; [reflexivity|].
    cbn [name issuer secret]. repeat split.
    + unfold or_else. destruct (trim issuer0); discriminate.
    + unfold remove_white_space. cbn [List.filter].
      rewrite (trim_head _ _ _ Et). discriminate.
    + apply remove_white_space_spec.
Qed.

Lemma import_items_all (items : list JsValue) (index : nat) :
  Forall (fun item => importable item = true) items ->
  exists accs, import_items index items = Ok accs
    /\ length accs = length items
    /\ forall (i : nat) (item : JsValue), items !! i = Some item ->
         exists acc, accs !! i = Some acc
           /\ prop item (str "name") = Some (imp_name acc)
           /\ prop item (str "secret") = Some (imp_secret acc)
           /\ truthy (imp_name acc) = true
           /\ truthy (imp_secret acc) = true
           /\ truthy (imp_issuer acc) = true
           /\ (forall v, prop item (str "issuer") = Some v -> truthy v = true ->
               imp_issuer acc = v)
           /\ (absent_or_falsy (prop item (str "issuer")) = true ->
               imp_issuer acc = imp_name acc)
           /\ imp_username acc = prop item (str "username")
           /\ imp_password acc = prop item (str "password").
Proof.
  revert index. induction items as [|item items IH]; intros index Hall.
  - exists []. repeat split. intros i item Hi. now rewrite lookup_nil in Hi.
  - apply Forall_cons in Hall as [Hi Hall].
    destruct (IH (S index) Hall) as (rest & Hrest & Hlen & Hlook).
    cbn [import_items]. unfold import_item. unfold importable in Hi.
    apply negb_true_iff in Hi. rewrite Hi, Hrest. cbv beta iota zeta.
    eexists. split; [reflexivity|]. split; [cbn [length]; now rewrite Hlen|].
    apply orb_false_iff in Hi as [Hi Hname].
    apply orb_false_iff in Hi as [_ Hsecret].
    intros [|i] item' Hitem.
    + change (Some item = Some item') in Hitem.
      injection Hitem as <-. eexists. split; [reflexivity|].
      cbn [imp_name imp_secret imp_issuer imp_username imp_password].
      destruct (prop item (str "name")) as [n|]; [|discriminate].
      destruct (prop item (str "secret")) as [k|]; [|discriminate].
      cbn [absent_or_falsy] in Hname, Hsecret.
      apply negb_false_iff in Hname, Hsecret.
      cbn [default from_option id].
      destruct (prop item (str "issuer")) as [v|]; cbn [absent_or_falsy].
      * destruct (truthy v) eqn:Ev; repeat split; try assumption;
          try discriminate; try reflexivity.
        -- now intros w [= <-] _.
        -- intros w [= <-]. congruence.
      * repeat split; try assumption; try reflexivity. discriminate.
    + exact (Hlook i item' Hitem).
Qed.

Lemma import_items_first_bad (good rest : list JsValue) (bad : JsValue)
    (index : nat) :
  Forall (fun item => importable item = true) good ->
  importable bad = false ->
  import_items index (good ++ bad :: rest)
  = Throw (invalid_entry (index + length good)).
Proof.
  revert index. induction good as [|item good IH]; intros index Hall Hbad.
  - rewrite app_nil_l. cbn [import_items length]. unfold import_item.
    unfold importable in Hbad. apply negb_false_iff in Hbad. rewrite Hbad.
    rewrite Nat.add_0_r. reflexivity.
  - apply Forall_cons in Hall as [Hi Hall].
    rewrite <- app_comm_cons. cbn [import_items]. unfold import_item at 1.
    unfold importable in Hi. apply negb_true_iff in Hi. rewrite Hi.
    rewrite (IH (S index) Hall Hbad). cbn [length].
    replace (S index + length good)%nat with (index + S (length good))%nat by lia.
    reflexivity.
Qed.

(** X22: a file whose items all are objects with truthy [name] and
    [secret] is imported whole and in order: as many accounts as items,
    each with its item's name, secret, user name and password; the issuer
    is the item's issuer when that is truthy and the item's name when it is
    absent or falsy, so it is never falsy. *)
Theorem handleFileImport_all (items : list JsValue) :
  items <> [] ->
  Forall (fun item => importable item = true) items ->
  exists accs, handleFileImport (JArray items) = Ok accs
    /\ length accs = length items
    /\ forall (i : nat) (item : JsValue), items !! i = Some item ->
         exists acc, accs !! i = Some acc
           /\ prop item (str "name") = Some (imp_name acc)
           /\ prop item (str "secret") = Some (imp_secret acc)
           /\ truthy (imp_name acc) = true
           /\ truthy (imp_secret acc) = true
           /\ truthy (imp_issuer acc) = true
           /\ (forall v, prop item (str "issuer") = Some v -> truthy v = true ->
               imp_issuer acc = v)
           /\ (absent_or_falsy (prop item (str "issuer")) = true ->
               imp_issuer acc = imp_name acc)
           /\ imp_username acc = prop item (str "username")
           /\ imp_password acc = prop item (str "password").
Proof.
  intros Hne Hall.
  destruct (import_items_all items 0 Hall) as (accs & Hok & Hlen & Hlook).
  exists accs. unfold handleFileImport. rewrite Hok. cbn.
  destruct accs as [|a accs].
  - destruct items; [contradiction|discriminate].
  - auto.
Qed.

Lemma handleFileImport_all_witness :
  exists a0 a1,
    handleFileImport (JArray sample_file) = Ok [a0; a1]
    /\ imp_issuer a0 = JString (str "GitHub")
    /\ imp_name a0 = JString (str "me")
    /\ imp_secret a0 = JString (str "JBSWY3DP")
    /\ imp_issuer a1 = JString (str "you")
    /\ imp_name a1 = JString (str "you")
    /\ imp_password a1 = Some (JString (str "pw")).
Proof.
  destruct (handleFileImport_all sample_file)
    as (accs & H & L & Hlook).
  - discriminate.
  - repeat constructor.
  - destruct (Hlook 0%nat _ eq_refl)
      as (a0 & E0 & N0 & S0 & _ & _ & _ & I0 & _ & _ & _).
    destruct (Hlook 1%nat _ eq_refl)
      as (a1 & E1 & N1 & _ & _ & _ & _ & _ & I1 & _ & P1).
    destruct accs as [|x0 [|x1 [|x2 accs]]]; try discriminate L.
    injection E0 as ->. injection E1 as ->.
    exists a0, a1. split; [exact H|].
    injection N0 as N0. injection S0 as S0. injection N1 as N1.
    rewrite (I0 _ eq_refl eq_refl), (I1 eq_refl), <- N0, <- S0, <- N1, P1.
    repeat split; reflexivity.
Defined.

(** X23: the import is all or nothing: the first item that is not an
    object with truthy [name] and [secret] stops it with the error that
    names that item's index, whatever follows and however many good items
    come before. *)
Theorem handleFileImport_first_invalid (good rest : list JsValue)
    (bad : JsValue) :
  Forall (fun item => importable item = true) good ->
  importable bad = false ->
  handleFileImport (JArray (good ++ bad :: rest))
  = Throw (invalid_entry (length good)).
Proof.
  intros Hall Hbad. unfold handleFileImport.
  rewrite (import_items_first_bad good rest bad 0 Hall Hbad). reflexivity.
Qed.

Lemma handleFileImport_first_invalid_witness :
  handleFileImport
    (JArray ([JObject [(str "name", JString (str "n"));
                       (str "secret", JString (str "JBSWY3DP"))]]
             ++ JObject [(str "name", JString (str "m"))] :: []))
  = Throw (invalid_entry 1).
Proof.
  apply (handleFileImport_first_invalid
           [JObject [(str "name", JString (str "n"));
                     (str "secret", JString (str "JBSWY3DP"))]]
           [] (JObject [(str "name", JString (str "m"))])).
  - repeat constructor.
  - reflexivity.
Defined.
